(** * The result waiter and the stream relay of the gateway (src/api/main.py)

    A shallow embedding of [wait_for_result], [stream_completion_response],
    the endpoints that call them and the check of the bearer token, over a
    model of the Redis keys they use and of a worker that writes to those
    keys while the gateway polls.

    Time is a clock in milliseconds that only [asyncio.sleep] advances.  A
    command always reaches the broker and is carried out, except in the
    part on the relay when a command fails.  Logging is left out. *)

From Stdlib Require Import ZArith Lia Ascii.
From stdpp Require Import base option list strings gmap fin_maps.

Open Scope Z_scope.
Set Warnings "-register-all".

(** ** JSON values and the Python operations the gateway applies to them *)

(** What [json.loads] returns.  Numbers are integers here; the gateway never
    computes with a number it has decoded. *)
Inductive json :=
| JNull
| JBool (b : bool)
| JNum (z : Z)
| JStr (s : string)
| JArr (items : list json)
| JObj (fields : list (string * json)).

(** Python truthiness, as tested by [if result.get("error"):] and by
    [response_data.get("stop", False)]. *)
Definition truthy (j : json) : bool :=
  match j with
  | JNull => false
  | JBool b => b
  | JNum z => negb (z =? 0)
  | JStr s => negb (String.eqb s "")
  | JArr items => match items with [] => false | _ => true end
  | JObj fields => match fields with [] => false | _ => true end
  end.

(** [type(j).__name__], which appears in the text of an [AttributeError]. *)
Definition type_name (j : json) : string :=
  match j with
  | JNull => "NoneType"
  | JBool _ => "bool"
  | JNum _ => "int"
  | JStr _ => "str"
  | JArr _ => "list"
  | JObj _ => "dict"
  end.

Fixpoint assoc (k : string) (fields : list (string * json)) : option json :=
  match fields with
  | [] => None
  | (k', v) :: rest => if String.eqb k k' then Some v else assoc k rest
  end.

(** The exceptions the modelled code can meet, each with the text [str(e)]
    gives for it.  [HTTPException] also carries the status code and the
    detail it was built with. *)
Inductive exn :=
| JSONDecodeError (msg : string)
| AttributeError (msg : string)
| KeyError (msg : string)
| TypeError (msg : string)
| ResponseError (msg : string)
| HTTPException (status : Z) (detail : json) (msg : string).

Definition str (e : exn) : string :=
  match e with
  | JSONDecodeError msg | AttributeError msg | KeyError msg | TypeError msg
  | ResponseError msg | HTTPException _ _ msg => msg
  end.

Definition no_attribute_get (j : json) : exn :=
  AttributeError ("'" +:+ type_name j +:+ "' object has no attribute 'get'").

(** [d.get(k, default)]: only a dict has the method. *)
Definition dict_get (d : json) (k : string) (dflt : json) : exn + json :=
  match d with
  | JObj fields => inr (default dflt (assoc k fields))
  | _ => inl (no_attribute_get d)
  end.

(** [d[k]]; the gateway only subscripts a value on which [.get] has
    succeeded, so the second case is not reached. *)
Definition dict_item (d : json) (k : string) : exn + json :=
  match d with
  | JObj fields =>
      match assoc k fields with
      | Some v => inr v
      | None => inl (KeyError ("'" +:+ k +:+ "'"))
      end
  | _ => inl (TypeError ("'" +:+ type_name d +:+ "' object is not subscriptable"))
  end.

(** ** The broker

    A value stored in Redis is a string.  The gateway does two things with
    a string it has read: it tests it for emptiness ([if result_data:]) and
    it passes it to [json.loads].  A stored string is therefore represented
    by what these two operations observe; two strings that decode to the
    same value are not told apart. *)
Inductive raw :=
| Blank                  (* the empty string *)
| Text (j : json)        (* a non-empty string that json.loads decodes to j *)
| Junk (msg : string).   (* a non-empty string that json.loads rejects with
                            a JSONDecodeError whose text is msg *)

Definition nonempty (r : raw) : bool :=
  match r with Blank => false | _ => true end.

Definition json_loads (r : raw) : exn + json :=
  match r with
  | Text j => inr j
  | Junk msg => inl (JSONDecodeError msg)
  | Blank => inl (JSONDecodeError "Expecting value: line 1 column 1 (char 0)")
  end.

(** A key holds a string or a list of strings. *)
Inductive rvalue :=
| RString (r : raw)
| RList (items : list raw).

Definition wrongtype : exn :=
  ResponseError "WRONGTYPE Operation against a key holding the wrong kind of value".

Definition redis_get (k : string) (b : gmap string rvalue) : exn + option raw :=
  match b !! k with
  | None => inr None
  | Some (RString r) => inr (Some r)
  | Some (RList _) => inl wrongtype
  end.

Definition redis_llen (k : string) (b : gmap string rvalue) : exn + nat :=
  match b !! k with
  | None => inr 0%nat
  | Some (RList items) => inr (length items)
  | Some (RString _) => inl wrongtype
  end.

(** [LRANGE k start stop] with both ends inclusive; the gateway only calls
    it with [0 <= start <= stop]. *)
Definition redis_lrange (k : string) (start stop : nat) (b : gmap string rvalue)
  : exn + list raw :=
  match b !! k with
  | None => inr []
  | Some (RList items) => inr (take (S stop - start) (drop start items))
  | Some (RString _) => inl wrongtype
  end.

Definition redis_set (k : string) (r : raw) (b : gmap string rvalue)
  : gmap string rvalue := <[k := RString r]> b.

(** [RPUSH] appends, [LPUSH] prepends; on a key that holds a string the
    command fails and leaves the key as it is. *)
Definition redis_rpush (k : string) (r : raw) (b : gmap string rvalue)
  : exn + gmap string rvalue :=
  match b !! k with
  | None => inr (<[k := RList [r]]> b)
  | Some (RList items) => inr (<[k := RList (items ++ [r])]> b)
  | Some (RString _) => inl wrongtype
  end.

Definition redis_lpush (k : string) (r : raw) (b : gmap string rvalue)
  : exn + gmap string rvalue :=
  match b !! k with
  | None => inr (<[k := RList [r]]> b)
  | Some (RList items) => inr (<[k := RList (r :: items)]> b)
  | Some (RString _) => inl wrongtype
  end.

Definition result_key (task_id : string) : string := "result:" +:+ task_id.
Definition stream_key (task_id : string) : string := "stream:" +:+ task_id.

(** ** The worker side

    What other clients of the broker do while the gateway polls: a sequence
    of writes, each with the time (in milliseconds) from which the client
    is ready to perform it.  The writes happen in the order of the
    sequence, each as soon as its time has come and the writes before it
    are done. *)
Inductive action :=
| Rpush (k : string) (r : raw)
| SetKey (k : string) (r : raw).

Definition target (a : action) : string :=
  match a with Rpush k _ => k | SetKey k _ => k end.

Definition perform (a : action) (b : gmap string rvalue) : gmap string rvalue :=
  match a with
  | Rpush k r => match redis_rpush k r b with inr b' => b' | inl _ => b end
  | SetKey k r => redis_set k r b
  end.

Fixpoint catch_up (t : Z) (b : gmap string rvalue) (todo : list (Z * action))
  : gmap string rvalue * list (Z * action) :=
  match todo with
  | (due, a) :: rest =>
      if due <=? t then catch_up t (perform a b) rest else (b, todo)
  | [] => (b, [])
  end.

(** ** The world a coroutine of the gateway runs in *)

(** What a [yield] of [stream_completion_response] hands to the HTTP
    response, tagged with the [yield] statement it comes from.  On the wire
    a frame is the text ["data: " + json.dumps(payload) + "\n\n"]; the tag
    and the list index of a chunk are not transmitted. *)
Inductive frame :=
| Chunk (index : nat) (payload : json)   (* line 256 *)
| WorkerError (payload : json)           (* line 277 *)
| FinalStop (payload : json)             (* line 291 *)
| Complete (payload : json)              (* line 296 *)
| StreamingError (payload : json)        (* line 310 *)
| TimedOut (payload : json).             (* line 318 *)

Definition payload_of (f : frame) : json :=
  match f with
  | Chunk _ p | WorkerError p | FinalStop p | Complete p
  | StreamingError p | TimedOut p => p
  end.

Definition is_chunk (f : frame) : bool :=
  match f with Chunk _ _ => true | _ => false end.

Record world := World {
  broker : gmap string rvalue;   (* the Redis keyspace *)
  now : Z;                       (* time.time(), in milliseconds *)
  todo : list (Z * action);      (* writes other clients have yet to make *)
  sent : list frame              (* frames yielded so far, oldest first *)
}.

(** How a coroutine can end: with a value, with an exception, or, for the
    model only, with its loop budget used up before the loop was left. *)
Inductive outcome (A : Type) :=
| Returns (a : A)
| Raises (e : exn)
| Unfinished.
Arguments Returns {A} a.
Arguments Raises {A} e.
Arguments Unfinished {A}.

(** A coroutine changes the world and ends in an outcome; what it did to
    the world before an exception stays done. *)
Definition M (A : Type) : Type := world -> outcome A * world.

Definition ret {A} (a : A) : M A := fun w => (Returns a, w).

Definition bind {A B} (m : M A) (k : A -> M B) : M B :=
  fun w =>
    match m w with
    | (Returns a, w') => k a w'
    | (Raises e, w') => (Raises e, w')
    | (Unfinished, w') => (Unfinished, w')
    end.

Definition raise {A} (e : exn) : M A := fun w => (Raises e, w).

Definition unfinished {A} : M A := fun w => (Unfinished, w).

Definition lift {A} (r : exn + A) : M A :=
  match r with inr a => ret a | inl e => raise e end.

(** [try: m except Exception as e: handler e] *)
Definition try_except {A} (m : M A) (handler : exn -> M A) : M A :=
  fun w =>
    match m w with
    | (Raises e, w') => handler e w'
    | r => r
    end.

#[export] Instance M_ret : MRet M := @ret.
#[export] Instance M_bind : MBind M := fun A B k m => bind m k.

(** The writes of the other clients that are due have been made by the time
    a command of the gateway reaches the broker. *)
Definition settle (w : world) : world :=
  let r := catch_up (now w) (broker w) (todo w) in
  {| broker := r.1; now := now w; todo := r.2; sent := sent w |}.

Definition redis_read {A} (command : gmap string rvalue -> exn + A) : M A :=
  fun w => let w' := settle w in lift (command (broker w')) w'.

Definition redis_write (command : gmap string rvalue -> exn + gmap string rvalue)
  : M unit :=
  fun w =>
    let w' := settle w in
    match command (broker w') with
    | inr b => (Returns tt,
                {| broker := b; now := now w'; todo := todo w'; sent := sent w' |})
    | inl e => (Raises e, w')
    end.

(** [DEL], when it goes through; that it may fail is taken up in the part
    on the relay when a command fails. *)
Definition redis_delete (k : string) : M unit :=
  redis_write (fun b => inr (delete k b)).

(** [time.time()], and [await asyncio.sleep(ms / 1000)]: commands take no
    time, a sleep takes exactly its length. *)
Definition time : M Z := fun w => (Returns (now w), w).

Definition sleep (ms : Z) : M unit :=
  fun w => (Returns tt,
            {| broker := broker w; now := now w + ms; todo := todo w;
               sent := sent w |}).

Definition yield (f : frame) : M unit :=
  fun w => (Returns tt,
            {| broker := broker w; now := now w; todo := todo w;
               sent := sent w ++ [f] |}).

(** ** wait_for_result (lines 211-226) *)

Definition timeout_result : json := JObj [("error", JStr "Request timeout")].

Fixpoint wait_loop (fuel : nat) (task_id : string) (start_time timeout : Z)
  : M json :=
  match fuel with
  | O => unfinished
  | S fuel' =>
      t ← time;
      if t - start_time <? 1000 * timeout then
        let result_key := result_key task_id in
        result_data ← redis_read (redis_get result_key);
        match result_data with
        | Some ((Text _ | Junk _) as result_data) =>
            result ← lift (json_loads result_data);
            redis_delete result_key ;;
            ret result
        | Some Blank | None =>
            sleep 100 ;;
            wait_loop fuel' task_id start_time timeout
        end
      else ret timeout_result
  end.

(** [timeout] is in seconds, as in the source; a pass through the loop that
    does not return sleeps 100 ms, so [10 * timeout] passes exhaust it. *)
Definition wait_for_result (task_id : string) (timeout : Z) : M json :=
  start_time ← time;
  wait_loop (Z.to_nat (10 * timeout) + 1) task_id start_time timeout.

(** ** stream_completion_response (lines 228-318) *)

(** The two local variables that live across passes of the loop. *)
Record locals := Locals {
  chunks_sent : bool;
  last_chunk_count : nat
}.

(** Lines 251-261: the [for] loop over the new chunks.  [index] is the
    position in the stream list of the head of [new_chunks]. *)
Fixpoint for_new_chunks (index : nat) (new_chunks : list raw) (chunks_sent : bool)
  : M bool :=
  match new_chunks with
  | [] => ret chunks_sent
  | chunk_data :: rest =>
      chunks_sent ←
        try_except
          (chunk ← lift (json_loads chunk_data);
           yield (Chunk index chunk) ;;
           sleep 1 ;;
           ret true)
          (fun e =>
             match e with
             | JSONDecodeError _ => ret chunks_sent
             | _ => raise e
             end);
      for_new_chunks (S index) rest chunks_sent
  end.

(** Lines 240-263. *)
Definition drain (task_id : string) (st : locals) : M locals :=
  let stream_key := stream_key task_id in
  current_chunk_count ← redis_read (redis_llen stream_key);
  if (last_chunk_count st <? current_chunk_count)%nat then
    new_chunks ←
      redis_read (redis_lrange stream_key (last_chunk_count st)
                    (current_chunk_count - 1));
    match new_chunks with
    | [] => ret st
    | _ =>
        chunks_sent ←
          for_new_chunks (last_chunk_count st) new_chunks (chunks_sent st);
        ret {| chunks_sent := chunks_sent;
               last_chunk_count := current_chunk_count |}
    end
  else ret st.

(** Lines 270-300: what is done with a result that has been read. *)
Definition finish (task_id : string) (chunks_sent : bool) (result_data : raw)
  : M unit :=
  result ← lift (json_loads result_data);
  error ← lift (dict_get result "error" JNull);
  (if truthy error then
     yield (WorkerError (JObj [("error", error)]))
   else
     response_data ← lift (dict_get result "data" (JObj []));
     if chunks_sent then
       stop ← lift (dict_get response_data "stop" (JBool false));
       if truthy stop then
         multimodal ← lift (dict_get response_data "multimodal" (JBool false));
         slot_id ← lift (dict_get response_data "slot_id" (JNum 0));
         yield (FinalStop (JObj [("content", JStr "");
                                 ("multimodal", multimodal);
                                 ("slot_id", slot_id);
                                 ("stop", JBool true)]))
       else ret tt
     else
       yield (Complete response_data)) ;;
  redis_delete (result_key task_id) ;;
  redis_delete (stream_key task_id).

(** How a pass through the loop body ends. *)
Inductive control :=
| Continue (st : locals)
| Return.

Definition streaming_error (e : exn) : json :=
  JObj [("error", JStr ("Streaming error: " +:+ str e))].

(** Lines 238-311: the body of the [while] loop. *)
Definition poll (task_id : string) (st : locals) : M control :=
  try_except
    (st ← drain task_id st;
     result_data ← redis_read (redis_get (result_key task_id));
     match result_data with
     | Some ((Text _ | Junk _) as result_data) =>
         finish task_id (chunks_sent st) result_data ;;
         ret Return
     | Some Blank | None =>
         sleep 50 ;;
         ret (Continue st)
     end)
    (fun e =>
       yield (StreamingError (streaming_error e)) ;;
       ret Return).

Fixpoint stream_loop (fuel : nat) (task_id : string) (start_time timeout : Z)
    (st : locals) : M unit :=
  match fuel with
  | O => unfinished
  | S fuel' =>
      t ← time;
      if t - start_time <? 1000 * timeout then
        c ← poll task_id st;
        match c with
        | Continue st => stream_loop fuel' task_id start_time timeout st
        | Return => ret tt
        end
      else yield (TimedOut timeout_result)
  end.

(** A pass that does not return sleeps 50 ms, so [20 * timeout] passes
    exhaust a timeout of [timeout] seconds. *)
Definition stream_with_timeout (timeout : Z) (task_id : string) : M unit :=
  start_time ← time;
  stream_loop (Z.to_nat (20 * timeout) + 1) task_id start_time timeout
    {| chunks_sent := false; last_chunk_count := 0 |}.

Definition stream_completion_response (task_id : string) : M unit :=
  stream_with_timeout 300 task_id.


(** ** The non-streaming endpoints (lines 140-209 and 320-397) *)

Inductive response :=
| Body (data : json)
| StreamingResponse (task_id : string).

Section Endpoints.

(** [str(e)] of an [HTTPException] is computed by the web framework, which
    is not part of the repository. *)
Variable http_exception_str : Z -> json -> string.

Definition http_exception (status_code : Z) (detail : json) : exn :=
  HTTPException status_code detail (http_exception_str status_code detail).

(** [task_id] stands for [str(uuid.uuid4())] and [data] for
    [request.dict()]; the time stamp is the clock of the model. *)
Definition enqueue (task_id endpoint : string) (data : json) : M unit :=
  timestamp ← time;
  redis_write
    (redis_lpush "gpu_tasks"
       (Text (JObj [("id", JStr task_id); ("endpoint", JStr endpoint);
                    ("data", data); ("timestamp", JNum timestamp)]))).

(** Lines 164-170, 199-205 and 387-393. *)
Definition await_data (task_id : string) : M json :=
  result ← wait_for_result task_id 30;
  error ← lift (dict_get result "error" JNull);
  if truthy error then raise (http_exception 500 error)
  else lift (dict_get result "data" (JObj [])).

Definition get_template (task_id : string) : M json :=
  try_except
    (enqueue task_id "template" (JObj []) ;;
     await_data task_id)
    (fun e =>
       raise (http_exception 500
                (JStr ("Error processing template request: " +:+ str e)))).

Definition tokenize (task_id : string) (request : json) : M json :=
  try_except
    (enqueue task_id "tokenize" request ;;
     await_data task_id)
    (fun e =>
       raise (http_exception 500
                (JStr ("Error processing tokenize request: " +:+ str e)))).

Definition handle_slots (task_id : string) (request : json) : M json :=
  try_except
    (enqueue task_id "slots" request ;;
     await_data task_id)
    (fun e =>
       raise (http_exception 500 (JStr ("Error in slots: " +:+ str e)))).

(** [stream] is [request.stream]. *)
Definition completion (task_id : string) (request : json) (stream : bool)
  : M response :=
  try_except
    (enqueue task_id "completion" request ;;
     if stream then ret (StreamingResponse task_id)
     else
       result ← wait_for_result task_id 300;
       error ← lift (dict_get result "error" JNull);
       if truthy error then raise (http_exception 500 error)
       else
         data ← lift (dict_item result "data");
         ret (Body data))
    (fun e => raise (http_exception 500 (JStr (str e)))).

End Endpoints.

(** ** Authentication (lines 31-69) *)

(** [s.split(sep)] for a separator of one character: the pieces of [s]
    between the separators, one more piece than there are separators. *)
Fixpoint str_split (sep : Ascii.ascii) (s : string) : list string :=
  match s with
  | EmptyString => [EmptyString]
  | String c rest =>
      if Ascii.eqb c sep then EmptyString :: str_split sep rest
      else
        match str_split sep rest with
        | piece :: pieces => String c piece :: pieces
        | [] => [String c EmptyString]
        end
  end.

(** Lines 36-39: the set of valid tokens, computed once when the module is
    loaded; [api_tokens] is [os.getenv("API_TOKENS")], which is [None] when
    the variable is not set.  The empty string is falsy. *)
Definition VALID_TOKENS (api_tokens : option string) : gset string :=
  match api_tokens with
  | Some (String _ _ as tokens) => list_to_set (str_split ","%char tokens)
  | Some EmptyString | None => ∅
  end.

(** An [HTTPException] as [verify_token] builds it. *)
Record http_error := HttpError {
  status_code : Z;
  detail : string;
  headers : list (string * string)
}.

(** Lines 45-69; [valid_tokens] is the global [VALID_TOKENS] and [token] is
    [credentials.credentials]. *)
Definition verify_token (valid_tokens : gset string) (token : string)
  : http_error + string :=
  if decide (valid_tokens = ∅) then
    inl {| status_code := 500;
           detail := "Authentication not properly configured";
           headers := [("WWW-Authenticate", "Bearer")] |}
  else if decide (token ∈ valid_tokens) then inr token
  else
    inl {| status_code := 401;
           detail := "Invalid authentication token";
           headers := [("WWW-Authenticate", "Bearer")] |}.

(** ** The relay when a command fails (lines 228-318 once more)

    Up to here every command of the gateway reaches the broker and is
    carried out.  The client raises an exception when a command does not
    go through: the connection is lost, or the server refuses the command.
    The definitions of this part are those of the relay again, with that
    possibility: [outage c w] is the exception raised for command [c] sent
    in world [w], if one is raised. *)

Inductive command :=
| LLEN (k : string)
| LRANGE (k : string) (start stop : nat)
| GET (k : string)
| DEL (k : string).

Definition outages : Type := command → world → option exn.

Module Outage.

(** Command [c], which [m] carries out, is sent: the writes of the other
    clients that are due have been made whether it goes through or not. *)
Definition attempt {A} (outage : outages) (c : command) (m : M A) : M A :=
  fun w =>
    match outage c (settle w) with
    | Some e => (Raises e, settle w)
    | None => m w
    end.

Section Relay.

Variable outage : outages.

(** Lines 240-263. *)
Definition drain (task_id : string) (st : locals) : M locals :=
  let stream_key := stream_key task_id in
  current_chunk_count ←
    attempt outage (LLEN stream_key) (redis_read (redis_llen stream_key));
  if (last_chunk_count st <? current_chunk_count)%nat then
    new_chunks ←
      attempt outage
        (LRANGE stream_key (last_chunk_count st) (current_chunk_count - 1))
        (redis_read (redis_lrange stream_key (last_chunk_count st)
                       (current_chunk_count - 1)));
    match new_chunks with
    | [] => ret st
    | _ =>
        chunks_sent ←
          for_new_chunks (last_chunk_count st) new_chunks (chunks_sent st);
        ret {| chunks_sent := chunks_sent;
               last_chunk_count := current_chunk_count |}
    end
  else ret st.

(** Lines 270-300. *)
Definition finish (task_id : string) (chunks_sent : bool) (result_data : raw)
  : M unit :=
  result ← lift (json_loads result_data);
  error ← lift (dict_get result "error" JNull);
  (if truthy error then
     yield (WorkerError (JObj [("error", error)]))
   else
     response_data ← lift (dict_get result "data" (JObj []));
     if chunks_sent then
       stop ← lift (dict_get response_data "stop" (JBool false));
       if truthy stop then
         multimodal ← lift (dict_get response_data "multimodal" (JBool false));
         slot_id ← lift (dict_get response_data "slot_id" (JNum 0));
         yield (FinalStop (JObj [("content", JStr "");
                                 ("multimodal", multimodal);
                                 ("slot_id", slot_id);
                                 ("stop", JBool true)]))
       else ret tt
     else
       yield (Complete response_data)) ;;
  attempt outage (DEL (result_key task_id)) (redis_delete (result_key task_id)) ;;
  attempt outage (DEL (stream_key task_id)) (redis_delete (stream_key task_id)).

(** Lines 238-311: the body of the [while] loop.  The handler of
    line 305 is that of the whole body, the deletes of lines 299-300
    included. *)
Definition poll (task_id : string) (st : locals) : M control :=
  try_except
    (st ← drain task_id st;
     result_data ←
       attempt outage (GET (result_key task_id))
         (redis_read (redis_get (result_key task_id)));
     match result_data with
     | Some ((Text _ | Junk _) as result_data) =>
         finish task_id (chunks_sent st) result_data ;;
         ret Return
     | Some Blank | None =>
         sleep 50 ;;
         ret (Continue st)
     end)
    (fun e =>
       yield (StreamingError (streaming_error e)) ;;
       ret Return).

Fixpoint stream_loop (fuel : nat) (task_id : string) (start_time timeout : Z)
    (st : locals) : M unit :=
  match fuel with
  | O => unfinished
  | S fuel' =>
      t ← time;
      if t - start_time <? 1000 * timeout then
        c ← poll task_id st;
        match c with
        | Continue st => stream_loop fuel' task_id start_time timeout st
        | Return => ret tt
        end
      else yield (TimedOut timeout_result)
  end.

Definition stream_with_timeout (timeout : Z) (task_id : string) : M unit :=
  start_time ← time;
  stream_loop (Z.to_nat (20 * timeout) + 1) task_id start_time timeout
    {| chunks_sent := false; last_chunk_count := 0 |}.

Definition stream_completion_response (task_id : string) : M unit :=
  stream_with_timeout 300 task_id.

End Relay.

End Outage.

(** ** Scenarios *)

(** The frames a coroutine yields when started in [w]. *)
Definition frames {A} (m : M A) (w : world) : list frame := sent (snd (m w)).

(** A world in which nothing has been yielded yet. *)
Definition fresh (b : gmap string rvalue) (t : Z) (todo : list (Z * action))
  : world := {| broker := b; now := t; todo := todo; sent := [] |}.

Definition chunk (content : string) : json :=
  JObj [("content", JStr content); ("stop", JBool false)].

Definition with_data (data : json) : raw := Text (JObj [("data", data)]).

(** Job [abc123] of the specification: two chunks, then the result. *)
Definition abc123_result : raw :=
  with_data (JObj [("stop", JBool true); ("slot_id", JNum 2)]).

Definition abc123_done : gmap string rvalue :=
  {[ stream_key "abc123" := RList [Text (chunk "Hel"); Text (chunk "lo")];
     result_key "abc123" := RString abc123_result ]}.


(** * The vocabulary of the statements *)

(** All the writes [acts], made in order. *)
Definition perform_all (acts : list (Z * action)) (b : gmap string rvalue)
  : gmap string rvalue := foldl (fun b p => perform p.2 b) b acts.

(** No pending write is addressed to key [k]. *)
Definition spares (k : string) (todo : list (Z * action)) : Prop :=
  Forall (fun p => target p.2 ≠ k) todo.

(** A world whose due writes have all been made. *)
Definition settled (w : world) : Prop :=
  ∀ b, catch_up (now w) b (todo w) = (b, todo w).

(** [w'] differs from [w] in its broker only by writes of the other
    clients: nothing has been deleted, nothing else has been written. *)
Definition only_their_writes (w w' : world) : Prop :=
  ∃ done, todo w = done ++ todo w' ∧ broker w' = perform_all done (broker w).

(** What key [k] holds at time [t] as far as the other clients are
    concerned, that is, unless the gateway has deleted it. *)
Definition seen_at (w : world) (t : Z) (k : string) : option rvalue :=
  (catch_up t (broker w) (todo w)).1 !! k.

(** The world after a pass that found nothing and slept [d] ms. *)
Definition slept (d : Z) (w : world) : world :=
  {| broker := broker (settle w); now := now w + d; todo := todo (settle w);
     sent := sent w |}.

(** A world that starts at time 0 with an empty broker and in which
    [result] is written to the result key of [task_id] at time [t]. *)
Definition written_at (t : Z) (task_id : string) (result : json) : world :=
  fresh ∅ 0 [(t, SetKey (result_key task_id) (Text result))].

(** The frames the [for] loop yields for the list elements from position
    [index] on: one for each element that decodes. *)
Fixpoint chunk_frames (index : nat) (new_chunks : list raw) : list frame :=
  match new_chunks with
  | [] => []
  | chunk_data :: rest =>
      match json_loads chunk_data with
      | inr chunk => Chunk index chunk :: chunk_frames (S index) rest
      | inl _ => chunk_frames (S index) rest
      end
  end.

(** [chunks_sent = True] has been executed for one of the frames [fs]. *)
Definition any_sent (fs : list frame) : bool :=
  match fs with [] => false | _ => true end.

(** The world after frames [fs] have been yielded, 1 ms apart. *)
Definition streamed (fs : list frame) (w : world) : world :=
  {| broker := broker w; now := now w + Z.of_nat (length fs); todo := todo w;
     sent := sent w ++ fs |}.

(** What reading the stream list [items] does to the local variables, and
    the frames it yields. *)
Definition drained (st : locals) (items : list raw) : locals * list frame :=
  if (last_chunk_count st <? length items)%nat then
    let fs := chunk_frames (last_chunk_count st)
                (drop (last_chunk_count st) items) in
    ({| chunks_sent := chunks_sent st || any_sent fs;
        last_chunk_count := length items |}, fs)
  else (st, []).

(** What [finish] decides: the frames to yield, or the exception met. *)
Definition verdict (chunks_sent : bool) (result_data : raw) : exn + list frame :=
  match json_loads result_data with
  | inl e => inl e
  | inr result =>
  match dict_get result "error" JNull with
  | inl e => inl e
  | inr error =>
  if truthy error then inr [WorkerError (JObj [("error", error)])]
  else
  match dict_get result "data" (JObj []) with
  | inl e => inl e
  | inr response_data =>
  if chunks_sent then
    match dict_get response_data "stop" (JBool false) with
    | inl e => inl e
    | inr stop =>
    if truthy stop then
      match dict_get response_data "multimodal" (JBool false),
            dict_get response_data "slot_id" (JNum 0) with
      | inr multimodal, inr slot_id =>
          inr [FinalStop (JObj [("content", JStr "");
                                ("multimodal", multimodal);
                                ("slot_id", slot_id);
                                ("stop", JBool true)])]
      | inl e, _ | _, inl e => inl e
      end
    else inr []
    end
  else inr [Complete response_data]
  end end end.

(** The world after the stream has been closed with frames [fs] and the
    keys of the job have been deleted. *)
Definition closed (task_id : string) (fs : list frame) (w : world) : world :=
  {| broker := delete (stream_key task_id)
                 (delete (result_key task_id) (broker w));
     now := now w; todo := todo w; sent := sent w ++ fs |}.

(** The world after the stream has been closed with a frame for
    exception [e], the keys being left alone. *)
Definition failed (e : exn) (w : world) : world :=
  {| broker := broker w; now := now w; todo := todo w;
     sent := sent w ++ [StreamingError (streaming_error e)] |}.

(** The world after the timeout error has been yielded. *)
Definition timed_out (w : world) : world :=
  {| broker := broker w; now := now w; todo := todo w;
     sent := sent w ++ [TimedOut timeout_result] |}.

(** The final frame for a result whose data has the fields [data]
    (lines 283-288). *)
Definition final_chunk (data : list (string * json)) : json :=
  JObj [("content", JStr "");
        ("multimodal", default (JBool false) (assoc "multimodal" data));
        ("slot_id", default (JNum 0) (assoc "slot_id" data));
        ("stop", JBool true)].

(** Job [abc123] of the specification as the worker runs it: the two
    chunks and the result, written at times [t0], [t1] and [t2]. *)
Definition abc123_script (t0 t1 t2 : Z) : list (Z * action) :=
  [(t0, Rpush (stream_key "abc123") (Text (chunk "Hel")));
   (t1, Rpush (stream_key "abc123") (Text (chunk "lo")));
   (t2, SetKey (result_key "abc123") abc123_result)].

(** Two chunks and a result whose data says [stop] false. *)
Definition stalled : gmap string rvalue :=
  {[ stream_key "abc123" := RList [Text (chunk "Hel"); Text (chunk "lo")];
     result_key "abc123" :=
       RString (with_data (JObj [("stop", JBool false); ("slot_id", JNum 2)])) ]}.

(** The local variables when the loop is entered. *)
Definition start_locals : locals :=
  {| chunks_sent := false; last_chunk_count := 0 |}.

(** A chunk and a result that do not decode. *)
Definition garbled : gmap string rvalue :=
  {[ stream_key "bad" := RList [Junk "Expecting value: line 1 column 1 (char 0)"];
     result_key "bad" := RString (Junk "Extra data: line 1 column 3 (char 2)") ]}.

(** The stream list of a job as the other clients leave it when all their
    writes are done. *)
Definition worker_stream (task_id : string) (w : world) : list raw :=
  match perform_all (todo w) (broker w) !! stream_key task_id with
  | Some (RList items) => items
  | _ => []
  end.

(** No pending write replaces the list at key [k] by a string. *)
Definition keeps_list (k : string) (todo : list (Z * action)) : Prop :=
  Forall (fun p => ∀ r, p.2 ≠ SetKey k r) todo.

(** [fs] are chunks of the list [L], each the decoded element at the
    position it is tagged with, the positions strictly increasing from
    [lo] or more to less than [hi]. *)
Inductive in_list_order (L : list raw) : nat → nat → list frame → Prop :=
| no_chunk lo hi :
    (lo ≤ hi)%nat → in_list_order L lo hi []
| next_chunk lo hi i c j fs :
    (lo ≤ i)%nat → L !! i = Some c → json_loads c = inr j →
    in_list_order L (S i) hi fs →
    in_list_order L lo hi (Chunk i j :: fs).

(** A stream: chunks in list order, then at most one frame that is not a
    chunk. *)
Definition well_ordered (L : list raw) (fs : list frame) : Prop :=
  ∃ chunks tail hi,
    fs = chunks ++ tail
    ∧ in_list_order L 0 hi chunks
    ∧ (tail = [] ∨ ∃ f, tail = [f] ∧ is_chunk f = false).

(** What holds of the local variables and the world between two passes
    of the loop of the relay for job [task_id], [L] being the stream list as
    the worker leaves it. *)
Definition between_passes (task_id : string) (L : list raw)
    (st : locals) (w : world) : Prop :=
  in_list_order L 0 (last_chunk_count st) (sent w)
  ∧ worker_stream task_id w = L
  ∧ keeps_list (stream_key task_id) (todo w).

(** The number of chunks in the stream list of a job at time [t]. *)
Definition stream_length (task_id : string) (w : world) (t : Z) : nat :=
  match seen_at w t (stream_key task_id) with
  | Some (RList items) => length items
  | _ => 0%nat
  end.

(** What holds between two passes of the relay for job [task_id], started
    in world [w0], while the worker streams the chunks [js]: the chunks
    that were in the list when it was last read have been passed on, in
    order, and the result had not been seen at the last read. *)
Definition streaming (task_id : string) (w0 : world) (js : list json)
    (st : locals) (w : world) : Prop :=
  now w0 ≤ now w
  ∧ (∀ t key, now w ≤ t → seen_at w t key = seen_at w0 t key)
  ∧ sent w = imap Chunk (take (last_chunk_count st) js)
  ∧ (last_chunk_count st ≤ stream_length task_id w0 (now w))%nat
  ∧ ((0 < last_chunk_count st)%nat → chunks_sent st = true)
  ∧ (now w = now w0
     ∨ seen_at w0 (now w - 50) (result_key task_id) = None).

(** [sep.join(pieces)], the way a list of tokens is written into
    [API_TOKENS]. *)
Fixpoint str_join (sep : Ascii.ascii) (pieces : list string) : string :=
  match pieces with
  | [] => ""
  | [piece] => piece
  | piece :: rest => piece +:+ String sep (str_join sep rest)
  end.

(** Character [c] occurs in [s]. *)
Fixpoint occurs (c : Ascii.ascii) (s : string) : bool :=
  match s with
  | EmptyString => false
  | String c' rest => Ascii.eqb c' c || occurs c rest
  end.

(** The two errors of [verify_token]. *)
Definition not_configured : http_error :=
  {| status_code := 500;
     detail := "Authentication not properly configured";
     headers := [("WWW-Authenticate", "Bearer")] |}.

Definition invalid_token : http_error :=
  {| status_code := 401;
     detail := "Invalid authentication token";
     headers := [("WWW-Authenticate", "Bearer")] |}.

(** [w'] differs from [w] in its broker only by writes of the other
    clients, except perhaps at the keys [keys]. *)
Definition only_their_writes_but (keys : list string) (w w' : world) : Prop :=
  ∃ done, todo w = done ++ todo w'
          ∧ ∀ k, k ∉ keys → broker w' !! k = perform_all done (broker w) !! k.

(** Key [k] holds no result as far as the waiter and the relay can tell:
    nothing, or the empty string. *)
Definition no_result (v : option rvalue) : Prop :=
  v = None ∨ v = Some (RString Blank).

(** The number of frames yielded so far. *)
Definition frame_count (w : world) : Z := Z.of_nat (length (sent w)).

(** What holds between two passes of the relay for job [task_id], [L]
    being the stream list as the worker leaves it: the frames yielded so
    far are the elements of [L] before position [last_chunk_count] that
    decode, none left out. *)
Definition relayed_prefix (task_id : string) (L : list raw)
    (st : locals) (w : world) : Prop :=
  sent w = chunk_frames 0 (take (last_chunk_count st) L)
  ∧ worker_stream task_id w = L
  ∧ keeps_list (stream_key task_id) (todo w).

(** A job that failed after its first chunk: the worker has written an
    error beside the data. *)
Definition failed_job : gmap string rvalue :=
  {[ stream_key "abc123" := RList [Text (chunk "Hel")];
     result_key "abc123" :=
       RString (Text (JObj [("error", JStr "boom");
                            ("data", JObj [("stop", JBool true)])])) ]}.

(** A chunk, and a result whose data is a string. *)
Definition text_job : gmap string rvalue :=
  {[ stream_key "abc123" := RList [Text (chunk "Hel")];
     result_key "abc123" := RString (with_data (JStr "Hello")) ]}.

(** A result that is a list, not an object. *)
Definition list_result : gmap string rvalue :=
  {[ result_key "xyz" := RString (Text (JArr [])) ]}.

(** The record an endpoint pushes on the task queue (lines 148-159). *)
Definition job_record (task_id endpoint : string) (data : json) (timestamp : Z)
  : raw :=
  Text (JObj [("id", JStr task_id); ("endpoint", JStr endpoint);
              ("data", data); ("timestamp", JNum timestamp)]).

(** The task queue holds the list [items]; a missing key is an empty
    list. *)
Definition queue_is (items : list raw) (v : option rvalue) : Prop :=
  v = Some (RList items) ∨ (v = None ∧ items = []).

(** The world after [r] has been pushed on the task queue, which held
    [items]. *)
Definition queued (r : raw) (items : list raw) (w : world) : world :=
  {| broker := <["gpu_tasks" := RList (r :: items)]> (broker (settle w));
     now := now w; todo := todo (settle w); sent := sent w |}.

(** An endpoint answers, or fails with status 500. *)
Definition answers_or_500 {A} (o : outcome A) : Prop :=
  match o with
  | Returns _ => True
  | Raises (HTTPException status _ _) => status = 500
  | Raises _ | Unfinished => False
  end.

(** A stand-in, for the scenarios, for the text the web framework gives
    an [HTTPException]: its detail, when that is a string. *)
Definition detail_text (status : Z) (detail : json) : string :=
  match detail with JStr s => s | _ => "" end.

(** A world that starts at time 0 with an empty broker and in which a
    record that does not decode is written to the result key of [task_id]
    at time [t]. *)
Definition garbled_at (t : Z) (task_id msg : string) : world :=
  fresh ∅ 0 [(t, SetKey (result_key task_id) (Junk msg))].

(** The relay for job [task_id], started in world [w], comes to begin a
    pass of its loop with the local variables [st] in world [w1]: the
    first pass, or the pass after one that found no result. *)
Inductive relay_reaches (task_id : string) (w : world)
  : locals → world → Prop :=
| reaches_first :
    relay_reaches task_id w start_locals w
| reaches_next st w1 st' w1' :
    relay_reaches task_id w st w1 →
    now w1 - now w < 1000 * 300 →
    poll task_id st w1 = (Returns (Continue st'), w1') →
    relay_reaches task_id w st' w1'.

(** A job whose first chunk is there when the relay starts and whose
    result, with a false [stop] flag, is written 60 ms later. *)
Definition unstopped : world :=
  fresh ∅ 0
    [(0, Rpush (stream_key "abc123") (Text (chunk "Hel")));
     (60, SetKey (result_key "abc123")
            (with_data (JObj [("stop", JBool false); ("slot_id", JNum 2)])))].

(** No command fails. *)
Definition no_outage : outages := fun _ _ => None.

(** The server carries out what reads and refuses, with exception [e],
    what deletes: a replica that has become read-only, say. *)
Definition refuses_deletes (e : exn) : outages :=
  fun c _ => match c with DEL _ => Some e | _ => None end.

(** Chunk frames whose positions increase strictly, from [lo] or more to
    less than [hi]: no position comes twice or out of order. *)
Inductive ascending : nat → nat → list frame → Prop :=
| ascending_nil lo hi :
    (lo ≤ hi)%nat → ascending lo hi []
| ascending_cons lo hi i j fs :
    (lo ≤ i)%nat → ascending (S i) hi fs →
    ascending lo hi (Chunk i j :: fs).







(** * Properties *)

Arguments result_key : simpl never.
Arguments stream_key : simpl never.
Arguments settle : simpl never.
Arguments redis_read : simpl never.
Arguments redis_write : simpl never.
Arguments redis_delete : simpl never.
Arguments drain : simpl never.
Arguments finish : simpl never.
Arguments poll : simpl never.
#[local] Arguments Nat.ltb : simpl never.

(** ** The keys of a job *)

Lemma result_key_not_stream_key a b : result_key a ≠ stream_key b.
Proof. unfold result_key, stream_key. simpl. discriminate. Qed.

Lemma stream_key_not_result_key a b : stream_key a ≠ result_key b.
Proof. intros H. symmetry in H. revert H. apply result_key_not_stream_key. Qed.

(** ** The writes of the other clients *)

Lemma perform_other a k b : target a ≠ k → perform a b !! k = b !! k.
Proof.
  destruct a as [k' r|k' r]; simpl; intros Hk.
  - unfold redis_rpush. destruct (b !! k') as [[?|?]|]; trivial;
      now rewrite lookup_insert_ne.
  - unfold redis_set. now rewrite lookup_insert_ne.
Qed.

Lemma perform_keeps a b k : is_Some (b !! k) → is_Some (perform a b !! k).
Proof.
  intros Hk. destruct (decide (target a = k)) as [E|E].
  - destruct a as [k' r|k' r]; cbn in *; subst k'.
    + unfold redis_rpush. destruct (b !! k) as [[?|?]|] eqn:Hb; trivial;
        rewrite ?Hb, ?lookup_insert_eq; eauto.
    + unfold redis_set. rewrite lookup_insert_eq. eauto.
  - now rewrite perform_other.
Qed.

Lemma perform_all_keeps acts : ∀ b k,
  is_Some (b !! k) → is_Some (perform_all acts b !! k).
Proof.
  induction acts as [|p rest IH]; intros b k Hk; cbn; trivial.
  now apply IH, perform_keeps.
Qed.

Lemma catch_up_done t todo : ∀ b,
  ∃ done, todo = done ++ (catch_up t b todo).2
          ∧ (catch_up t b todo).1 = perform_all done b.
Proof.
  induction todo as [|[due a] rest IH]; intros b; simpl.
  - now exists [].
  - destruct (due <=? t).
    + destruct (IH (perform a b)) as (done & E1 & E2).
      exists ((due, a) :: done). simpl. split; [now f_equal | exact E2].
    + now exists [].
Qed.

Lemma catch_up_spares k t todo : ∀ b,
  spares k todo →
  (catch_up t b todo).1 !! k = b !! k ∧ spares k (catch_up t b todo).2.
Proof.
  unfold spares.
  induction todo as [|[due a] rest IH]; intros b H; simpl.
  - now split.
  - inversion H as [|? ? Ha Hrest]; subst. simpl in Ha.
    destruct (due <=? t).
    + destruct (IH (perform a b) Hrest) as [E S]. split; [|exact S].
      rewrite E. now apply perform_other.
    + now split.
Qed.

(** After the broker has caught up with time [t], catching up with [t]
    again changes nothing, whatever has been done to the keys meanwhile. *)
Lemma catch_up_again t todo : ∀ b b',
  catch_up t b' (catch_up t b todo).2 = (b', (catch_up t b todo).2).
Proof.
  induction todo as [|[due a] rest IH]; intros b b'; simpl; trivial.
  destruct (due <=? t) eqn:E.
  - apply IH.
  - simpl. now rewrite E.
Qed.

Lemma settle_settled w : settled (settle w).
Proof. intros b. unfold settle; simpl. apply catch_up_again. Qed.

Lemma settled_settle w : settled w → settle w = w.
Proof.
  intros H. unfold settle. rewrite (H (broker w)). now destruct w.
Qed.

Lemma settle_again w : settle (settle w) = settle w.
Proof. apply settled_settle, settle_settled. Qed.

Lemma sent_settle w : sent (settle w) = sent w.
Proof. reflexivity. Qed.

Lemma now_settle w : now (settle w) = now w.
Proof. reflexivity. Qed.

Lemma settle_spares k w :
  spares k (todo w) →
  broker (settle w) !! k = broker w !! k ∧ spares k (todo (settle w)).
Proof. intros H. unfold settle; simpl. now apply catch_up_spares. Qed.

Lemma only_their_writes_refl w : only_their_writes w w.
Proof. now exists []. Qed.

Lemma only_their_writes_trans w1 w2 w3 :
  only_their_writes w1 w2 → only_their_writes w2 w3 → only_their_writes w1 w3.
Proof.
  intros (d1 & T1 & B1) (d2 & T2 & B2). exists (d1 ++ d2). split.
  - now rewrite T1, T2, app_assoc.
  - unfold perform_all in *. now rewrite foldl_app, <- B1, <- B2.
Qed.

Lemma only_their_writes_settle w : only_their_writes w (settle w).
Proof. unfold only_their_writes, settle; simpl. apply catch_up_done. Qed.

(** ** Running the monad *)

Lemma bind_run {A B} (m : M A) (k : A → M B) w :
  (m ≫= k) w =
  match m w with
  | (Returns a, w') => k a w'
  | (Raises e, w') => (Raises e, w')
  | (Unfinished, w') => (Unfinished, w')
  end.
Proof. reflexivity. Qed.

Lemma redis_get_run k w :
  redis_read (redis_get k) w =
  (match broker (settle w) !! k with
   | None => Returns None
   | Some (RString r) => Returns (Some r)
   | Some (RList _) => Raises wrongtype
   end, settle w).
Proof.
  unfold redis_read, redis_get.
  now destruct (broker (settle w) !! k) as [[?|?]|].
Qed.

Lemma redis_delete_run k w :
  settled w →
  redis_delete k w =
  (Returns tt, {| broker := delete k (broker w); now := now w;
                  todo := todo w; sent := sent w |}).
Proof.
  intros H. unfold redis_delete, redis_write. now rewrite (settled_settle _ H).
Qed.

Ltac run :=
  cbv beta iota zeta
    delta [mbind M_bind bind mret M_ret ret raise unfinished lift try_except
           time sleep yield];
  cbn.

(** ** The waiter when no result is ever written *)

Lemma wait_loop_quiet task_id start timeout : ∀ fuel w,
  broker w !! result_key task_id = None →
  spares (result_key task_id) (todo w) →
  now w - start < 1000 * timeout + 100 →
  1000 * timeout - (now w - start) + 100 ≤ 100 * Z.of_nat fuel →
  ∃ w', wait_loop fuel task_id start timeout w = (Returns timeout_result, w')
        ∧ 1000 * timeout ≤ now w' - start < 1000 * timeout + 100
        ∧ sent w' = sent w
        ∧ only_their_writes w w'.
Proof.
  induction fuel as [|fuel IH]; intros w Hb Hs Hlt Hfuel; [lia|].
  cbn [wait_loop]. run.
  destruct (Z.ltb_spec (now w - start) (1000 * timeout)) as [Hin|Hout].
  - rewrite redis_get_run.
    destruct (settle_spares _ _ Hs) as [E S]. rewrite E, Hb.
    set (w1 := {| broker := broker (settle w); now := now w + 100;
                  todo := todo (settle w); sent := sent w |}).
    destruct (IH w1) as (w' & R & T & O & W); subst w1; cbn; try lia.
    + now rewrite E.
    + exact S.
    + exists w'. repeat split; try lia; trivial.
      eapply only_their_writes_trans; [apply only_their_writes_settle|exact W].
  - exists w. repeat split; try lia. apply only_their_writes_refl.
Qed.

(** C4.  When the result key of a job is never written, [wait_for_result]
    hands back the request-timeout result, no earlier than [timeout]
    seconds after it was called and less than one poll interval (100 ms)
    after that. *)
Theorem wait_for_result_times_out task_id timeout w :
  0 ≤ timeout →
  broker w !! result_key task_id = None →
  spares (result_key task_id) (todo w) →
  ∃ w', wait_for_result task_id timeout w = (Returns timeout_result, w')
        ∧ 1000 * timeout ≤ now w' - now w < 1000 * timeout + 100.
Proof.
  intros Ht Hb Hs. unfold wait_for_result. run.
  destruct (wait_loop_quiet task_id (now w) timeout
              (Z.to_nat (10 * timeout) + 1) w Hb Hs) as (w' & R & T & _);
    try lia.
  exists w'. now split.
Qed.

Lemma wait_for_result_times_out_witness :
  ∃ w', wait_for_result "timeoutjob" 1 (fresh ∅ 0 []) = (Returns timeout_result, w')
        ∧ 1000 * 1 ≤ now w' - now (fresh ∅ 0 []) < 1000 * 1 + 100.
Proof.
  apply wait_for_result_times_out.
  - lia.
  - reflexivity.
  - constructor.
Defined.

(** ** The waiter when a result appears *)

Lemma catch_up_later t t' todo : ∀ b,
  t ≤ t' →
  catch_up t' (catch_up t b todo).1 (catch_up t b todo).2 = catch_up t' b todo.
Proof.
  induction todo as [|[due a] rest IH]; intros b Ht; simpl; trivial.
  destruct (Z.leb_spec due t) as [H|H].
  - destruct (Z.leb_spec due t'); [|lia]. now apply IH.
  - reflexivity.
Qed.

Lemma seen_at_slept d w t k :
  now w ≤ t → seen_at (slept d w) t k = seen_at w t k.
Proof.
  intros H. unfold seen_at, slept, settle; cbn. now rewrite catch_up_later.
Qed.

Lemma seen_at_now w k : seen_at w (now w) k = broker (settle w) !! k.
Proof. reflexivity. Qed.

Lemma wait_loop_hit task_id start timeout fuel w j :
  now w - start < 1000 * timeout →
  broker (settle w) !! result_key task_id = Some (RString (Text j)) →
  wait_loop (S fuel) task_id start timeout w =
  (Returns j,
   {| broker := delete (result_key task_id) (broker (settle w)); now := now w;
      todo := todo (settle w); sent := sent w |}).
Proof.
  intros Hin Hb. cbn [wait_loop]. run.
  destruct (Z.ltb_spec (now w - start) (1000 * timeout)); [|lia].
  rewrite redis_get_run, Hb. run.
  rewrite redis_delete_run by apply settle_settled. reflexivity.
Qed.

Lemma wait_loop_miss task_id start timeout fuel w :
  now w - start < 1000 * timeout →
  broker (settle w) !! result_key task_id = None →
  wait_loop (S fuel) task_id start timeout w =
  wait_loop fuel task_id start timeout (slept 100 w).
Proof.
  intros Hin Hb. cbn [wait_loop]. run.
  destruct (Z.ltb_spec (now w - start) (1000 * timeout)); [|lia].
  rewrite redis_get_run, Hb. reflexivity.
Qed.

(** The loop budget of the model is enough: whatever the broker holds and
    whatever is written to it, [wait_for_result] ends, with a value or an
    exception. *)
Lemma wait_loop_unfold task_id start timeout fuel w :
  wait_loop (S fuel) task_id start timeout w =
  if now w - start <? 1000 * timeout then
    match broker (settle w) !! result_key task_id with
    | Some (RString Blank) | None =>
        wait_loop fuel task_id start timeout (slept 100 w)
    | Some (RString (Text j)) =>
        (Returns j,
         {| broker := delete (result_key task_id) (broker (settle w));
            now := now w; todo := todo (settle w); sent := sent w |})
    | Some (RString (Junk msg)) => (Raises (JSONDecodeError msg), settle w)
    | Some (RList _) => (Raises wrongtype, settle w)
    end
  else (Returns timeout_result, w).
Proof.
  cbn [wait_loop]. run.
  destruct (now w - start <? 1000 * timeout); trivial.
  rewrite redis_get_run.
  destruct (broker (settle w) !! result_key task_id) as [[[|j|msg]|items]|];
    run; trivial.
  rewrite redis_delete_run by apply settle_settled. reflexivity.
Qed.

Arguments wait_loop : simpl never.

Lemma wait_loop_finishes task_id start timeout : ∀ fuel w,
  1000 * timeout - (now w - start) ≤ 100 * Z.of_nat fuel →
  (wait_loop (S fuel) task_id start timeout w).1 ≠ Unfinished.
Proof.
  induction fuel as [|fuel IH]; intros w Hfuel; rewrite wait_loop_unfold;
    (destruct (Z.ltb_spec (now w - start) (1000 * timeout)) as [Hin|Hout];
     [|discriminate]); [lia|].
  destruct (broker (settle w) !! result_key task_id) as [[[|j|msg]|items]|];
    try discriminate; apply IH; cbn; lia.
Qed.

Lemma wait_for_result_finishes task_id timeout w :
  (wait_for_result task_id timeout w).1 ≠ Unfinished.
Proof.
  unfold wait_for_result. run.
  replace (Z.to_nat (10 * timeout) + 1)%nat with (S (Z.to_nat (10 * timeout)))
    by lia.
  apply wait_loop_finishes. lia.
Qed.

Lemma wait_loop_finds task_id start timeout j : ∀ (k fuel : nat) w,
  (k < fuel)%nat →
  now w - start + 100 * Z.of_nat k < 1000 * timeout →
  (∀ i : nat, (i < k)%nat →
     seen_at w (now w + 100 * Z.of_nat i) (result_key task_id) = None) →
  seen_at w (now w + 100 * Z.of_nat k) (result_key task_id)
  = Some (RString (Text j)) →
  ∃ w', wait_loop fuel task_id start timeout w = (Returns j, w')
        ∧ broker w' !! result_key task_id = None
        ∧ now w' = now w + 100 * Z.of_nat k.
Proof.
  induction k as [|k IH]; intros fuel w Hfuel Hin Hnone Hsome;
    (destruct fuel as [|fuel]; [lia|]).
  - rewrite Z.mul_0_r, Z.add_0_r, seen_at_now in Hsome.
    rewrite (wait_loop_hit _ _ _ _ _ j) by (trivial; lia).
    eexists. split; [reflexivity|]. cbn. split; [apply lookup_delete_eq|lia].
  - rewrite wait_loop_miss; try lia.
    + destruct (IH fuel (slept 100 w)) as (w' & R & B & T); cbn; try lia.
      * intros i Hi. rewrite seen_at_slept by lia.
        replace (now w + 100 + 100 * Z.of_nat i)
          with (now w + 100 * Z.of_nat (S i)) by lia.
        apply Hnone. lia.
      * rewrite seen_at_slept by lia. rewrite <- Hsome. f_equal. lia.
      * exists w'. repeat split; trivial. cbn in T. lia.
    + rewrite <- seen_at_now.
      specialize (Hnone 0%nat ltac:(lia)).
      now rewrite Z.mul_0_r, Z.add_0_r in Hnone.
Qed.

(** C3, as amended.  When the result key holds well-formed JSON at one of
    the polls of [wait_for_result] (the polls are 100 ms apart, the first
    one when the call begins, and a poll is made only while less than
    [timeout] seconds have gone by) and held nothing at the polls before,
    the call returns the decoded result at that poll and the key is gone
    from the broker afterwards. *)
Theorem wait_for_result_returns task_id timeout j (k : nat) w :
  100 * Z.of_nat k < 1000 * timeout →
  (∀ i : nat, (i < k)%nat →
     seen_at w (now w + 100 * Z.of_nat i) (result_key task_id) = None) →
  seen_at w (now w + 100 * Z.of_nat k) (result_key task_id)
  = Some (RString (Text j)) →
  ∃ w', wait_for_result task_id timeout w = (Returns j, w')
        ∧ broker w' !! result_key task_id = None
        ∧ now w' = now w + 100 * Z.of_nat k.
Proof.
  intros Hk Hnone Hsome. unfold wait_for_result. run.
  apply wait_loop_finds; trivial; lia.
Qed.

Lemma wait_for_result_returns_witness :
  ∃ w', wait_for_result "xyz" 30 (written_at 250 "xyz" (JObj [("data", JStr "42")]))
        = (Returns (JObj [("data", JStr "42")]), w')
        ∧ broker w' !! result_key "xyz" = None
        ∧ now w' = 0 + 100 * Z.of_nat 3.
Proof.
  apply (wait_for_result_returns "xyz" 30 _ 3).
  - lia.
  - intros [|[|[|i]]] Hi; try reflexivity. lia.
  - reflexivity.
Defined.

(** A result written 950 ms after the call began, with a timeout of one
    second: the last poll was at 900 ms, so the caller is told that the
    request timed out, and the result stays in the broker. *)
Lemma wait_for_result_misses_late_result :
  let w := written_at 950 "late" (JObj [("data", JStr "42")]) in
  seen_at w 950 (result_key "late")
  = Some (RString (Text (JObj [("data", JStr "42")])))
  ∧ (wait_for_result "late" 1 w).1 = Returns timeout_result
  ∧ now (wait_for_result "late" 1 w).2 = 1000
  ∧ seen_at (wait_for_result "late" 1 w).2 1000 (result_key "late")
    = Some (RString (Text (JObj [("data", JStr "42")]))).
Proof. repeat split; vm_compute; reflexivity. Qed.

(** ** One pass of the relay *)

Lemma redis_llen_run k w :
  redis_read (redis_llen k) w =
  (match broker (settle w) !! k with
   | None => Returns 0%nat
   | Some (RList items) => Returns (length items)
   | Some (RString _) => Raises wrongtype
   end, settle w).
Proof.
  unfold redis_read, redis_llen.
  now destruct (broker (settle w) !! k) as [[?|?]|].
Qed.

Lemma redis_lrange_run k start stop w :
  redis_read (redis_lrange k start stop) w =
  (match broker (settle w) !! k with
   | None => Returns []
   | Some (RList items) => Returns (take (S stop - start) (drop start items))
   | Some (RString _) => Raises wrongtype
   end, settle w).
Proof.
  unfold redis_read, redis_lrange.
  now destruct (broker (settle w) !! k) as [[?|?]|].
Qed.

Arguments for_new_chunks : simpl never.

Lemma for_new_chunks_run new_chunks : ∀ index flag w,
  for_new_chunks index new_chunks flag w =
  (Returns (flag || any_sent (chunk_frames index new_chunks)),
   streamed (chunk_frames index new_chunks) w).
Proof.
  induction new_chunks as [|c rest IH]; intros index flag w.
  - cbn. unfold ret, streamed. cbn.
    rewrite orb_false_r, Z.add_0_r, app_nil_r. now destruct w.
  - unfold for_new_chunks; fold for_new_chunks. cbn [chunk_frames].
    destruct c as [|j|msg]; run.
    + rewrite IH. reflexivity.
    + run. rewrite IH. unfold streamed. cbn.
      rewrite orb_true_r. f_equal. f_equal; [lia|].
      now rewrite <- app_assoc.
    + rewrite IH. reflexivity.
Qed.

Lemma streamed_nil w : streamed [] w = w.
Proof.
  unfold streamed. cbn. rewrite Z.add_0_r, app_nil_r. now destruct w.
Qed.

Lemma drain_run task_id st w :
  drain task_id st w =
  match broker (settle w) !! stream_key task_id with
  | Some (RString _) => (Raises wrongtype, settle w)
  | Some (RList items) =>
      (Returns (drained st items).1, streamed (drained st items).2 (settle w))
  | None => (Returns st, settle w)
  end.
Proof.
  unfold drain. run. rewrite redis_llen_run.
  destruct (broker (settle w) !! stream_key task_id) as [[r|items]|] eqn:E;
    run; trivial.
  unfold drained.
  destruct (Nat.ltb_spec (last_chunk_count st) (length items)) as [Hlt|Hge];
    cbn [fst snd]; [|now rewrite streamed_nil].
  rewrite redis_lrange_run, settle_again, E. run.
  replace (S (length items - 1) - last_chunk_count st)%nat
    with (length (drop (last_chunk_count st) items))
    by (rewrite length_drop; lia).
  rewrite firstn_all.
  destruct (drop (last_chunk_count st) items) as [|c rest] eqn:D.
  - apply (f_equal length) in D. rewrite length_drop in D. cbn in D. lia.
  - run. rewrite for_new_chunks_run. reflexivity.
Qed.

Arguments verdict : simpl never.

Lemma settled_same_time w w' :
  settled w → now w' = now w → todo w' = todo w → settled w'.
Proof. unfold settled. intros H -> ->. exact H. Qed.

Lemma finish_run task_id flag r w :
  settled w →
  finish task_id flag r w =
  match verdict flag r with
  | inr fs => (Returns tt, closed task_id fs w)
  | inl e => (Raises e, w)
  end.
Proof.
  intros Hw. unfold finish, verdict.
  assert (Hdel : ∀ fs,
    (redis_delete (result_key task_id) ;; redis_delete (stream_key task_id))
      {| broker := broker w; now := now w; todo := todo w;
         sent := sent w ++ fs |}
    = (Returns tt, closed task_id fs w)).
  { intros fs. run. rewrite redis_delete_run
      by (eapply settled_same_time; [exact Hw|reflexivity..]).
    cbn. rewrite redis_delete_run
      by (eapply settled_same_time; [exact Hw|reflexivity..]).
    reflexivity. }
  assert (Hdel0 :
    (redis_delete (result_key task_id) ;; redis_delete (stream_key task_id)) w
    = (Returns tt, closed task_id [] w)).
  { rewrite <- Hdel. f_equal. rewrite app_nil_r. now destruct w. }
  destruct (json_loads r) as [e|result]; [reflexivity|].
  rewrite bind_run. cbn.
  destruct (dict_get result "error" JNull) as [e|error]; [reflexivity|].
  rewrite bind_run. cbn. rewrite bind_run.
  destruct (truthy error).
  { run. apply Hdel. }
  rewrite bind_run.
  destruct (dict_get result "data" (JObj [])) as [e|data]; [reflexivity|].
  cbn. destruct flag.
  - rewrite bind_run.
    destruct (dict_get data "stop" (JBool false)) as [e|stop] eqn:Hstop;
      [reflexivity|].
    cbn. destruct (truthy stop).
    + destruct data; try discriminate Hstop. cbn. run. apply Hdel.
    + run. apply Hdel0.
  - run. apply Hdel.
Qed.

Lemma poll_run task_id st w :
  poll task_id st w =
  match drain task_id st w with
  | (Returns st', w') =>
      match broker (settle w') !! result_key task_id with
      | Some (RString Blank) | None => (Returns (Continue st'), slept 50 w')
      | Some (RString r) =>
          match verdict (chunks_sent st') r with
          | inr fs => (Returns Return, closed task_id fs (settle w'))
          | inl e => (Returns Return, failed e (settle w'))
          end
      | Some (RList _) => (Returns Return, failed wrongtype (settle w'))
      end
  | (Raises e, w') => (Returns Return, failed e w')
  | (Unfinished, w') => (Unfinished, w')
  end.
Proof.
  unfold poll. run.
  destruct (drain task_id st w) as [[st'|e|] w']; trivial.
  rewrite redis_get_run.
  destruct (broker (settle w') !! result_key task_id) as [[[|j|msg]|items]|];
    run; trivial;
    rewrite finish_run by apply settle_settled;
    now destruct (verdict (chunks_sent st') _).
Qed.

Lemma stream_loop_unfold fuel task_id start timeout st w :
  stream_loop (S fuel) task_id start timeout st w =
  if now w - start <? 1000 * timeout then
    match poll task_id st w with
    | (Returns (Continue st'), w') =>
        stream_loop fuel task_id start timeout st' w'
    | (Returns Return, w') => (Returns tt, w')
    | (Raises e, w') => (Raises e, w')
    | (Unfinished, w') => (Unfinished, w')
    end
  else (Returns tt, timed_out w).
Proof.
  cbn [stream_loop]. run.
  destruct (now w - start <? 1000 * timeout); trivial.
  now destruct (poll task_id st w) as [[[st'|]|e|] w'].
Qed.

Arguments stream_loop : simpl never.

(** A pass that does not end the relay takes 50 ms or more, and a pass
    never ends with an exception. *)
Lemma poll_takes_time task_id st w :
  match poll task_id st w with
  | (Returns (Continue _), w') => now w + 50 ≤ now w'
  | (Returns Return, _) => True
  | (Raises _, _) | (Unfinished, _) => False
  end.
Proof.
  rewrite poll_run, drain_run.
  destruct (broker (settle w) !! stream_key task_id) as [[r|items]|];
    trivial;
    match goal with
    | |- context [broker (settle ?w1) !! result_key task_id] =>
        destruct (broker (settle w1) !! result_key task_id)
          as [[[|j|msg]|items']|];
        try (now destruct (verdict _ _)); cbn; rewrite ?now_settle; lia
    end.
Qed.

Lemma stream_loop_finishes task_id start timeout : ∀ fuel st w,
  1000 * timeout - (now w - start) ≤ 50 * Z.of_nat fuel →
  ∃ w', stream_loop (S fuel) task_id start timeout st w = (Returns tt, w').
Proof.
  induction fuel as [|fuel IH]; intros st w Hfuel;
    rewrite stream_loop_unfold;
    (destruct (Z.ltb_spec (now w - start) (1000 * timeout)) as [Hin|Hout];
     [|eauto]); [lia|].
  pose proof (poll_takes_time task_id st w) as Hp.
  destruct (poll task_id st w) as [[[st'|]|e|] w1]; try contradiction; eauto.
  apply IH. lia.
Qed.

(** The loop budget of the model is enough: whatever the broker holds and
    whatever is written to it, the relay ends, and it ends by returning. *)
Lemma stream_completion_response_finishes task_id w :
  ∃ w', stream_completion_response task_id w = (Returns tt, w').
Proof.
  unfold stream_completion_response, stream_with_timeout. run.
  replace (Z.to_nat (20 * 300) + 1)%nat with (S (Z.to_nat (20 * 300)))
    by lia.
  apply stream_loop_finishes. lia.
Qed.

(** ** Passes of the relay that find nothing *)

Lemma stream_loop_idle task_id start timeout fuel st w :
  now w - start < 1000 * timeout →
  broker (settle w) !! stream_key task_id = None →
  broker (settle w) !! result_key task_id = None →
  stream_loop (S fuel) task_id start timeout st w =
  stream_loop fuel task_id start timeout st (slept 50 w).
Proof.
  intros Hin Hs Hr. rewrite stream_loop_unfold.
  destruct (Z.ltb_spec (now w - start) (1000 * timeout)); [|lia].
  rewrite poll_run, drain_run, Hs, settle_again, Hr.
  unfold slept. now rewrite settle_again.
Qed.

Lemma stream_loop_idles task_id start timeout st : ∀ (k fuel : nat) w,
  now w - start + 50 * Z.of_nat k ≤ 1000 * timeout →
  (∀ i : nat, (i < k)%nat →
     seen_at w (now w + 50 * Z.of_nat i) (stream_key task_id) = None
     ∧ seen_at w (now w + 50 * Z.of_nat i) (result_key task_id) = None) →
  ∃ w', stream_loop (k + fuel) task_id start timeout st w
        = stream_loop fuel task_id start timeout st w'
        ∧ now w' = now w + 50 * Z.of_nat k
        ∧ sent w' = sent w
        ∧ only_their_writes w w'
        ∧ ∀ t key, now w' ≤ t → seen_at w' t key = seen_at w t key.
Proof.
  induction k as [|k IH]; intros fuel w Hin Hnone.
  - exists w. repeat split; trivial; [lia|apply only_their_writes_refl].
  - destruct (Hnone 0%nat ltac:(lia)) as [Hs Hr].
    rewrite Z.mul_0_r, Z.add_0_r, seen_at_now in Hs, Hr.
    cbn [Nat.add]. rewrite stream_loop_idle by (trivial; lia).
    destruct (IH fuel (slept 50 w)) as (w' & R & T & O & W & V); cbn; try lia.
    + intros i Hi. rewrite !seen_at_slept by lia.
      replace (now w + 50 + 50 * Z.of_nat i)
        with (now w + 50 * Z.of_nat (S i)) by lia.
      apply Hnone. lia.
    + exists w'. cbn in T. repeat split; trivial; try lia.
      * eapply only_their_writes_trans; [|exact W]. apply only_their_writes_settle.
      * intros t key Ht. rewrite V by exact Ht. apply seen_at_slept. lia.
Qed.

Lemma seen_at_spares w t k :
  spares k (todo w) → seen_at w t k = broker w !! k.
Proof. intros H. unfold seen_at. now apply catch_up_spares. Qed.

(** ** The relay when nothing is ever written *)

Lemma stream_with_timeout_quiet timeout task_id w :
  0 ≤ timeout →
  broker w !! result_key task_id = None →
  broker w !! stream_key task_id = None →
  spares (result_key task_id) (todo w) →
  spares (stream_key task_id) (todo w) →
  ∃ w', stream_with_timeout timeout task_id w = (Returns tt, timed_out w')
        ∧ now w' = now w + 1000 * timeout
        ∧ sent w' = sent w
        ∧ only_their_writes w w'.
Proof.
  intros Ht Hr Hs Sr Ss. unfold stream_with_timeout. run.
  destruct (stream_loop_idles task_id (now w) timeout
              {| chunks_sent := false; last_chunk_count := 0 |}
              (Z.to_nat (20 * timeout)) 1 w) as (w' & R & T & O & W & _).
  - lia.
  - intros i _. now rewrite !seen_at_spares, Hs, Hr.
  - rewrite R, stream_loop_unfold.
    destruct (Z.ltb_spec (now w' - now w) (1000 * timeout)); [lia|].
    exists w'. repeat split; trivial. lia.
Qed.

(** C10.  When neither a chunk nor a result is ever written for a job, the
    relay yields one frame, the request-timeout error, 300 seconds after
    it started, and ends; the broker has then changed only by what other
    clients wrote to it, so no key has been deleted. *)
Theorem relay_times_out task_id w :
  broker w !! result_key task_id = None →
  broker w !! stream_key task_id = None →
  spares (result_key task_id) (todo w) →
  spares (stream_key task_id) (todo w) →
  ∃ w', stream_completion_response task_id w = (Returns tt, w')
        ∧ sent w' = sent w ++ [TimedOut timeout_result]
        ∧ now w' = now w + 300000
        ∧ only_their_writes w w'
        ∧ ∀ k, is_Some (broker w !! k) → is_Some (broker w' !! k).
Proof.
  intros Hr Hs Sr Ss.
  destruct (stream_with_timeout_quiet 300 task_id w) as (w' & R & T & O & W);
    trivial; [lia|].
  exists (timed_out w'). cbn. rewrite O. split_and!; trivial.
  intros k Hk. destruct W as (done & _ & ->). now apply perform_all_keeps.
Qed.

Lemma relay_times_out_witness :
  ∃ w', stream_completion_response "timeoutjob" (fresh ∅ 0 []) = (Returns tt, w')
        ∧ sent w' = [] ++ [TimedOut timeout_result]
        ∧ now w' = 0 + 300000
        ∧ only_their_writes (fresh ∅ 0 []) w'
        ∧ ∀ k, is_Some ((∅ : gmap string rvalue) !! k)
               → is_Some (broker w' !! k).
Proof.
  apply (relay_times_out "timeoutjob" (fresh ∅ 0 []));
    try reflexivity; constructor.
Defined.

(** ** A pass of the relay that finds a result *)

Lemma stream_loop_result task_id start timeout fuel st w st' w' r :
  now w - start < 1000 * timeout →
  drain task_id st w = (Returns st', w') →
  broker (settle w') !! result_key task_id = Some (RString r) →
  nonempty r = true →
  stream_loop (S fuel) task_id start timeout st w =
  (Returns tt,
   match verdict (chunks_sent st') r with
   | inr fs => closed task_id fs (settle w')
   | inl e => failed e (settle w')
   end).
Proof.
  intros Hin Hd Hr Hne. rewrite stream_loop_unfold.
  destruct (Z.ltb_spec (now w - start) (1000 * timeout)); [|lia].
  rewrite poll_run, Hd, Hr.
  destruct r; [discriminate Hne| |];
    now destruct (verdict (chunks_sent st') _).
Qed.

Lemma closed_deleted task_id fs w :
  broker (closed task_id fs w) !! result_key task_id = None
  ∧ broker (closed task_id fs w) !! stream_key task_id = None.
Proof.
  unfold closed; cbn. split.
  - rewrite lookup_delete_ne by apply stream_key_not_result_key.
    apply lookup_delete_eq.
  - apply lookup_delete_eq.
Qed.

(** Whatever the other clients do between the time of [w] and a later read,
    the read sees what [seen_at] says. *)
Lemma seen_after_streaming fs w k :
  broker (settle (streamed fs (settle w))) !! k
  = seen_at w (now w + Z.of_nat (length fs)) k.
Proof.
  unfold seen_at, settle, streamed; cbn. rewrite catch_up_later by lia.
  reflexivity.
Qed.

Lemma chunk_frames_texts js : ∀ index,
  chunk_frames index (Text <$> js) = imap (fun n j => Chunk (index + n) j) js.
Proof.
  induction js as [|j js IH]; intros index; cbn; trivial.
  rewrite IH, Nat.add_0_r. f_equal. apply imap_ext. intros n x _. cbn.
  f_equal. lia.
Qed.

(** C8.  A job to whose stream list nothing is ever appended and whose
    result key is found, at one of the polls of the relay, to hold a result
    without error and with a data payload: the relay yields one frame, that
    payload, deletes the result key and the stream key, and ends. *)
Theorem relay_single_payload task_id (k : nat) w fields data :
  50 * Z.of_nat k < 300000 →
  (∀ i : nat, (i < k)%nat →
     seen_at w (now w + 50 * Z.of_nat i) (stream_key task_id) = None
     ∧ seen_at w (now w + 50 * Z.of_nat i) (result_key task_id) = None) →
  seen_at w (now w + 50 * Z.of_nat k) (stream_key task_id) = None →
  seen_at w (now w + 50 * Z.of_nat k) (result_key task_id)
  = Some (RString (Text (JObj fields))) →
  truthy (default JNull (assoc "error" fields)) = false →
  assoc "data" fields = Some data →
  ∃ w', stream_completion_response task_id w = (Returns tt, w')
        ∧ sent w' = sent w ++ [Complete data]
        ∧ broker w' !! result_key task_id = None
        ∧ broker w' !! stream_key task_id = None
        ∧ now w' = now w + 50 * Z.of_nat k.
Proof.
  intros Hk Hnone Hs Hr Herr Hdata.
  unfold stream_completion_response, stream_with_timeout. run.
  set (st := {| chunks_sent := false; last_chunk_count := 0 |}).
  replace (Z.to_nat (20 * 300) + 1)%nat
    with (k + S (Z.to_nat (20 * 300) - k))%nat by lia.
  destruct (stream_loop_idles task_id (now w) 300 st k
              (S (Z.to_nat (20 * 300) - k)) w)
    as (w1 & R & T & O & _ & V); trivial; [lia|].
  rewrite R.
  rewrite <- T in Hs, Hr.
  rewrite <- V in Hs, Hr by reflexivity. rewrite seen_at_now in Hs, Hr.
  assert (Hd : drain task_id st w1 = (Returns st, settle w1))
    by now rewrite drain_run, Hs.
  assert (Hin : now w1 - now w < 1000 * 300) by lia.
  rewrite (stream_loop_result _ _ _ _ _ _ _ _ (Text (JObj fields)) Hin Hd)
    by (rewrite ?settle_again; trivial).
  unfold verdict; cbn. rewrite Herr, Hdata. cbn.
  eexists. split; [reflexivity|].
  destruct (closed_deleted task_id [Complete data] (settle (settle w1)))
    as [D1 D2].
  repeat split; trivial; cbn; rewrite ?sent_settle, ?now_settle; congruence.
Qed.

(** Job [xyz] of the specification, whose result is written 120 ms after
    the relay has started. *)
Lemma relay_single_payload_witness :
  ∃ w', stream_completion_response "xyz"
          (written_at 120 "xyz" (JObj [("data", JObj [("text", JStr "42")])]))
        = (Returns tt, w')
        ∧ sent w' = [] ++ [Complete (JObj [("text", JStr "42")])]
        ∧ broker w' !! result_key "xyz" = None
        ∧ broker w' !! stream_key "xyz" = None
        ∧ now w' = 0 + 50 * Z.of_nat 3.
Proof.
  apply (relay_single_payload "xyz" 3
           (written_at 120 "xyz" (JObj [("data", JObj [("text", JStr "42")])]))
           [("data", JObj [("text", JStr "42")])] (JObj [("text", JStr "42")])).
  - lia.
  - intros [|[|[|i]]] Hi; try (split; reflexivity). lia.
  - reflexivity.
  - reflexivity.
  - reflexivity.
  - reflexivity.
Defined.

(** ** Chunks and a result with a stop flag *)

Lemma any_sent_imap {A} (f : nat → A → frame) l :
  l ≠ [] → any_sent (imap f l) = true.
Proof. now destruct l. Qed.

(** A job whose stream list is found, at one of the polls of the relay, to
    hold N >= 1 well-formed chunks, nothing having been seen at the polls
    before, and whose result key holds, when it is read in the same pass, a
    result without error whose data has [stop] true: the relay yields the
    N chunks and then the final frame.  This is what happens when the
    worker writes everything between two polls. *)
Lemma relay_burst_then_stop task_id (k : nat) w js fields data :
  js ≠ [] →
  50 * Z.of_nat k < 300000 →
  (∀ i : nat, (i < k)%nat →
     seen_at w (now w + 50 * Z.of_nat i) (stream_key task_id) = None
     ∧ seen_at w (now w + 50 * Z.of_nat i) (result_key task_id) = None) →
  seen_at w (now w + 50 * Z.of_nat k) (stream_key task_id)
  = Some (RList (Text <$> js)) →
  seen_at w (now w + 50 * Z.of_nat k + Z.of_nat (length js)) (result_key task_id)
  = Some (RString (Text (JObj fields))) →
  truthy (default JNull (assoc "error" fields)) = false →
  assoc "data" fields = Some (JObj data) →
  assoc "stop" data = Some (JBool true) →
  ∃ w', stream_completion_response task_id w = (Returns tt, w')
        ∧ sent w' = sent w ++ imap Chunk js ++ [FinalStop (final_chunk data)]
        ∧ length (imap Chunk js ++ [FinalStop (final_chunk data)])
          = (length js + 1)%nat
        ∧ broker w' !! result_key task_id = None
        ∧ broker w' !! stream_key task_id = None.
Proof.
  intros Hjs Hk Hnone Hs Hr Herr Hdata Hstop.
  unfold stream_completion_response, stream_with_timeout. run.
  set (st := {| chunks_sent := false; last_chunk_count := 0 |}).
  replace (Z.to_nat (20 * 300) + 1)%nat
    with (k + S (Z.to_nat (20 * 300) - k))%nat by lia.
  destruct (stream_loop_idles task_id (now w) 300 st k
              (S (Z.to_nat (20 * 300) - k)) w)
    as (w1 & R & T & O & _ & V); trivial; [lia|].
  rewrite R.
  rewrite <- T in Hs, Hr.
  rewrite <- V in Hs, Hr by lia. rewrite seen_at_now in Hs.
  set (fs := imap Chunk js).
  assert (Hlen : length fs = length js) by apply length_imap.
  assert (Hd : drain task_id st w1
               = (Returns {| chunks_sent := true;
                             last_chunk_count := length (Text <$> js) |},
                  streamed fs (settle w1))).
  { rewrite drain_run, Hs. unfold drained. cbn [last_chunk_count chunks_sent st].
    destruct (Nat.ltb_spec 0 (length (Text <$> js))) as [_|H].
    - cbn [fst snd]. rewrite drop_0, chunk_frames_texts.
      change (imap (fun n j => Chunk (0 + n) j) js) with fs.
      unfold fs at 1. now rewrite any_sent_imap.
    - rewrite length_fmap in H. destruct js; [contradiction|cbn in H; lia]. }
  assert (Hin : now w1 - now w < 1000 * 300) by lia.
  rewrite (stream_loop_result _ _ _ _ _ _ _ _ (Text (JObj fields)) Hin Hd);
    trivial.
  - unfold verdict; cbn. rewrite Herr, Hdata. cbn. rewrite Hstop. cbn.
    eexists. split; [reflexivity|].
    destruct (closed_deleted task_id [FinalStop (final_chunk data)]
                (settle (streamed fs (settle w1)))) as [D1 D2].
    repeat split; trivial.
    + cbn. rewrite sent_settle. cbn. rewrite sent_settle, O.
      now rewrite <- app_assoc.
    + rewrite length_app, Hlen. reflexivity.
  - rewrite seen_after_streaming, Hlen. exact Hr.
Qed.


(** ** What the relay does with the result it finds *)

(** A pass that finds, the flag [chunks_sent] being set, a result without
    error whose data has no [stop] flag or a false one: nothing more is
    yielded, both keys are deleted, and the loop is left. *)
Lemma silent_pass task_id start timeout fuel st w st' w' fields data :
  now w - start < 1000 * timeout →
  drain task_id st w = (Returns st', w') →
  chunks_sent st' = true →
  broker (settle w') !! result_key task_id
  = Some (RString (Text (JObj fields))) →
  truthy (default JNull (assoc "error" fields)) = false →
  default (JObj []) (assoc "data" fields) = JObj data →
  truthy (default (JBool false) (assoc "stop" data)) = false →
  ∃ w'', stream_loop (S fuel) task_id start timeout st w = (Returns tt, w'')
         ∧ sent w'' = sent w'
         ∧ now w'' = now w'
         ∧ broker w'' !! result_key task_id = None
         ∧ broker w'' !! stream_key task_id = None.
Proof.
  intros Hin Hd Hsent Hr Herr Hdata Hstop.
  rewrite (stream_loop_result _ _ _ _ _ _ _ _ (Text (JObj fields)) Hin Hd);
    trivial.
  unfold verdict; cbn. rewrite Herr, Hdata, Hsent. cbn. rewrite Hstop.
  eexists. split; [reflexivity|].
  destruct (closed_deleted task_id [] (settle w')) as [D1 D2].
  repeat split; trivial. cbn. now rewrite app_nil_r, sent_settle.
Qed.

(** C7, as amended.  In a pass after whose reading of the stream list the
    relay has passed on at least one chunk, and in which the result key is
    found to hold a result without error whose data has a true [stop]
    flag, the relay yields a final frame with four fields: an empty
    [content], [multimodal] and [slot_id] as the data has them ([false]
    and [0] where it does not), and [stop] true.  No other field of the
    data is carried over. *)
Theorem final_frame_fields
    task_id start timeout fuel st w st' w' fields data :
  now w - start < 1000 * timeout →
  drain task_id st w = (Returns st', w') →
  chunks_sent st' = true →
  broker (settle w') !! result_key task_id
  = Some (RString (Text (JObj fields))) →
  truthy (default JNull (assoc "error" fields)) = false →
  default (JObj []) (assoc "data" fields) = JObj data →
  truthy (default (JBool false) (assoc "stop" data)) = true →
  ∃ w'', stream_loop (S fuel) task_id start timeout st w = (Returns tt, w'')
         ∧ sent w'' =
           sent w' ++
           [FinalStop
              (JObj [("content", JStr "");
                     ("multimodal",
                      default (JBool false) (assoc "multimodal" data));
                     ("slot_id", default (JNum 0) (assoc "slot_id" data));
                     ("stop", JBool true)])].
Proof.
  intros Hin Hd Hsent Hr Herr Hdata Hstop.
  rewrite (stream_loop_result _ _ _ _ _ _ _ _ (Text (JObj fields)) Hin Hd);
    trivial.
  unfold verdict; cbn. rewrite Herr, Hdata, Hsent. cbn. rewrite Hstop.
  eexists. split; [reflexivity|]. cbn. now rewrite sent_settle.
Qed.

Lemma final_frame_fields_witness :
  ∃ w'', stream_loop 1 "abc123" 0 300 start_locals (fresh abc123_done 0 [])
         = (Returns tt, w'')
         ∧ sent w'' =
           [Chunk 0 (chunk "Hel"); Chunk 1 (chunk "lo")] ++
           [FinalStop
              (JObj [("content", JStr "");
                     ("multimodal", JBool false);
                     ("slot_id", JNum 2);
                     ("stop", JBool true)])].
Proof.
  apply (final_frame_fields "abc123" 0 300 0 start_locals
           (fresh abc123_done 0 [])
           {| chunks_sent := true; last_chunk_count := 2 |}
           {| broker := abc123_done; now := 2; todo := [];
              sent := [Chunk 0 (chunk "Hel"); Chunk 1 (chunk "lo")] |}
           [("data", JObj [("stop", JBool true); ("slot_id", JNum 2)])]
           [("stop", JBool true); ("slot_id", JNum 2)]).
  - cbn; lia.
  - reflexivity.
  - reflexivity.
  - reflexivity.
  - reflexivity.
  - reflexivity.
  - reflexivity.
Defined.

(** Job [abc123] of the specification: the payload of the final frame is
    not [{content: "", slot_id: 2, stop: true}]; it has a [multimodal]
    field, which the data of the result does not have. *)
Lemma abc123_final_frame_has_multimodal :
  let out := frames (stream_completion_response "abc123")
               (fresh abc123_done 0 []) in
  payload_of <$> last out
  = Some (JObj [("content", JStr ""); ("multimodal", JBool false);
                ("slot_id", JNum 2); ("stop", JBool true)])
  ∧ payload_of <$> last out
    ≠ Some (JObj [("content", JStr ""); ("slot_id", JNum 2);
                  ("stop", JBool true)]).
Proof.
  intros out.
  assert (E : payload_of <$> last out
              = Some (JObj [("content", JStr "");
                            ("multimodal", JBool false);
                            ("slot_id", JNum 2);
                            ("stop", JBool true)]))
    by (vm_compute; reflexivity).
  split; [exact E|]. rewrite E. discriminate.
Qed.

(** ** Records that do not decode *)

(** C6, as amended.  A result record that cannot be decoded ends the relay:
    it yields one frame, the error wrapped as a streaming error, and ends
    without deleting a key.  A chunk that cannot be decoded does not: it is
    skipped, nothing is yielded for it, and the relay goes on with the
    chunks after it. *)
Theorem malformed_records task_id start timeout fuel st w st' w' msg :
  now w - start < 1000 * timeout →
  drain task_id st w = (Returns st', w') →
  broker (settle w') !! result_key task_id = Some (RString (Junk msg)) →
  (∃ w'', stream_loop (S fuel) task_id start timeout st w = (Returns tt, w'')
          ∧ sent w'' =
            sent w' ++
            [StreamingError
               (JObj [("error", JStr ("Streaming error: " +:+ msg))])]
          ∧ broker w'' = broker (settle w'))
  ∧ ∀ index chunk_msg rest flag w0,
      for_new_chunks index (Junk chunk_msg :: rest) flag w0
      = for_new_chunks (S index) rest flag w0.
Proof.
  intros Hin Hd Hr. split.
  - rewrite (stream_loop_result _ _ _ _ _ _ _ _ (Junk msg) Hin Hd); trivial.
    unfold verdict; cbn. eexists. split; [reflexivity|].
    cbn. now rewrite sent_settle.
  - intros index chunk_msg rest flag w0. now rewrite !for_new_chunks_run.
Qed.

Lemma malformed_records_witness :
  (∃ w'', stream_loop 1 "bad" 0 300 start_locals (fresh garbled 0 [])
          = (Returns tt, w'')
          ∧ sent w'' =
            [] ++
            [StreamingError
               (JObj [("error",
                       JStr ("Streaming error: "
                             +:+ "Extra data: line 1 column 3 (char 2)"))])]
          ∧ broker w'' = garbled)
  ∧ ∀ index chunk_msg rest flag w0,
      for_new_chunks index (Junk chunk_msg :: rest) flag w0
      = for_new_chunks (S index) rest flag w0.
Proof.
  apply (malformed_records "bad" 0 300 0 start_locals (fresh garbled 0 [])
           {| chunks_sent := false; last_chunk_count := 1 |}
           (fresh garbled 0 [])).
  - cbn; lia.
  - reflexivity.
  - reflexivity.
Defined.

(** A stream list whose only element does not decode, and no result: the
    relay yields no streaming error and does not end; it goes on polling
    until the timeout. *)
Lemma malformed_chunk_is_not_terminal :
  let w := fresh {[ stream_key "bad" := RList [Junk "Expecting value"] ]} 0 [] in
  frames (stream_completion_response "bad") w = [TimedOut timeout_result]
  ∧ now (stream_completion_response "bad" w).2 = 300000.
Proof. split; vm_compute; reflexivity. Qed.

(** ** Errors reported by the worker, on the non-streaming endpoints *)

(** C9: the code at a failing input.  The worker answers the job with
    [{"error": "boom"}].  [tokenize] raises an [HTTPException] with status
    500 for it, catches that exception itself and raises another one whose
    detail is a prefix followed by the text of the first exception: the
    detail is not the error string of the result.  [completion] does the
    same without the prefix. *)
Theorem worker_error_is_wrapped (http_exception_str : Z → json → string) :
  let w := written_at 40 "t1" (JObj [("error", JStr "boom")]) in
  let request := JObj [("content", JStr "hello")] in
  let text := http_exception_str 500 (JStr "boom") in
  (tokenize http_exception_str "t1" request w).1
  = Raises (http_exception http_exception_str 500
              (JStr ("Error processing tokenize request: " +:+ text)))
  ∧ JStr ("Error processing tokenize request: " +:+ text) ≠ JStr "boom"
  ∧ (completion http_exception_str "t1" request false w).1
    = Raises (http_exception http_exception_str 500 (JStr text)).
Proof.
  intros w request text. split; [|split].
  - vm_compute. reflexivity.
  - cbn. discriminate.
  - vm_compute. reflexivity.
Qed.

(** ** The order of the frames, whatever the worker does *)

Lemma in_list_order_le L lo hi fs : in_list_order L lo hi fs → (lo ≤ hi)%nat.
Proof. induction 1; lia. Qed.

Lemma in_list_order_app L lo mid hi fs1 fs2 :
  in_list_order L lo mid fs1 → in_list_order L mid hi fs2 →
  in_list_order L lo hi (fs1 ++ fs2).
Proof.
  intros H1 H2. induction H1 as [lo mid Hle|lo mid i c j fs Hi Hc Hj _ IH]; cbn.
  - clear -Hle H2. revert lo Hle.
    induction H2 as [mid hi Hle'|mid hi i c j fs Hi Hc Hj H IH]; intros lo Hle.
    + constructor. lia.
    + econstructor; eauto. lia.
  - econstructor; eauto.
Qed.

Lemma chunk_frames_in_order L new_chunks : ∀ index,
  (∀ n c, new_chunks !! n = Some c → L !! (index + n)%nat = Some c) →
  in_list_order L index (index + length new_chunks) (chunk_frames index new_chunks).
Proof.
  induction new_chunks as [|c rest IH]; intros index HL; cbn.
  - constructor. lia.
  - assert (Hrest : in_list_order L (S index) (index + S (length rest))
                      (chunk_frames (S index) rest)).
    { replace (index + S (length rest))%nat with (S index + length rest)%nat
        by lia.
      apply IH. intros n c' Hn.
      replace (S index + n)%nat with (index + S n)%nat by lia.
      now apply HL. }
    destruct (json_loads c) as [e|j] eqn:Hc.
    + apply (in_list_order_app L index (S index) _ []
               (chunk_frames (S index) rest)); [|exact Hrest].
      constructor. lia.
    + apply (next_chunk L index _ index c j); trivial.
      rewrite <- (Nat.add_0_r index) at 1. now apply HL.
Qed.

Lemma perform_all_app acts1 acts2 b :
  perform_all (acts1 ++ acts2) b = perform_all acts2 (perform_all acts1 b).
Proof. apply foldl_app. Qed.

Lemma worker_stream_settle task_id w :
  worker_stream task_id (settle w) = worker_stream task_id w.
Proof.
  unfold worker_stream, settle; cbn.
  destruct (catch_up_done (now w) (todo w) (broker w)) as (done & E1 & E2).
  rewrite E1 at 3. now rewrite perform_all_app, E2.
Qed.

Lemma keeps_list_settle k w :
  keeps_list k (todo w) → keeps_list k (todo (settle w)).
Proof.
  unfold keeps_list, settle; cbn.
  destruct (catch_up_done (now w) (todo w) (broker w)) as (done & E1 & _).
  rewrite E1 at 1. rewrite Forall_app. tauto.
Qed.

Lemma perform_all_extends k acts : ∀ b items,
  keeps_list k acts → b !! k = Some (RList items) →
  ∃ more, perform_all acts b !! k = Some (RList (items ++ more)).
Proof.
  induction acts as [|[due a] rest IH]; intros b items Hk Hb; cbn.
  - exists []. now rewrite app_nil_r.
  - inversion Hk as [|? ? Ha Hrest]; subst. cbn in Ha.
    assert (H : ∃ more, perform a b !! k = Some (RList (items ++ more))).
    { destruct a as [k' r|k' r]; cbn.
      - destruct (decide (k' = k)) as [->|Hne].
        + unfold redis_rpush. rewrite Hb. exists [r].
          apply lookup_insert_eq.
        + exists []. rewrite app_nil_r, <- Hb.
          apply (perform_other (Rpush k' r)). exact Hne.
      - destruct (decide (k' = k)) as [->|Hne]; [now destruct (Ha r)|].
        exists []. rewrite app_nil_r, <- Hb.
        apply (perform_other (SetKey k' r)). exact Hne. }
    destruct H as (more1 & H1).
    destruct (IH _ _ Hrest H1) as (more2 & H2).
    exists (more1 ++ more2). now rewrite app_assoc.
Qed.

Lemma stream_list_prefix task_id w items :
  keeps_list (stream_key task_id) (todo w) →
  broker w !! stream_key task_id = Some (RList items) →
  ∃ more, worker_stream task_id w = items ++ more.
Proof.
  intros Hk Hb. unfold worker_stream.
  destruct (perform_all_extends _ _ _ _ Hk Hb) as (more & ->).
  now exists more.
Qed.

Lemma verdict_tail flag r fs :
  verdict flag r = inr fs → fs = [] ∨ ∃ f, fs = [f] ∧ is_chunk f = false.
Proof.
  unfold verdict.
  destruct (json_loads r) as [|result]; [discriminate|].
  destruct (dict_get result "error" JNull) as [|error]; [discriminate|].
  destruct (truthy error); [intros [= <-]; right; eauto|].
  destruct (dict_get result "data" (JObj [])) as [|data]; [discriminate|].
  destruct flag; [|intros [= <-]; right; eauto].
  destruct (dict_get data "stop" (JBool false)) as [|stop]; [discriminate|].
  destruct (truthy stop); [|intros [= <-]; now left].
  destruct (dict_get data "multimodal" (JBool false)); [discriminate|].
  destruct (dict_get data "slot_id" (JNum 0)); [discriminate|].
  intros [= <-]; right; eauto.
Qed.

Section Order.

Variable task_id : string.
Variable L : list raw.

Lemma between_passes_settle st w :
  between_passes task_id L st w → between_passes task_id L st (settle w).
Proof.
  intros (Ho & Hw & Hk). repeat split.
  - exact Ho.
  - now rewrite worker_stream_settle.
  - now apply keeps_list_settle.
Qed.

Lemma drain_keeps_order st w :
  between_passes task_id L st w →
  match drain task_id st w with
  | (Returns st', w') => between_passes task_id L st' w' ∧ now w ≤ now w'
  | (Raises _, w') => sent w' = sent w
  | (Unfinished, _) => False
  end.
Proof.
  intros Hb. apply between_passes_settle in Hb. rewrite drain_run.
  destruct (broker (settle w) !! stream_key task_id) as [[r|items]|] eqn:E;
    trivial; [|split; [exact Hb|reflexivity]].
  destruct Hb as (Ho & Hw & Hk).
  unfold drained.
  destruct (Nat.ltb_spec (last_chunk_count st) (length items)) as [Hlt|Hge];
    cbn [fst snd]; [|rewrite streamed_nil; now repeat split].
  split; [|cbn; rewrite now_settle; lia].
  repeat split; trivial. cbn [last_chunk_count sent streamed].
  eapply in_list_order_app; [exact Ho|].
  replace (length items)
    with (last_chunk_count st
          + length (drop (last_chunk_count st) items))%nat
    by (rewrite length_drop; lia).
  apply chunk_frames_in_order. intros n c Hn.
  rewrite lookup_drop in Hn.
  destruct (stream_list_prefix _ _ _ Hk E) as (more & Hmore).
  rewrite <- Hw, Hmore. now apply lookup_app_l_Some.
Qed.

Lemma closing_is_well_ordered hi chunks f :
  in_list_order L 0 hi chunks → is_chunk f = false →
  well_ordered L (chunks ++ [f]).
Proof.
  intros Ho Hf. exists chunks, [f], hi. repeat split; trivial.
  right. now exists f.
Qed.

Lemma poll_keeps_order st w :
  between_passes task_id L st w →
  match poll task_id st w with
  | (Returns (Continue st'), w') =>
      between_passes task_id L st' w' ∧ now w + 50 ≤ now w'
  | (Returns Return, w') => well_ordered L (sent w')
  | (Raises _, _) | (Unfinished, _) => False
  end.
Proof.
  intros Hb. pose proof (drain_keeps_order st w Hb) as Hd.
  rewrite poll_run.
  destruct (drain task_id st w) as [[st'|e|] w1]; [| |contradiction].
  - destruct Hd as [Hb1 Hnow].
    assert (Hgo : between_passes task_id L st' (slept 50 w1) ∧ now w + 50 ≤ now (slept 50 w1)).
    { split; [|cbn; lia].
      apply between_passes_settle in Hb1. exact Hb1. }
    pose proof Hb1 as (Ho & _ & _).
    destruct (broker (settle w1) !! result_key task_id)
      as [[[|j|msg]|items]|]; trivial.
    + destruct (verdict (chunks_sent st') (Text j)) as [e|fs] eqn:V; cbn.
      * eapply closing_is_well_ordered; [exact Ho|reflexivity].
      * exists (sent w1), fs, (last_chunk_count st').
        repeat split; trivial. eapply verdict_tail; exact V.
    + destruct (verdict (chunks_sent st') (Junk msg)) as [e|fs] eqn:V; cbn.
      * eapply closing_is_well_ordered; [exact Ho|reflexivity].
      * exists (sent w1), fs, (last_chunk_count st').
        repeat split; trivial. eapply verdict_tail; exact V.
    + cbn. eapply closing_is_well_ordered; [exact Ho|reflexivity].
  - cbn. rewrite Hd. destruct Hb as (Ho & _ & _).
    eapply closing_is_well_ordered; [exact Ho|reflexivity].
Qed.

Lemma stream_loop_well_ordered start timeout : ∀ fuel st w,
  between_passes task_id L st w →
  1000 * timeout - (now w - start) ≤ 50 * Z.of_nat fuel →
  ∃ w', stream_loop (S fuel) task_id start timeout st w = (Returns tt, w')
        ∧ well_ordered L (sent w').
Proof.
  induction fuel as [|fuel IH]; intros st w Hb Hfuel;
    rewrite stream_loop_unfold;
    destruct (Z.ltb_spec (now w - start) (1000 * timeout)) as [Hin|Hout];
    try lia.
  - exists (timed_out w). split; trivial. destruct Hb as (Ho & _ & _).
    eapply closing_is_well_ordered; [exact Ho|reflexivity].
  - pose proof (poll_keeps_order st w Hb) as Hp.
    destruct (poll task_id st w) as [[[st'|]|e|] w1]; try contradiction.
    + destruct Hp as [Hb1 Hnow]. apply IH; trivial. lia.
    + now exists w1.
  - exists (timed_out w). split; trivial. destruct Hb as (Ho & _ & _).
    eapply closing_is_well_ordered; [exact Ho|reflexivity].
Qed.

End Order.

Lemma in_list_order_chunks L lo hi fs :
  in_list_order L lo hi fs → Forall (fun f => is_chunk f = true) fs.
Proof. induction 1; constructor; trivial. Qed.

(** In a well-ordered stream at most one frame is not a chunk, and it is
    the last one. *)
Lemma well_ordered_one_terminal L fs :
  well_ordered L fs →
  (length (filter (fun f => is_chunk f = false) fs) ≤ 1)%nat
  ∧ ∀ f, f ∈ fs → is_chunk f = false → last fs = Some f.
Proof.
  intros (chunks & tail & hi & -> & Ho & Ht).
  apply in_list_order_chunks in Ho.
  assert (Hnone : filter (fun f => is_chunk f = false) chunks = []).
  { clear -Ho. induction Ho as [|f fs Hf _ IH]; trivial.
    rewrite filter_cons_False by (cbn; congruence). exact IH. }
  split.
  - rewrite filter_app, Hnone.
    destruct Ht as [->|(f & -> & Hf)]; cbn; [lia|].
    destruct (decide (is_chunk f = false)); cbn; lia.
  - intros f Hin Hf. apply elem_of_app in Hin as [Hin|Hin].
    + rewrite Forall_forall in Ho. apply Ho in Hin. congruence.
    + destruct Ht as [->|(f' & -> & _)]; [inversion Hin|].
      apply list_elem_of_singleton in Hin as ->. apply last_snoc.
Qed.

(** When every command goes through: whatever the other clients write and
    whenever they write it, as long as none of them replaces the stream
    list of the job by a string, the relay ends and the frames it has
    yielded are chunks followed by at most one frame that is not a chunk
    (a worker error, the final stop frame, the complete payload, a
    streaming error or the timeout error); each chunk frame is the decoded
    element of the stream list at its position, and the positions are
    strictly increasing, so that no element is passed on twice or out of
    order. *)
Lemma relay_frames_well_ordered task_id w :
  sent w = [] →
  keeps_list (stream_key task_id) (todo w) →
  ∃ w', stream_completion_response task_id w = (Returns tt, w')
        ∧ well_ordered (worker_stream task_id w) (sent w')
        ∧ (length (filter (fun f => is_chunk f = false) (sent w')) ≤ 1)%nat
        ∧ ∀ f, f ∈ sent w' → is_chunk f = false → last (sent w') = Some f.
Proof.
  intros Hsent Hk. unfold stream_completion_response, stream_with_timeout. run.
  replace (Z.to_nat (20 * 300) + 1)%nat with (S (Z.to_nat (20 * 300)))
    by lia.
  destruct (stream_loop_well_ordered task_id (worker_stream task_id w)
              (now w) 300 (Z.to_nat (20 * 300))
              {| chunks_sent := false; last_chunk_count := 0 |} w)
    as (w' & R & Hw); [|lia|].
  - repeat split; trivial. cbn. rewrite Hsent. constructor. lia.
  - exists w'. split; [exact R|]. split; [exact Hw|].
    now apply well_ordered_one_terminal in Hw.
Qed.

Lemma relay_frames_well_ordered_witness :
  ∃ w', stream_completion_response "abc123" (fresh ∅ 0 (abc123_script 0 1 1))
        = (Returns tt, w')
        ∧ well_ordered
            (worker_stream "abc123" (fresh ∅ 0 (abc123_script 0 1 1)))
            (sent w')
        ∧ (length (filter (fun f => is_chunk f = false) (sent w')) ≤ 1)%nat
        ∧ ∀ f, f ∈ sent w' → is_chunk f = false → last (sent w') = Some f.
Proof.
  apply relay_frames_well_ordered.
  - reflexivity.
  - repeat constructor; discriminate.
Defined.

(** ** Streaming: chunks that arrive over several passes *)

Lemma perform_all_string k acts : ∀ b r,
  keeps_list k acts → b !! k = Some (RString r) →
  perform_all acts b !! k = Some (RString r).
Proof.
  induction acts as [|[due a] rest IH]; intros b r Hk Hb; cbn; trivial.
  inversion Hk as [|? ? Ha Hrest]; subst. cbn in Ha.
  apply IH; trivial.
  destruct a as [k' r'|k' r']; cbn.
  - destruct (decide (k' = k)) as [->|Hne].
    + unfold redis_rpush. now rewrite Hb.
    + rewrite <- Hb. now apply (perform_other (Rpush k' r')).
  - destruct (decide (k' = k)) as [->|Hne]; [now destruct (Ha r')|].
    rewrite <- Hb. now apply (perform_other (SetKey k' r')).
Qed.

(** What is seen at a later time is what is seen now, with the writes that
    fall due in between made to it. *)
Lemma seen_at_later w t t' k :
  t ≤ t' →
  ∃ done rest,
    (catch_up t (broker w) (todo w)).2 = done ++ rest
    ∧ seen_at w t' k
      = perform_all done (catch_up t (broker w) (todo w)).1 !! k.
Proof.
  intros Ht. unfold seen_at. rewrite <- (catch_up_later t t') by exact Ht.
  destruct (catch_up_done t' (catch_up t (broker w) (todo w)).2
              (catch_up t (broker w) (todo w)).1) as (done & E1 & E2).
  exists done, (catch_up t' (catch_up t (broker w) (todo w)).1
                  (catch_up t (broker w) (todo w)).2).2.
  split; [exact E1|]. now rewrite E2.
Qed.

Lemma keeps_list_catch_up k t todo b :
  keeps_list k todo → keeps_list k (catch_up t b todo).2.
Proof.
  unfold keeps_list.
  destruct (catch_up_done t todo b) as (done & E1 & _).
  rewrite E1 at 1. rewrite Forall_app. tauto.
Qed.

Lemma seen_at_stays w t t' k :
  t ≤ t' → is_Some (seen_at w t k) → is_Some (seen_at w t' k).
Proof.
  intros Ht Hk. destruct (seen_at_later w t t' k Ht) as (done & rest & _ & ->).
  now apply perform_all_keeps.
Qed.

Lemma seen_list_grows w t t' k items :
  keeps_list k (todo w) → t ≤ t' →
  seen_at w t k = Some (RList items) →
  ∃ more, seen_at w t' k = Some (RList (items ++ more)).
Proof.
  intros Hk Ht Hs. destruct (seen_at_later w t t' k Ht) as (done & rest & E & ->).
  apply perform_all_extends; trivial.
  apply (keeps_list_catch_up k t _ (broker w)) in Hk.
  rewrite E in Hk. unfold keeps_list in *. rewrite Forall_app in Hk. tauto.
Qed.

Lemma worker_stream_at task_id w t :
  worker_stream task_id w
  = match perform_all (catch_up t (broker w) (todo w)).2
            (catch_up t (broker w) (todo w)).1 !! stream_key task_id with
    | Some (RList items) => items
    | _ => []
    end.
Proof.
  unfold worker_stream.
  destruct (catch_up_done t (todo w) (broker w)) as (done & E1 & E2).
  rewrite E1 at 1. now rewrite perform_all_app, E2.
Qed.

Lemma seen_list_prefix task_id w t items :
  keeps_list (stream_key task_id) (todo w) →
  seen_at w t (stream_key task_id) = Some (RList items) →
  ∃ more, worker_stream task_id w = items ++ more.
Proof.
  intros Hk Hs. rewrite (worker_stream_at task_id w t).
  destruct (perform_all_extends (stream_key task_id)
              (catch_up t (broker w) (todo w)).2
              (catch_up t (broker w) (todo w)).1 items) as (more & ->);
    trivial; [|now exists more].
  now apply keeps_list_catch_up.
Qed.

Lemma seen_string_no_stream task_id w t r :
  keeps_list (stream_key task_id) (todo w) →
  seen_at w t (stream_key task_id) = Some (RString r) →
  worker_stream task_id w = [].
Proof.
  intros Hk Hs. rewrite (worker_stream_at task_id w t).
  rewrite (perform_all_string _ _ _ r); trivial.
  now apply keeps_list_catch_up.
Qed.

Lemma imap_take_drop (js : list json) (a b : nat) :
  (a ≤ b)%nat → (b ≤ length js)%nat →
  imap Chunk (take a js)
  ++ imap (fun n j => Chunk (a + n) j) (drop a (take b js))
  = imap Chunk (take b js).
Proof.
  intros Hab Hb.
  rewrite <- (take_drop a (take b js)) at 2.
  rewrite imap_app, take_take, Nat.min_l by exact Hab.
  f_equal. apply imap_ext. intros n j _. cbn.
  rewrite length_take. f_equal. lia.
Qed.

Lemma seen_at_settle w t k : now w ≤ t → seen_at (settle w) t k = seen_at w t k.
Proof.
  intros H. unfold seen_at, settle; cbn. now rewrite catch_up_later.
Qed.

Lemma seen_at_streamed fs w t k :
  now w ≤ t → seen_at (streamed fs (settle w)) t k = seen_at w t k.
Proof. intros H. unfold seen_at, streamed, settle; cbn. now rewrite catch_up_later. Qed.

Section Streaming.

Variable task_id : string.
Variable w0 : world.
Variable js : list json.
Variable fields data : list (string * json).
Variable timeout seen : Z.

Hypothesis some_chunk : js ≠ [].
Hypothesis all_chunks : worker_stream task_id w0 = Text <$> js.
Hypothesis list_kept : keeps_list (stream_key task_id) (todo w0).
Hypothesis one_result : ∀ t,
  seen_at w0 t (result_key task_id) = None
  ∨ seen_at w0 t (result_key task_id) = Some (RString (Text (JObj fields))).
Hypothesis result_after_chunks : ∀ t,
  seen_at w0 t (result_key task_id) ≠ None →
  seen_at w0 (t - Z.of_nat (length js)) (stream_key task_id)
  = Some (RList (Text <$> js)).
Hypothesis result_seen : seen_at w0 seen (result_key task_id) ≠ None.
Hypothesis in_time : seen + 50 ≤ now w0 + 1000 * timeout.
Hypothesis some_time : 0 < timeout.
Hypothesis no_error : truthy (default JNull (assoc "error" fields)) = false.
Hypothesis has_data : assoc "data" fields = Some (JObj data).
Hypothesis stop_true : assoc "stop" data = Some (JBool true).

Lemma seen_stream t :
  match seen_at w0 t (stream_key task_id) with
  | None => True
  | Some (RString _) => False
  | Some (RList items) =>
      items = Text <$> take (length items) js
      ∧ (length items ≤ length js)%nat
  end.
Proof.
  destruct (seen_at w0 t (stream_key task_id)) as [[r|items]|] eqn:E; trivial.
  - apply seen_string_no_stream in E; trivial. rewrite all_chunks in E.
    destruct js; [now apply some_chunk|discriminate].
  - destruct (seen_list_prefix _ _ _ _ list_kept E) as (more & Hmore).
    rewrite all_chunks in Hmore.
    assert (Hlen : (length items ≤ length js)%nat).
    { apply (f_equal length) in Hmore.
      rewrite length_fmap, length_app in Hmore. lia. }
    split; [|exact Hlen].
    rewrite fmap_take, Hmore, take_app_length. reflexivity.
Qed.

Lemma stream_length_grows t t' :
  t ≤ t' →
  (stream_length task_id w0 t ≤ stream_length task_id w0 t')%nat.
Proof.
  intros Ht. unfold stream_length.
  destruct (seen_at w0 t (stream_key task_id)) as [[r|items]|] eqn:E;
    try lia.
  destruct (seen_list_grows _ _ _ _ _ list_kept Ht E) as (more & ->).
  rewrite length_app. lia.
Qed.

Lemma stream_length_le t : (stream_length task_id w0 t ≤ length js)%nat.
Proof.
  unfold stream_length. pose proof (seen_stream t) as H.
  destruct (seen_at w0 t (stream_key task_id)) as [[r|items]|]; try lia.
Qed.

Lemma all_chunks_before_result t t' :
  seen_at w0 t (result_key task_id) ≠ None →
  t - Z.of_nat (length js) ≤ t' →
  stream_length task_id w0 t' = length js.
Proof.
  intros Hr Ht. apply result_after_chunks in Hr.
  pose proof (stream_length_grows _ _ Ht) as Hle.
  pose proof (stream_length_le t') as Hge.
  unfold stream_length at 1 in Hle. rewrite Hr, length_fmap in Hle. lia.
Qed.

Lemma result_not_yet t :
  seen_at w0 t (result_key task_id) = None → t < seen.
Proof.
  intros Hnone. destruct (Z.lt_ge_cases t seen) as [|Hge]; trivial.
  destruct (seen_at_stays w0 seen t (result_key task_id) Hge) as [v Hv].
  - destruct (seen_at w0 seen (result_key task_id)); [eauto|].
    now destruct result_seen.
  - congruence.
Qed.

Lemma drain_streaming st w :
  streaming task_id w0 js st w →
  ∃ st' fs,
    drain task_id st w = (Returns st', streamed fs (settle w))
    ∧ (length fs ≤ length js)%nat
    ∧ sent w ++ fs = imap Chunk (take (last_chunk_count st') js)
    ∧ last_chunk_count st' = stream_length task_id w0 (now w)
    ∧ ((0 < last_chunk_count st')%nat → chunks_sent st' = true).
Proof.
  intros (_ & V & S & P & F & _).
  rewrite drain_run, <- seen_at_now, V by reflexivity.
  pose proof (seen_stream (now w)) as Hseen.
  unfold stream_length in *.
  destruct (seen_at w0 (now w) (stream_key task_id)) as [[r|items]|];
    [contradiction| |].
  - destruct Hseen as [Hitems Hlen]. unfold drained.
    remember (length items) as m eqn:Hm.
    destruct (Nat.ltb_spec (last_chunk_count st) m) as [Hlt|Hge];
      cbn [fst snd].
    + eexists _, _. split; [reflexivity|].
      rewrite Hitems, <- fmap_drop, chunk_frames_texts.
      cbn [last_chunk_count chunks_sent].
      repeat split; trivial.
      * rewrite length_imap, length_drop, length_take. lia.
      * rewrite S. apply imap_take_drop; lia.
      * intros _. rewrite any_sent_imap; [apply orb_true_r|].
        intros Hnil. apply (f_equal length) in Hnil.
        rewrite length_drop, length_take in Hnil. cbn in Hnil. lia.
    + exists st, []. rewrite app_nil_r. repeat split; trivial; cbn; lia.
  - exists st, []. rewrite streamed_nil, app_nil_r.
    repeat split; trivial; cbn; lia.
Qed.

Lemma poll_streaming st w :
  streaming task_id w0 js st w →
  match poll task_id st w with
  | (Returns (Continue st'), w') =>
      streaming task_id w0 js st' w' ∧ now w + 50 ≤ now w'
  | (Returns Return, w') =>
      sent w' = imap Chunk js ++ [FinalStop (final_chunk data)]
      ∧ broker w' !! result_key task_id = None
      ∧ broker w' !! stream_key task_id = None
  | (Raises _, _) | (Unfinished, _) => False
  end.
Proof.
  intros Hinv.
  destruct (drain_streaming st w Hinv) as (st' & fs & Hd & Hlen & Hs & Hl & Hf).
  destruct Hinv as (N & V & _ & _ & _ & _).
  rewrite poll_run, Hd, seen_after_streaming, V by lia.
  destruct (one_result (now w + Z.of_nat (length fs))) as [Hr|Hr]; rewrite Hr.
  - split; [|cbn; rewrite now_settle; lia].
    repeat split; cbn; rewrite ?now_settle, ?sent_settle; trivial; try lia.
    + intros t key Ht.
      rewrite seen_at_slept by (cbn; rewrite now_settle; lia).
      rewrite seen_at_streamed by lia. apply V. lia.
    + rewrite Hl. apply stream_length_grows. lia.
    + right. rewrite <- Hr. f_equal. lia.
  - assert (Hall : last_chunk_count st' = length js).
    { rewrite Hl. apply (all_chunks_before_result (now w + Z.of_nat (length fs)));
        [congruence|lia]. }
    assert (Hflag : chunks_sent st' = true).
    { apply Hf. rewrite Hall. destruct js; [now destruct some_chunk|cbn; lia]. }
    unfold verdict; cbn. rewrite no_error, has_data, Hflag. cbn.
    rewrite stop_true. cbn.
    destruct (closed_deleted task_id [FinalStop (final_chunk data)]
                (settle (streamed fs (settle w)))) as [D1 D2].
    repeat split; trivial.
    cbn. rewrite sent_settle. cbn. rewrite sent_settle, Hs, Hall, firstn_all.
    reflexivity.
Qed.

Lemma stream_loop_streaming : ∀ fuel st w,
  streaming task_id w0 js st w →
  1000 * timeout - (now w - now w0) ≤ 50 * Z.of_nat fuel →
  ∃ w', stream_loop (S fuel) task_id (now w0) timeout st w = (Returns tt, w')
        ∧ sent w' = imap Chunk js ++ [FinalStop (final_chunk data)]
        ∧ broker w' !! result_key task_id = None
        ∧ broker w' !! stream_key task_id = None.
Proof.
  induction fuel as [|fuel IH]; intros st w Hinv Hfuel;
    rewrite stream_loop_unfold;
    (assert (Hin : now w - now w0 < 1000 * timeout)
      by (destruct Hinv as (_ & _ & _ & _ & _ & [E|E]);
          [lia|apply result_not_yet in E; lia]));
    (destruct (Z.ltb_spec (now w - now w0) (1000 * timeout)); [|lia]);
    pose proof (poll_streaming st w Hinv) as Hp;
    destruct (poll task_id st w) as [[[st'|]|e|] w1]; try contradiction.
  - lia.
  - now exists w1.
  - destruct Hp as [Hinv1 Hnow]. apply IH; trivial. lia.
  - now exists w1.
Qed.

End Streaming.

(** A schedule on which nothing is lost.  The worker appends N >= 1
    well-formed chunks to the stream list of a job and writes one result,
    without error and with [stop] true in its data; the result is in the
    broker no sooner than N ms after the N-th chunk and no later than 50 ms
    before the timeout of the relay.  Then the relay yields N + 1 frames,
    the N chunks in the order in which they were appended and then a final
    frame with empty content and [stop] true, deletes both keys and ends. *)
Lemma relay_streams_all_chunks task_id w js fields data seen :
  sent w = [] →
  js ≠ [] →
  worker_stream task_id w = Text <$> js →
  keeps_list (stream_key task_id) (todo w) →
  (∀ t, seen_at w t (result_key task_id) = None
        ∨ seen_at w t (result_key task_id)
          = Some (RString (Text (JObj fields)))) →
  (∀ t, seen_at w t (result_key task_id) ≠ None →
        seen_at w (t - Z.of_nat (length js)) (stream_key task_id)
        = Some (RList (Text <$> js))) →
  seen_at w seen (result_key task_id) ≠ None →
  seen + 50 ≤ now w + 300000 →
  truthy (default JNull (assoc "error" fields)) = false →
  assoc "data" fields = Some (JObj data) →
  assoc "stop" data = Some (JBool true) →
  ∃ w', stream_completion_response task_id w = (Returns tt, w')
        ∧ sent w' = imap Chunk js ++ [FinalStop (final_chunk data)]
        ∧ length (sent w') = (length js + 1)%nat
        ∧ broker w' !! result_key task_id = None
        ∧ broker w' !! stream_key task_id = None.
Proof.
  intros Hsent Hjs Hall Hk Hone Hgap Hseen Htime Herr Hdata Hstop.
  unfold stream_completion_response, stream_with_timeout. run.
  replace (Z.to_nat (20 * 300) + 1)%nat with (S (Z.to_nat (20 * 300)))
    by lia.
  destruct (stream_loop_streaming task_id w js fields data 300 seen
              Hjs Hall Hk Hone Hgap Hseen ltac:(lia) ltac:(lia)
              Herr Hdata Hstop (Z.to_nat (20 * 300))
              {| chunks_sent := false; last_chunk_count := 0 |} w)
    as (w' & R & S & D1 & D2); [|lia|].
  - unfold streaming. cbn. rewrite Hsent.
    split_and!; trivial; try lia; now left.
  - exists w'. split_and!; trivial.
    rewrite S, length_app, length_imap. reflexivity.
Qed.

Lemma relay_streams_all_chunks_witness :
  ∃ w', stream_completion_response "abc123"
          (fresh ∅ 0 (abc123_script 10 70 130))
        = (Returns tt, w')
        ∧ sent w' = imap Chunk [chunk "Hel"; chunk "lo"]
                    ++ [FinalStop (final_chunk [("stop", JBool true);
                                                ("slot_id", JNum 2)])]
        ∧ length (sent w') = (length [chunk "Hel"; chunk "lo"] + 1)%nat
        ∧ broker w' !! result_key "abc123" = None
        ∧ broker w' !! stream_key "abc123" = None.
Proof.
  apply (relay_streams_all_chunks "abc123"
           (fresh ∅ 0 (abc123_script 10 70 130)) [chunk "Hel"; chunk "lo"]
           [("data", JObj [("stop", JBool true); ("slot_id", JNum 2)])]
           [("stop", JBool true); ("slot_id", JNum 2)] 130).
  - reflexivity.
  - discriminate.
  - vm_compute. reflexivity.
  - repeat constructor; discriminate.
  - intros t. unfold seen_at.
    cbn [fresh broker todo abc123_script catch_up].
    repeat (match goal with
            | |- context [(?a <=? t)] => destruct (Z.leb_spec a t)
            end; cbn [catch_up]);
      vm_compute; auto.
  - intros t. unfold seen_at.
    cbn [fresh broker todo abc123_script catch_up].
    repeat (match goal with
            | |- context [(?a <=? t)] => destruct (Z.leb_spec a t)
            end; cbn [catch_up]);
      try (intros Hr; exfalso; apply Hr; vm_compute; reflexivity).
    intros _. change (Z.of_nat (length [chunk "Hel"; chunk "lo"])) with 2.
    destruct (Z.leb_spec 10 (t - 2)); [|lia]. cbn [catch_up].
    destruct (Z.leb_spec 70 (t - 2)); [|lia]. cbn [catch_up].
    destruct (Z.leb_spec 130 (t - 2)); vm_compute; reflexivity.
  - vm_compute. discriminate.
  - cbn; lia.
  - reflexivity.
  - reflexivity.
  - reflexivity.
Defined.

(** C1: the code at a failing input.  Job [abc123] of the specification:
    the worker appends its two chunks and then writes the result, with
    [stop] true.  The first chunk is in the list when the relay starts; the
    second chunk and, after it, the result are written one millisecond
    later, while the relay pauses after passing on the first chunk
    (line 259).  The relay has read the length of the list before that
    (line 242) and reads the result key after it (line 267): it yields two
    frames, not three, the first chunk and the final frame, and deletes
    the stream list with the second chunk in it, which is never passed
    on. *)
Theorem relay_drops_racing_chunk :
  let w := fresh ∅ 0 (abc123_script 0 1 1) in
  worker_stream "abc123" w = [Text (chunk "Hel"); Text (chunk "lo")]
  ∧ seen_at w 1 (stream_key "abc123")
    = Some (RList [Text (chunk "Hel"); Text (chunk "lo")])
  ∧ seen_at w 1 (result_key "abc123") = Some (RString abc123_result)
  ∧ frames (stream_completion_response "abc123") w
    = [Chunk 0 (chunk "Hel");
       FinalStop (final_chunk [("stop", JBool true); ("slot_id", JNum 2)])]
  ∧ broker (stream_completion_response "abc123" w).2 !! stream_key "abc123"
    = None.
Proof. intros w. split_and!; vm_compute; reflexivity. Qed.

(** ** Authentication *)

#[local] Arguments Ascii.eqb : simpl never.

Lemma str_split_cons sep s : ∃ piece pieces, str_split sep s = piece :: pieces.
Proof.
  induction s as [|c rest (piece & pieces & IH)]; cbn; [eauto|].
  destruct (Ascii.eqb c sep); [eauto|]. rewrite IH. eauto.
Qed.

Lemma str_split_free sep piece :
  occurs sep piece = false → str_split sep piece = [piece].
Proof.
  induction piece as [|c rest IH]; cbn; trivial.
  destruct (Ascii.eqb c sep); [discriminate|]. cbn. intros H.
  now rewrite IH.
Qed.

Lemma str_split_append sep piece s :
  occurs sep piece = false →
  str_split sep (piece +:+ String sep s) = piece :: str_split sep s.
Proof.
  induction piece as [|c rest IH]; cbn [occurs].
  - intros _. change ("" +:+ String sep s) with (String sep s).
    cbn [str_split]. now rewrite Ascii.eqb_refl.
  - change (String c rest +:+ String sep s)
      with (String c (rest +:+ String sep s)).
    cbn [str_split]. destruct (Ascii.eqb c sep); [discriminate|]. cbn.
    intros H. now rewrite IH.
Qed.

(** Splitting what was joined gives the pieces back. *)
Lemma str_split_join sep pieces :
  pieces ≠ [] → Forall (fun piece => occurs sep piece = false) pieces →
  str_split sep (str_join sep pieces) = pieces.
Proof.
  intros Hne Hfree. induction Hfree as [|piece rest Hp Hrest IH];
    [contradiction|].
  destruct rest as [|piece' rest].
  - now apply str_split_free.
  - change (str_join sep (piece :: piece' :: rest))
      with (piece +:+ String sep (str_join sep (piece' :: rest))).
    rewrite str_split_append by exact Hp. now rewrite IH.
Qed.

Lemma str_split_pieces sep s :
  Forall (fun piece => occurs sep piece = false) (str_split sep s).
Proof.
  induction s as [|c rest IH]; cbn; [repeat constructor|].
  destruct (Ascii.eqb c sep) eqn:E; [now constructor|].
  destruct (str_split sep rest) as [|piece pieces]; [repeat constructor; cbn; now rewrite E|].
  inversion IH; subst. constructor; trivial. cbn. now rewrite E.
Qed.

Lemma VALID_TOKENS_empty api_tokens :
  VALID_TOKENS api_tokens = ∅ ↔ api_tokens = None ∨ api_tokens = Some "".
Proof.
  destruct api_tokens as [[|c s]|]; [cbn; tauto| |cbn; tauto].
  unfold VALID_TOKENS.
  destruct (str_split_cons ","%char (String c s)) as (piece & pieces & E).
  rewrite E. split; [|intros [|]; discriminate].
  intros H. assert (Hin : piece ∈ (∅ : gset string)); [|set_solver].
  rewrite <- H. set_solver.
Qed.

(** X1.  When [API_TOKENS] is not set, or is set to the empty string, every
    request is refused with status 500, "Authentication not properly
    configured", whatever token it presents; with any other value of
    [API_TOKENS] no request is refused that way. *)
Theorem verify_token_unconfigured api_tokens token :
  verify_token (VALID_TOKENS api_tokens) token = inl not_configured
  ↔ api_tokens = None ∨ api_tokens = Some "".
Proof.
  rewrite <- VALID_TOKENS_empty. unfold verify_token.
  destruct (decide (VALID_TOKENS api_tokens = ∅)) as [E|E]; [tauto|].
  split; [|contradiction].
  destruct (decide (token ∈ VALID_TOKENS api_tokens)); discriminate.
Qed.

(** X2.  When [API_TOKENS] is a list of tokens joined by commas, none of
    the tokens containing a comma, a request is accepted exactly when the
    token it presents is one of the list; it is then handed that token
    back, and is refused with status 401 otherwise. *)
Theorem verify_token_accepts_listed tokens token :
  Forall (fun t => occurs "," t = false) tokens →
  str_join "," tokens ≠ "" →
  verify_token (VALID_TOKENS (Some (str_join "," tokens))) token
  = if decide (token ∈ tokens) then inr token else inl invalid_token.
Proof.
  intros Hfree Hne.
  assert (Hl : tokens ≠ []) by (intros ->; now apply Hne).
  assert (HV : VALID_TOKENS (Some (str_join "," tokens)) = list_to_set tokens).
  { unfold VALID_TOKENS. destruct (str_join "," tokens) eqn:E; [contradiction|].
    rewrite <- E. now rewrite str_split_join. }
  rewrite HV. unfold verify_token.
  destruct (decide (list_to_set tokens = (∅ : gset string))) as [E|_].
  - destruct tokens as [|t rest]; [contradiction|].
    assert (Hin : t ∈ (list_to_set (t :: rest) : gset string))
      by (apply elem_of_list_to_set; constructor).
    rewrite E in Hin. now apply not_elem_of_empty in Hin.
  - destruct (decide (token ∈ (list_to_set tokens : gset string))) as [Hin|Hin];
      rewrite elem_of_list_to_set in Hin;
      destruct (decide (token ∈ tokens)); trivial; contradiction.
Qed.

Lemma verify_token_accepts_listed_witness :
  verify_token (VALID_TOKENS (Some (str_join "," ["alpha"; "beta"]))) "beta"
  = if decide ("beta" ∈ ["alpha"; "beta"]) then inr "beta"
    else inl invalid_token.
Proof.
  apply (verify_token_accepts_listed ["alpha"; "beta"] "beta").
  - repeat constructor.
  - discriminate.
Defined.

(** X3.  A token that contains a comma is never accepted, whatever
    [API_TOKENS] is: the tokens are what stands between the commas. *)
Theorem verify_token_rejects_comma api_tokens token :
  occurs "," token = true →
  ∃ e, verify_token (VALID_TOKENS api_tokens) token = inl e.
Proof.
  intros Hc. unfold verify_token.
  destruct (decide (VALID_TOKENS api_tokens = ∅)); [eauto|].
  destruct (decide (token ∈ VALID_TOKENS api_tokens)) as [Hin|]; [|eauto].
  exfalso. destruct api_tokens as [[|c s]|]; cbn in Hin; try set_solver.
  unfold VALID_TOKENS in Hin. rewrite elem_of_list_to_set in Hin.
  pose proof (str_split_pieces ","%char (String c s)) as Hp.
  rewrite Forall_forall in Hp. apply Hp in Hin. congruence.
Qed.

Lemma verify_token_rejects_comma_witness :
  ∃ e, verify_token (VALID_TOKENS (Some "alpha,beta")) "alpha,beta" = inl e.
Proof.
  apply (verify_token_rejects_comma (Some "alpha,beta") "alpha,beta").
  reflexivity.
Defined.

(** ** The waiter, whatever the broker holds *)

(** What a write does to a key depends on that key only. *)
Lemma perform_local a b b' k :
  b !! k = b' !! k → perform a b !! k = perform a b' !! k.
Proof.
  intros H. destruct (decide (target a = k)) as [E|E].
  - destruct a as [k' r|k' r]; cbn in *; subst k'.
    + unfold redis_rpush. rewrite <- H.
      destruct (b !! k) as [[?|?]|] eqn:Hb; rewrite ?lookup_insert_eq;
        congruence.
    + unfold redis_set. now rewrite !lookup_insert_eq.
  - now rewrite !perform_other.
Qed.

Lemma perform_all_local acts k : ∀ b b',
  b !! k = b' !! k → perform_all acts b !! k = perform_all acts b' !! k.
Proof.
  induction acts as [|p rest IH]; intros b b' H; cbn; trivial.
  now apply IH, perform_local.
Qed.

Lemma only_their_writes_but_all keys w w' :
  only_their_writes w w' → only_their_writes_but keys w w'.
Proof. intros (done & T & B). exists done. split; [exact T|]. now rewrite B. Qed.

Lemma only_their_writes_but_trans keys w1 w2 w3 :
  only_their_writes_but keys w1 w2 → only_their_writes_but keys w2 w3 →
  only_their_writes_but keys w1 w3.
Proof.
  intros (d1 & T1 & B1) (d2 & T2 & B2). exists (d1 ++ d2). split.
  - now rewrite T1, T2, app_assoc.
  - intros k Hk. rewrite perform_all_app, (B2 k Hk).
    apply perform_all_local. now apply B1.
Qed.

Lemma only_their_writes_slept d w : only_their_writes w (slept d w).
Proof. apply only_their_writes_settle. Qed.

Lemma wait_loop_skip task_id start timeout fuel w :
  now w - start < 1000 * timeout →
  no_result (broker (settle w) !! result_key task_id) →
  wait_loop (S fuel) task_id start timeout w =
  wait_loop fuel task_id start timeout (slept 100 w).
Proof.
  intros Hin Hb. rewrite wait_loop_unfold.
  destruct (Z.ltb_spec (now w - start) (1000 * timeout)); [|lia].
  now destruct Hb as [-> | ->].
Qed.

Lemma wait_loop_skips task_id start timeout : ∀ (k fuel : nat) w,
  now w - start + 100 * Z.of_nat k ≤ 1000 * timeout →
  (∀ i : nat, (i < k)%nat →
     no_result (seen_at w (now w + 100 * Z.of_nat i) (result_key task_id))) →
  ∃ w', wait_loop (k + fuel) task_id start timeout w
        = wait_loop fuel task_id start timeout w'
        ∧ now w' = now w + 100 * Z.of_nat k
        ∧ sent w' = sent w
        ∧ only_their_writes w w'
        ∧ ∀ t key, now w' ≤ t → seen_at w' t key = seen_at w t key.
Proof.
  induction k as [|k IH]; intros fuel w Hin Hnone.
  - exists w. repeat split; trivial; [lia|apply only_their_writes_refl].
  - pose proof (Hnone 0%nat ltac:(lia)) as Hr.
    rewrite Z.mul_0_r, Z.add_0_r, seen_at_now in Hr.
    cbn [Nat.add]. rewrite wait_loop_skip by (trivial; lia).
    destruct (IH fuel (slept 100 w)) as (w' & R & T & O & W & V); cbn; try lia.
    + intros i Hi. rewrite seen_at_slept by lia.
      replace (now w + 100 + 100 * Z.of_nat i)
        with (now w + 100 * Z.of_nat (S i)) by lia.
      apply Hnone. lia.
    + exists w'. cbn in T. repeat split; trivial; try lia.
      * eapply only_their_writes_trans; [|exact W]. apply only_their_writes_slept.
      * intros t key Ht. rewrite V by exact Ht. apply seen_at_slept. lia.
Qed.

Lemma wait_loop_bounds task_id start timeout : ∀ fuel w,
  1000 * timeout - (now w - start) ≤ 100 * Z.of_nat fuel →
  now w - start < Z.max 0 (1000 * timeout) + 100 →
  ∃ o w', wait_loop (S fuel) task_id start timeout w = (o, w')
          ∧ o ≠ Unfinished
          ∧ now w ≤ now w'
          ∧ now w' - start < Z.max 0 (1000 * timeout) + 100
          ∧ sent w' = sent w
          ∧ only_their_writes_but [result_key task_id] w w'.
Proof.
  assert (Hsettle : ∀ w, only_their_writes_but [result_key task_id] w (settle w))
    by (intros w; apply only_their_writes_but_all, only_their_writes_settle).
  induction fuel as [|fuel IH]; intros w Hfuel Hlt; rewrite wait_loop_unfold;
    (destruct (Z.ltb_spec (now w - start) (1000 * timeout)) as [Hin|Hout];
     [|eexists _, w; split_and!; trivial; try lia; try discriminate;
       apply only_their_writes_but_all, only_their_writes_refl]); [lia|].
  assert (Hgo : ∃ o w', wait_loop (S fuel) task_id start timeout (slept 100 w)
                        = (o, w')
          ∧ o ≠ Unfinished
          ∧ now w ≤ now w'
          ∧ now w' - start < Z.max 0 (1000 * timeout) + 100
          ∧ sent w' = sent w
          ∧ only_their_writes_but [result_key task_id] w w').
  { destruct (IH (slept 100 w)) as (o & w' & R & Ho & T1 & T2 & S & W);
      cbn; try lia.
    exists o, w'. cbn in T1. split_and!; trivial; try lia.
    eapply only_their_writes_but_trans; [|exact W].
    apply only_their_writes_but_all, only_their_writes_slept. }
  destruct (broker (settle w) !! result_key task_id) as [[[|j|msg]|items]|];
    trivial;
    eexists _, _; (split; [reflexivity|]); cbn;
    rewrite ?now_settle, ?sent_settle; split_and!; trivial;
    try lia; try discriminate; try apply Hsettle.
  destruct (Hsettle w) as (done & T & B). exists done. split; [exact T|].
  intros k Hk. cbn. rewrite lookup_delete_ne; [now apply B|].
  intros <-. apply Hk. constructor.
Qed.

Lemma wait_for_result_skips task_id timeout (k : nat) w :
  100 * Z.of_nat k ≤ 1000 * timeout →
  (∀ i : nat, (i < k)%nat →
     no_result (seen_at w (now w + 100 * Z.of_nat i) (result_key task_id))) →
  ∃ w', wait_for_result task_id timeout w
        = wait_loop (S (Z.to_nat (10 * timeout) - k)) task_id (now w) timeout w'
        ∧ now w' = now w + 100 * Z.of_nat k
        ∧ sent w' = sent w
        ∧ only_their_writes w w'
        ∧ ∀ t key, now w' ≤ t → seen_at w' t key = seen_at w t key.
Proof.
  intros Hk Hnone. unfold wait_for_result. run.
  replace (Z.to_nat (10 * timeout) + 1)%nat
    with (k + S (Z.to_nat (10 * timeout) - k))%nat by lia.
  apply wait_loop_skips; trivial. lia.
Qed.

Lemma wait_for_result_found task_id timeout j (k : nat) w :
  100 * Z.of_nat k < 1000 * timeout →
  (∀ i : nat, (i < k)%nat →
     no_result (seen_at w (now w + 100 * Z.of_nat i) (result_key task_id))) →
  seen_at w (now w + 100 * Z.of_nat k) (result_key task_id)
  = Some (RString (Text j)) →
  ∃ w', wait_for_result task_id timeout w = (Returns j, w')
        ∧ now w' = now w + 100 * Z.of_nat k
        ∧ broker w' !! result_key task_id = None.
Proof.
  intros Hk Hnone Hsome.
  destruct (wait_for_result_skips task_id timeout k w)
    as (w' & R & T & _ & _ & V); trivial; [lia|].
  rewrite <- T, <- V, seen_at_now in Hsome by reflexivity.
  rewrite R, (wait_loop_hit _ _ _ _ _ j) by (trivial; lia).
  eexists. split; [reflexivity|]. cbn. split; [exact T|].
  apply lookup_delete_eq.
Qed.

Lemma wait_for_result_gives_up task_id timeout w :
  0 ≤ timeout →
  (∀ i : nat, Z.of_nat i < 10 * timeout →
     no_result (seen_at w (now w + 100 * Z.of_nat i) (result_key task_id))) →
  ∃ w', wait_for_result task_id timeout w = (Returns timeout_result, w')
        ∧ now w' = now w + 1000 * timeout
        ∧ sent w' = sent w
        ∧ only_their_writes w w'.
Proof.
  intros Ht Hnone.
  destruct (wait_for_result_skips task_id timeout (Z.to_nat (10 * timeout)) w)
    as (w' & R & T & S & W & _); [lia| |].
  - intros i Hi. apply Hnone. lia.
  - rewrite R, wait_loop_unfold.
    destruct (Z.ltb_spec (now w' - now w) (1000 * timeout)); [lia|].
    exists w'. split_and!; trivial. lia.
Qed.

Lemma wait_for_result_chokes task_id timeout msg (k : nat) w :
  100 * Z.of_nat k < 1000 * timeout →
  (∀ i : nat, (i < k)%nat →
     no_result (seen_at w (now w + 100 * Z.of_nat i) (result_key task_id))) →
  seen_at w (now w + 100 * Z.of_nat k) (result_key task_id)
  = Some (RString (Junk msg)) →
  ∃ w', wait_for_result task_id timeout w = (Raises (JSONDecodeError msg), w')
        ∧ now w' = now w + 100 * Z.of_nat k
        ∧ sent w' = sent w
        ∧ broker w' !! result_key task_id = Some (RString (Junk msg)).
Proof.
  intros Hk Hnone Hjunk.
  destruct (wait_for_result_skips task_id timeout k w)
    as (w' & R & T & S & _ & V); trivial; [lia|].
  rewrite <- T, <- V, seen_at_now in Hjunk by reflexivity.
  rewrite R, wait_loop_unfold, Hjunk.
  destruct (Z.ltb_spec (now w' - now w) (1000 * timeout)); [|lia].
  exists (settle w'). now rewrite now_settle, sent_settle.
Qed.

(** X4.  Whatever the broker holds and whatever is written to it,
    [wait_for_result] ends, with a value or an exception, and it ends less
    than 100 ms after its timeout has gone by (at once when the timeout is
    not positive). *)
Theorem wait_for_result_duration task_id timeout w :
  ∃ o w', wait_for_result task_id timeout w = (o, w')
          ∧ o ≠ Unfinished
          ∧ now w ≤ now w' < now w + Z.max 0 (1000 * timeout) + 100.
Proof.
  unfold wait_for_result. run.
  replace (Z.to_nat (10 * timeout) + 1)%nat with (S (Z.to_nat (10 * timeout)))
    by lia.
  destruct (wait_loop_bounds task_id (now w) timeout (Z.to_nat (10 * timeout)) w)
    as (o & w' & R & Ho & T1 & T2 & _); try lia.
  exists o, w'. split_and!; trivial. lia.
Qed.

(** X5.  [wait_for_result] touches one key of the broker, the result key
    of its job: every other key is, when the call ends, as the writes of
    the other clients have left it.  The call yields no frame. *)
Theorem wait_for_result_footprint task_id timeout w :
  ∃ o w', wait_for_result task_id timeout w = (o, w')
          ∧ only_their_writes_but [result_key task_id] w w'
          ∧ sent w' = sent w.
Proof.
  unfold wait_for_result. run.
  replace (Z.to_nat (10 * timeout) + 1)%nat with (S (Z.to_nat (10 * timeout)))
    by lia.
  destruct (wait_loop_bounds task_id (now w) timeout (Z.to_nat (10 * timeout)) w)
    as (o & w' & R & _ & _ & _ & S & W); try lia.
  now exists o, w'.
Qed.

(** X6.  An empty string in the result key counts as no result.  When
    every poll of [wait_for_result] finds the key missing or holding the
    empty string, the call returns the request-timeout result exactly
    [timeout] seconds after it began, and it has deleted nothing. *)
Theorem wait_for_result_ignores_empty task_id timeout w :
  0 ≤ timeout →
  (∀ i : nat, Z.of_nat i < 10 * timeout →
     no_result (seen_at w (now w + 100 * Z.of_nat i) (result_key task_id))) →
  ∃ w', wait_for_result task_id timeout w = (Returns timeout_result, w')
        ∧ now w' = now w + 1000 * timeout
        ∧ only_their_writes w w'.
Proof.
  intros Ht Hnone.
  destruct (wait_for_result_gives_up task_id timeout w Ht Hnone)
    as (w' & R & T & _ & W).
  now exists w'.
Qed.

Lemma wait_for_result_ignores_empty_witness :
  ∃ w', wait_for_result "empty" 1
          (fresh {[ result_key "empty" := RString Blank ]} 0 [])
        = (Returns timeout_result, w')
        ∧ now w' = 0 + 1000 * 1
        ∧ only_their_writes
            (fresh {[ result_key "empty" := RString Blank ]} 0 []) w'.
Proof.
  apply (wait_for_result_ignores_empty "empty" 1
           (fresh {[ result_key "empty" := RString Blank ]} 0 [])).
  - lia.
  - intros i _. right. reflexivity.
Defined.

(** X7.  A result record that does not decode: when a poll of
    [wait_for_result] finds the result key holding a string that
    [json.loads] rejects, the polls before having found nothing, the call
    ends at that poll with the [JSONDecodeError], and the record is left in
    the broker. *)
Theorem wait_for_result_malformed task_id timeout msg (k : nat) w :
  100 * Z.of_nat k < 1000 * timeout →
  (∀ i : nat, (i < k)%nat →
     no_result (seen_at w (now w + 100 * Z.of_nat i) (result_key task_id))) →
  seen_at w (now w + 100 * Z.of_nat k) (result_key task_id)
  = Some (RString (Junk msg)) →
  ∃ w', wait_for_result task_id timeout w = (Raises (JSONDecodeError msg), w')
        ∧ now w' = now w + 100 * Z.of_nat k
        ∧ broker w' !! result_key task_id = Some (RString (Junk msg)).
Proof.
  intros Hk Hnone Hjunk.
  destruct (wait_for_result_chokes task_id timeout msg k w Hk Hnone Hjunk)
    as (w' & R & T & _ & B).
  now exists w'.
Qed.

Lemma wait_for_result_malformed_witness :
  ∃ w', wait_for_result "bad" 30
          (fresh ∅ 0 [(150, SetKey (result_key "bad") (Junk "Expecting value"))])
        = (Raises (JSONDecodeError "Expecting value"), w')
        ∧ now w' = 0 + 100 * Z.of_nat 2
        ∧ broker w' !! result_key "bad" = Some (RString (Junk "Expecting value")).
Proof.
  apply (wait_for_result_malformed "bad" 30 "Expecting value" 2
           (fresh ∅ 0 [(150, SetKey (result_key "bad") (Junk "Expecting value"))])).
  - lia.
  - intros [|[|i]] Hi; [left; reflexivity..|lia].
  - reflexivity.
Defined.

(** ** The relay, whatever the broker holds *)

Lemma only_their_writes_but_same keys w w' :
  broker w' = broker w → todo w' = todo w → only_their_writes_but keys w w'.
Proof. intros B T. exists []. rewrite B, T. now split. Qed.

Lemma only_their_writes_but_settle keys w :
  only_their_writes_but keys w (settle w).
Proof. apply only_their_writes_but_all, only_their_writes_settle. Qed.

Lemma only_their_writes_but_closed task_id fs w :
  only_their_writes_but [result_key task_id; stream_key task_id]
    w (closed task_id fs w).
Proof.
  exists []. split; [reflexivity|]. intros k Hk. cbn.
  rewrite !lookup_delete_ne; trivial; intros <-; apply Hk; repeat constructor.
Qed.

Section Footprint.

Variable task_id : string.
Variable w : world.

#[local] Abbreviation R :=
  (only_their_writes_but [result_key task_id; stream_key task_id] w).

Lemma footprint_same w1 w2 :
  broker w2 = broker w1 → todo w2 = todo w1 → R w1 → R w2.
Proof.
  intros B T H. eapply only_their_writes_but_trans; [exact H|].
  now apply only_their_writes_but_same.
Qed.

Lemma footprint_settle w1 : R w1 → R (settle w1).
Proof.
  intros H. eapply only_their_writes_but_trans; [exact H|].
  apply only_their_writes_but_settle.
Qed.

Lemma footprint_closed fs w1 : R w1 → R (closed task_id fs w1).
Proof.
  intros H. eapply only_their_writes_but_trans; [exact H|].
  apply only_their_writes_but_closed.
Qed.

Lemma footprint_slept d w1 : R w1 → R (slept d w1).
Proof. intros H. apply (footprint_same (settle w1)); trivial. now apply footprint_settle. Qed.

Lemma poll_footprint st w1 : R w1 → R (poll task_id st w1).2.
Proof.
  intros H. rewrite poll_run, drain_run.
  destruct (broker (settle w1) !! stream_key task_id) as [[r|items]|];
    try match goal with
    | |- context [broker (settle ?w2) !! result_key task_id] =>
        destruct (broker (settle w2) !! result_key task_id)
          as [[[|j|msg]|items']|];
        try destruct (verdict _ _)
    end; cbn [snd];
    repeat first
      [ exact H
      | apply footprint_closed
      | apply footprint_slept
      | apply footprint_settle
      | apply (footprint_same (settle _)); [reflexivity..|] ].
Qed.

Lemma stream_loop_footprint start timeout : ∀ fuel st w1,
  R w1 → R (stream_loop fuel task_id start timeout st w1).2.
Proof.
  induction fuel as [|fuel IH]; intros st w1 H; [exact H|].
  rewrite stream_loop_unfold.
  destruct (now w1 - start <? 1000 * timeout);
    [|now apply (footprint_same w1)].
  pose proof (poll_footprint st w1 H) as Hp.
  destruct (poll task_id st w1) as [[[st'|]|e|] w2]; trivial.
  now apply IH.
Qed.

End Footprint.

(** X8.  The relay for a job touches two keys of the broker, the result
    key and the stream key of that job: every other key (the keys of the
    other jobs, the task queue) is, when the relay ends, as the writes of
    the other clients have left it. *)
Theorem relay_footprint task_id w :
  ∃ w', stream_completion_response task_id w = (Returns tt, w')
        ∧ only_their_writes_but [result_key task_id; stream_key task_id] w w'.
Proof.
  destruct (stream_completion_response_finishes task_id w) as (w' & E).
  exists w'. split; [exact E|].
  unfold stream_completion_response, stream_with_timeout in E.
  change (stream_loop (Z.to_nat (20 * 300) + 1) task_id (now w) 300
            {| chunks_sent := false; last_chunk_count := 0 |} w
          = (Returns tt, w')) in E.
  apply (f_equal snd) in E. cbn [snd] in E. rewrite <- E.
  apply stream_loop_footprint.
  apply only_their_writes_but_all, only_their_writes_refl.
Qed.

Lemma verdict_silent flag r : verdict flag r = inr [] → flag = true.
Proof.
  unfold verdict.
  destruct (json_loads r) as [|result]; [discriminate|].
  destruct (dict_get result "error" JNull) as [|error]; [discriminate|].
  destruct (truthy error); [discriminate|].
  destruct (dict_get result "data" (JObj [])) as [|data]; [discriminate|].
  destruct flag; [trivial|discriminate].
Qed.

Lemma drained_flag st items :
  chunks_sent (drained st items).1
  = chunks_sent st || any_sent (drained st items).2.
Proof.
  unfold drained. destruct (last_chunk_count st <? length items)%nat; cbn;
    [trivial|now rewrite orb_false_r].
Qed.

(** The three ways a pass of the relay can go: it finds no result, sleeps
    and goes on; it finds a result, yields what [verdict] says and deletes
    the keys of the job; or it meets an exception and yields it.  Before
    that it has yielded the new chunks [fs]. *)
Lemma poll_outcome task_id st w :
  ∃ st1 fs,
    chunks_sent st1 = chunks_sent st || any_sent fs
    ∧ (poll task_id st w
       = (Returns (Continue st1), slept 50 (streamed fs (settle w)))
       ∨ (∃ tail,
            poll task_id st w
            = (Returns Return,
               closed task_id tail (settle (streamed fs (settle w))))
            ∧ (tail = [] → chunks_sent st1 = true)
            ∧ (length tail ≤ 1)%nat)
       ∨ (∃ e,
            poll task_id st w
            = (Returns Return, failed e (settle (streamed fs (settle w)))))).
Proof.
  assert (Hgo : ∀ st1 fs,
    chunks_sent st1 = chunks_sent st || any_sent fs →
    drain task_id st w = (Returns st1, streamed fs (settle w)) →
    ∃ st1 fs,
    chunks_sent st1 = chunks_sent st || any_sent fs
    ∧ (poll task_id st w
       = (Returns (Continue st1), slept 50 (streamed fs (settle w)))
       ∨ (∃ tail,
            poll task_id st w
            = (Returns Return,
               closed task_id tail (settle (streamed fs (settle w))))
            ∧ (tail = [] → chunks_sent st1 = true)
            ∧ (length tail ≤ 1)%nat)
       ∨ (∃ e,
            poll task_id st w
            = (Returns Return, failed e (settle (streamed fs (settle w))))))).
  { intros st1 fs Hflag Hd. exists st1, fs. split; [exact Hflag|].
    rewrite poll_run, Hd.
    destruct (broker (settle (streamed fs (settle w))) !! result_key task_id)
      as [[[|j|msg]|items]|]; eauto;
      (destruct (verdict (chunks_sent st1) _) as [e|tail] eqn:V; [eauto|]);
      right; left; exists tail; (split; [reflexivity|]);
      (split; [intros ->; now apply verdict_silent in V|]);
      apply verdict_tail in V as [->|(f & -> & _)]; cbn; lia. }
  pose proof (drain_run task_id st w) as Hd.
  destruct (broker (settle w) !! stream_key task_id) as [[r|items]|].
  - exists st, []. split; [now rewrite orb_false_r|]. right. right.
    exists wrongtype. rewrite poll_run, Hd, streamed_nil, settle_again.
    reflexivity.
  - apply (Hgo _ _ (drained_flag st items) Hd).
  - apply (Hgo st []); [now rewrite orb_false_r|now rewrite streamed_nil].
Qed.

Lemma any_sent_length fs : any_sent fs = true → (0 < length fs)%nat.
Proof. destruct fs; [discriminate|cbn; lia]. Qed.

Lemma poll_progress task_id st w :
  match poll task_id st w with
  | (Returns (Continue st'), w') =>
      now w' = now w + 50 + (frame_count w' - frame_count w)
      ∧ frame_count w ≤ frame_count w'
      ∧ (chunks_sent st' = true →
         chunks_sent st = true ∨ frame_count w < frame_count w')
  | (Returns Return, w') =>
      now w ≤ now w' ≤ now w + (frame_count w' - frame_count w)
      ∧ (chunks_sent st = true ∨ frame_count w < frame_count w')
  | (Raises _, _) | (Unfinished, _) => False
  end.
Proof.
  destruct (poll_outcome task_id st w)
    as (st1 & fs & Hflag & [-> | [(tail & -> & Hsilent & Hlen) | (e & ->)]]);
    unfold frame_count; cbn; rewrite ?now_settle, ?sent_settle; cbn;
    rewrite ?sent_settle, ?now_settle, ?length_app.
  - split_and!; try lia. intros H1. rewrite H1 in Hflag. symmetry in Hflag.
    apply orb_true_iff in Hflag as [H|H]; [now left|right].
    apply any_sent_length in H. lia.
  - split; [lia|].
    destruct tail as [|f tail]; [|right; cbn; lia].
    rewrite Hsilent in Hflag by reflexivity. symmetry in Hflag.
    apply orb_true_iff in Hflag as [H|H]; [now left|right].
    apply any_sent_length in H. lia.
  - split; [cbn; lia|]. right. cbn. lia.
Qed.

Lemma stream_loop_answers task_id start timeout base : ∀ fuel st w,
  1000 * timeout - (now w - start) ≤ 50 * Z.of_nat fuel →
  base ≤ frame_count w →
  (chunks_sent st = true → base < frame_count w) →
  now w - start < Z.max 0 (1000 * timeout) + 50 + (frame_count w - base) →
  ∃ w', stream_loop (S fuel) task_id start timeout st w = (Returns tt, w')
        ∧ base < frame_count w'
        ∧ now w ≤ now w'
        ∧ now w' - start
          < Z.max 0 (1000 * timeout) + 50 + (frame_count w' - base).
Proof.
  assert (Hout : ∀ w, frame_count (timed_out w) = frame_count w + 1).
  { intros w. unfold frame_count, timed_out. cbn. rewrite length_app. cbn. lia. }
  induction fuel as [|fuel IH]; intros st w Hfuel Hbase Hflag Htime;
    rewrite stream_loop_unfold;
    (destruct (Z.ltb_spec (now w - start) (1000 * timeout)) as [Hin|Hge];
     [|exists (timed_out w); rewrite Hout; cbn; split_and!; trivial; lia]);
    [lia|].
  pose proof (poll_progress task_id st w) as Hp.
  destruct (poll task_id st w) as [[[st'|]|e|] w1]; try contradiction.
  - destruct Hp as (T & N & F).
    destruct (IH st' w1) as (w' & R & B & T1 & T2); try lia.
    + intros H. destruct (F H) as [H'|H']; [apply Hflag in H'|]; lia.
    + exists w'. split_and!; trivial; lia.
  - destruct Hp as (T & F). exists w1. split_and!; trivial; try lia.
    destruct F as [H|H]; [apply Hflag in H|]; lia.
Qed.

(** X9.  Whatever the broker holds and whatever is written to it, the
    relay ends, and it ends by returning, never with an exception; it has
    then yielded at least one frame; and it has run for less than 300.05
    seconds and one millisecond for each frame it yielded. *)
Theorem relay_always_answers task_id w :
  ∃ w', stream_completion_response task_id w = (Returns tt, w')
        ∧ frame_count w < frame_count w'
        ∧ now w ≤ now w'
          < now w + 300050 + (frame_count w' - frame_count w).
Proof.
  unfold stream_completion_response, stream_with_timeout. run.
  replace (Z.to_nat (20 * 300) + 1)%nat with (S (Z.to_nat (20 * 300)))
    by lia.
  destruct (stream_loop_answers task_id (now w) 300 (frame_count w)
              (Z.to_nat (20 * 300))
              {| chunks_sent := false; last_chunk_count := 0 |} w)
    as (w' & R & B & T1 & T2); cbn; try lia.
  exists w'. split_and!; trivial. lia.
Qed.

(** ** No element of the stream list is skipped *)

Lemma chunk_frames_app l1 : ∀ index l2,
  chunk_frames index (l1 ++ l2)
  = chunk_frames index l1 ++ chunk_frames (index + length l1) l2.
Proof.
  induction l1 as [|c rest IH]; intros index l2; cbn.
  - now rewrite Nat.add_0_r.
  - rewrite IH. replace (S index + length rest)%nat
      with (index + S (length rest))%nat by lia.
    now destruct (json_loads c).
Qed.

Section Prefix.

Variable task_id : string.
Variable L : list raw.

Lemma relayed_prefix_settle st w :
  relayed_prefix task_id L st w → relayed_prefix task_id L st (settle w).
Proof.
  intros (Hs & Hw & Hk). repeat split.
  - exact Hs.
  - now rewrite worker_stream_settle.
  - now apply keeps_list_settle.
Qed.

Lemma drain_relays_prefix st w :
  relayed_prefix task_id L st w →
  match drain task_id st w with
  | (Returns st', w') => relayed_prefix task_id L st' w'
  | (Raises _, w') => sent w' = sent w
  | (Unfinished, _) => False
  end.
Proof.
  intros Hp. apply relayed_prefix_settle in Hp. rewrite drain_run.
  destruct (broker (settle w) !! stream_key task_id) as [[r|items]|] eqn:E;
    trivial.
  destruct Hp as (Hs & Hw & Hk). unfold drained.
  destruct (Nat.ltb_spec (last_chunk_count st) (length items)) as [Hlt|Hge];
    cbn [fst snd]; [|rewrite streamed_nil; now repeat split].
  repeat split; trivial. cbn [last_chunk_count sent streamed].
  destruct (stream_list_prefix _ _ _ Hk E) as (more & Hmore).
  rewrite Hs, <- Hw, Hmore, take_app_length, take_app_le by lia.
  rewrite <- (take_drop (last_chunk_count st) items) at 3.
  rewrite chunk_frames_app, length_take. cbn.
  now replace (last_chunk_count st `min` length items)%nat
    with (last_chunk_count st) by lia.
Qed.

Lemma poll_relays_prefix st w :
  relayed_prefix task_id L st w →
  match poll task_id st w with
  | (Returns (Continue st'), w') => relayed_prefix task_id L st' w'
  | (Returns Return, w') =>
      ∃ n tail, sent w' = chunk_frames 0 (take n L) ++ tail
                ∧ (tail = [] ∨ ∃ f, tail = [f] ∧ is_chunk f = false)
  | (Raises _, _) | (Unfinished, _) => False
  end.
Proof.
  intros Hp. pose proof (drain_relays_prefix st w Hp) as Hd.
  rewrite poll_run.
  destruct (drain task_id st w) as [[st'|e|] w1]; [| |contradiction].
  - pose proof (relayed_prefix_settle _ _ Hd) as Hgo.
    destruct Hd as (Hs & _ & _).
    assert (Hfail : ∀ e,
      ∃ n tail, sent (failed e (settle w1)) = chunk_frames 0 (take n L) ++ tail
                ∧ (tail = [] ∨ ∃ f, tail = [f] ∧ is_chunk f = false)).
    { intros e. exists (last_chunk_count st'), [StreamingError (streaming_error e)].
      cbn. rewrite sent_settle, Hs. eauto. }
    destruct (broker (settle w1) !! result_key task_id)
      as [[[|j|msg]|items]|]; trivial;
      (destruct (verdict (chunks_sent st') _) as [e|fs] eqn:V; [apply Hfail|]);
      exists (last_chunk_count st'), fs; cbn; rewrite sent_settle, Hs;
      (split; [reflexivity|]); eapply verdict_tail; exact V.
  - destruct Hp as (Hs & _ & _).
    exists (last_chunk_count st), [StreamingError (streaming_error e)].
    cbn. rewrite Hd, Hs. eauto.
Qed.

Lemma stream_loop_relays_prefix start timeout : ∀ fuel st w,
  relayed_prefix task_id L st w →
  ∀ w', stream_loop fuel task_id start timeout st w = (Returns tt, w') →
  ∃ n tail, sent w' = chunk_frames 0 (take n L) ++ tail
            ∧ (tail = [] ∨ ∃ f, tail = [f] ∧ is_chunk f = false).
Proof.
  induction fuel as [|fuel IH]; intros st w Hp w' E; [discriminate E|].
  rewrite stream_loop_unfold in E.
  destruct (now w - start <? 1000 * timeout).
  - pose proof (poll_relays_prefix st w Hp) as Hpoll.
    destruct (poll task_id st w) as [[[st'|]|e|] w1]; try contradiction.
    + now apply (IH st' w1).
    + now injection E as <-.
  - injection E as <-. destruct Hp as (Hs & _ & _).
    exists (last_chunk_count st), [TimedOut timeout_result].
    cbn. rewrite Hs. eauto.
Qed.

End Prefix.

(** X10.  As long as no client replaces the stream list of the job by a
    string, the relay skips no element of the list: the frames it has
    yielded when it ends are the elements of the first [n] positions of
    the list that decode, each tagged with its position, for some [n],
    followed by at most one frame that is not a chunk. *)
Theorem relay_skips_no_chunk task_id w :
  sent w = [] →
  keeps_list (stream_key task_id) (todo w) →
  ∃ w' n tail,
    stream_completion_response task_id w = (Returns tt, w')
    ∧ sent w' = chunk_frames 0 (take n (worker_stream task_id w)) ++ tail
    ∧ (tail = [] ∨ ∃ f, tail = [f] ∧ is_chunk f = false).
Proof.
  intros Hsent Hk.
  destruct (stream_completion_response_finishes task_id w) as (w' & E).
  destruct (stream_loop_relays_prefix task_id (worker_stream task_id w)
              (now w) 300 (Z.to_nat (20 * 300) + 1)
              {| chunks_sent := false; last_chunk_count := 0 |} w)
    with (w' := w') as (n & tail & S & T).
  - now repeat split.
  - exact E.
  - now exists w', n, tail.
Qed.

Lemma relay_skips_no_chunk_witness :
  ∃ w' n tail,
    stream_completion_response "abc123" (fresh ∅ 0 (abc123_script 0 1 1))
    = (Returns tt, w')
    ∧ sent w'
      = chunk_frames 0
          (take n (worker_stream "abc123" (fresh ∅ 0 (abc123_script 0 1 1))))
        ++ tail
    ∧ (tail = [] ∨ ∃ f, tail = [f] ∧ is_chunk f = false).
Proof.
  apply (relay_skips_no_chunk "abc123" (fresh ∅ 0 (abc123_script 0 1 1))).
  - reflexivity.
  - repeat constructor; discriminate.
Defined.

(** ** More on what the relay does with the result it finds *)

(** X11.  In a pass in which the result key is found to hold a result
    with an error, the relay yields one frame carrying that error and
    nothing else of the result, deletes the result key and the stream key,
    and ends; this is so whether or not chunks have been passed on, and no
    final frame is sent. *)
Theorem relay_reports_worker_error
    task_id start timeout fuel st w st' w' fields error :
  now w - start < 1000 * timeout →
  drain task_id st w = (Returns st', w') →
  broker (settle w') !! result_key task_id
  = Some (RString (Text (JObj fields))) →
  assoc "error" fields = Some error →
  truthy error = true →
  ∃ w'', stream_loop (S fuel) task_id start timeout st w = (Returns tt, w'')
         ∧ sent w'' = sent w' ++ [WorkerError (JObj [("error", error)])]
         ∧ now w'' = now w'
         ∧ broker w'' !! result_key task_id = None
         ∧ broker w'' !! stream_key task_id = None.
Proof.
  intros Hin Hd Hr Herr Htrue.
  rewrite (stream_loop_result _ _ _ _ _ _ _ _ (Text (JObj fields)) Hin Hd);
    trivial.
  unfold verdict; cbn. rewrite Herr. cbn. rewrite Htrue.
  eexists. split; [reflexivity|].
  destruct (closed_deleted task_id [WorkerError (JObj [("error", error)])]
              (settle w')) as [D1 D2].
  repeat split; trivial; cbn; now rewrite sent_settle.
Qed.

Lemma relay_reports_worker_error_witness :
  ∃ w'', stream_loop 1 "abc123" 0 300 start_locals (fresh failed_job 0 [])
         = (Returns tt, w'')
         ∧ sent w'' = [Chunk 0 (chunk "Hel")]
                      ++ [WorkerError (JObj [("error", JStr "boom")])]
         ∧ now w'' = 1
         ∧ broker w'' !! result_key "abc123" = None
         ∧ broker w'' !! stream_key "abc123" = None.
Proof.
  apply (relay_reports_worker_error "abc123" 0 300 0 start_locals
           (fresh failed_job 0 [])
           {| chunks_sent := true; last_chunk_count := 1 |}
           {| broker := failed_job; now := 1; todo := [];
              sent := [Chunk 0 (chunk "Hel")] |}
           [("error", JStr "boom"); ("data", JObj [("stop", JBool true)])]
           (JStr "boom")).
  - cbn; lia.
  - reflexivity.
  - reflexivity.
  - reflexivity.
  - reflexivity.
Defined.

(** X12.  In a pass in which no chunk has been passed on so far and the
    result key is found to hold a result without error, the relay yields
    one frame, the data of the result as it is, or the empty object when
    the result has no data; it deletes both keys and ends. *)
Theorem relay_complete_payload
    task_id start timeout fuel st w st' w' fields :
  now w - start < 1000 * timeout →
  drain task_id st w = (Returns st', w') →
  chunks_sent st' = false →
  broker (settle w') !! result_key task_id
  = Some (RString (Text (JObj fields))) →
  truthy (default JNull (assoc "error" fields)) = false →
  ∃ w'', stream_loop (S fuel) task_id start timeout st w = (Returns tt, w'')
         ∧ sent w'' =
           sent w' ++ [Complete (default (JObj []) (assoc "data" fields))]
         ∧ broker w'' !! result_key task_id = None
         ∧ broker w'' !! stream_key task_id = None.
Proof.
  intros Hin Hd Hsent Hr Herr.
  rewrite (stream_loop_result _ _ _ _ _ _ _ _ (Text (JObj fields)) Hin Hd);
    trivial.
  unfold verdict; cbn. rewrite Herr, Hsent.
  eexists. split; [reflexivity|].
  destruct (closed_deleted task_id
              [Complete (default (JObj []) (assoc "data" fields))]
              (settle w')) as [D1 D2].
  repeat split; trivial; cbn; now rewrite sent_settle.
Qed.

Lemma relay_complete_payload_witness :
  ∃ w'', stream_loop 1 "xyz" 0 300 start_locals
           (fresh {[ result_key "xyz" := RString (Text (JObj [("id", JStr "xyz")])) ]}
              0 [])
         = (Returns tt, w'')
         ∧ sent w'' =
           [] ++ [Complete (default (JObj []) (assoc "data" [("id", JStr "xyz")]))]
         ∧ broker w'' !! result_key "xyz" = None
         ∧ broker w'' !! stream_key "xyz" = None.
Proof.
  apply (relay_complete_payload "xyz" 0 300 0 start_locals
           (fresh {[ result_key "xyz" := RString (Text (JObj [("id", JStr "xyz")])) ]}
              0 [])
           start_locals
           (fresh {[ result_key "xyz" := RString (Text (JObj [("id", JStr "xyz")])) ]}
              0 [])
           [("id", JStr "xyz")]).
  - cbn; lia.
  - reflexivity.
  - reflexivity.
  - reflexivity.
  - reflexivity.
Defined.

(** X13.  A result record that decodes to something other than an object
    (a list, a string, a number, [null]): the relay yields one frame, a
    streaming error that says the value has no attribute [get], and ends
    without deleting a key. *)
Theorem relay_result_not_object task_id start timeout fuel st w st' w' j :
  now w - start < 1000 * timeout →
  drain task_id st w = (Returns st', w') →
  broker (settle w') !! result_key task_id = Some (RString (Text j)) →
  (∀ fields, j ≠ JObj fields) →
  ∃ w'', stream_loop (S fuel) task_id start timeout st w = (Returns tt, w'')
         ∧ sent w'' =
           sent w' ++
           [StreamingError
              (JObj [("error",
                      JStr ("Streaming error: " +:+ "'" +:+ type_name j
                            +:+ "' object has no attribute 'get'"))])]
         ∧ broker w'' = broker (settle w').
Proof.
  intros Hin Hd Hr Hj.
  rewrite (stream_loop_result _ _ _ _ _ _ _ _ (Text j) Hin Hd); trivial.
  unfold verdict; cbn.
  destruct j as [|b|z|s|items|fields]; try (now destruct (Hj fields));
    cbn; (eexists; split; [reflexivity|]); cbn; now rewrite sent_settle.
Qed.

Lemma relay_result_not_object_witness :
  ∃ w'', stream_loop 1 "xyz" 0 300 start_locals
           (fresh list_result 0 [])
         = (Returns tt, w'')
         ∧ sent w'' =
           [] ++
           [StreamingError
              (JObj [("error",
                      JStr ("Streaming error: " +:+ "'" +:+ type_name (JArr [])
                            +:+ "' object has no attribute 'get'"))])]
         ∧ broker w'' = list_result.
Proof.
  apply (relay_result_not_object "xyz" 0 300 0 start_locals
           (fresh list_result 0 [])
           start_locals
           (fresh list_result 0 [])
           (JArr [])).
  - cbn; lia.
  - reflexivity.
  - reflexivity.
  - discriminate.
Defined.

(** X14.  After chunks have been passed on, a result without error whose
    data is not an object (a string, say) makes the relay fail where it
    looks for the stop flag: it yields a streaming error that says the
    data has no attribute [get], and ends without deleting a key. *)
Theorem relay_data_not_object
    task_id start timeout fuel st w st' w' fields data :
  now w - start < 1000 * timeout →
  drain task_id st w = (Returns st', w') →
  chunks_sent st' = true →
  broker (settle w') !! result_key task_id
  = Some (RString (Text (JObj fields))) →
  truthy (default JNull (assoc "error" fields)) = false →
  assoc "data" fields = Some data →
  (∀ items, data ≠ JObj items) →
  ∃ w'', stream_loop (S fuel) task_id start timeout st w = (Returns tt, w'')
         ∧ sent w'' =
           sent w' ++
           [StreamingError
              (JObj [("error",
                      JStr ("Streaming error: " +:+ "'" +:+ type_name data
                            +:+ "' object has no attribute 'get'"))])]
         ∧ broker w'' = broker (settle w').
Proof.
  intros Hin Hd Hsent Hr Herr Hdata Hshape.
  rewrite (stream_loop_result _ _ _ _ _ _ _ _ (Text (JObj fields)) Hin Hd);
    trivial.
  unfold verdict; cbn. rewrite Herr, Hdata, Hsent. cbn.
  destruct data as [|b|z|s|items|items]; try (now destruct (Hshape items));
    cbn; (eexists; split; [reflexivity|]); cbn; now rewrite sent_settle.
Qed.

Lemma relay_data_not_object_witness :
  ∃ w'', stream_loop 1 "abc123" 0 300 start_locals (fresh text_job 0 [])
         = (Returns tt, w'')
         ∧ sent w'' =
           [Chunk 0 (chunk "Hel")] ++
           [StreamingError
              (JObj [("error",
                      JStr ("Streaming error: " +:+ "'" +:+ type_name (JStr "Hello")
                            +:+ "' object has no attribute 'get'"))])]
         ∧ broker w'' = text_job.
Proof.
  apply (relay_data_not_object "abc123" 0 300 0 start_locals
           (fresh text_job 0 [])
           {| chunks_sent := true; last_chunk_count := 1 |}
           {| broker := text_job; now := 1; todo := [];
              sent := [Chunk 0 (chunk "Hel")] |}
           [("data", JStr "Hello")] (JStr "Hello")).
  - cbn; lia.
  - reflexivity.
  - reflexivity.
  - reflexivity.
  - reflexivity.
  - reflexivity.
  - discriminate.
Defined.

(** ** The endpoints *)

Lemma queue_not_result_key task_id : "gpu_tasks" ≠ result_key task_id.
Proof. unfold result_key. simpl. discriminate. Qed.

Lemma enqueue_run task_id endpoint data w items :
  queue_is items (broker (settle w) !! "gpu_tasks") →
  enqueue task_id endpoint data w
  = (Returns tt, queued (job_record task_id endpoint data (now w)) items w).
Proof.
  intros Hq. unfold enqueue. run. unfold redis_write, redis_lpush.
  now destruct Hq as [-> | [-> ->]].
Qed.

Lemma enqueue_fails task_id endpoint data w r :
  broker (settle w) !! "gpu_tasks" = Some (RString r) →
  enqueue task_id endpoint data w = (Raises wrongtype, settle w).
Proof.
  intros Hq. unfold enqueue. run. unfold redis_write, redis_lpush.
  now rewrite Hq.
Qed.

Lemma enqueue_cases w :
  (∃ items, queue_is items (broker (settle w) !! "gpu_tasks"))
  ∨ ∃ r, broker (settle w) !! "gpu_tasks" = Some (RString r).
Proof.
  unfold queue_is.
  destruct (broker (settle w) !! "gpu_tasks") as [[r|items]|]; eauto.
Qed.

Lemma catch_up_local t k todo : ∀ b b',
  b !! k = b' !! k →
  (catch_up t b todo).1 !! k = (catch_up t b' todo).1 !! k
  ∧ (catch_up t b todo).2 = (catch_up t b' todo).2.
Proof.
  induction todo as [|[due a] rest IH]; intros b b' H; cbn; [now split|].
  destruct (due <=? t); [|now split]. now apply IH, perform_local.
Qed.

Lemma seen_at_queued r items w t k :
  k ≠ "gpu_tasks" → now w ≤ t →
  seen_at (queued r items w) t k = seen_at w t k.
Proof.
  intros Hk Ht. rewrite <- (seen_at_settle w t k Ht).
  unfold seen_at, queued. cbn [broker todo].
  apply catch_up_local. now rewrite lookup_insert_ne.
Qed.

Arguments enqueue : simpl never.
Arguments wait_for_result : simpl never.
Arguments await_data : simpl never.

Section EndpointFacts.

Variable http_exception_str : Z → json → string.

#[local] Abbreviation http_500 := (http_exception http_exception_str 500).

(** What an endpoint makes of the result the waiter hands it
    (lines 165-170). *)
Lemma await_data_run task_id w :
  await_data http_exception_str task_id w =
  match wait_for_result task_id 30 w with
  | (Returns result, w') =>
      (match dict_get result "error" JNull with
       | inl e => Raises e
       | inr error =>
           if truthy error then Raises (http_500 error)
           else match dict_get result "data" (JObj []) with
                | inl e => Raises e
                | inr data => Returns data
                end
       end, w')
  | (Raises e, w') => (Raises e, w')
  | (Unfinished, w') => (Unfinished, w')
  end.
Proof.
  unfold await_data. rewrite bind_run.
  destruct (wait_for_result task_id 30 w) as [[result|e|] w']; trivial.
  rewrite bind_run.
  destruct (dict_get result "error" JNull) as [e|error]; trivial. cbn.
  destruct (truthy error); trivial.
  now destruct (dict_get result "data" (JObj [])).
Qed.

(** Lines 343-358, after the job has been pushed. *)
Lemma completion_run task_id request stream w :
  completion http_exception_str task_id request stream w =
  match enqueue task_id "completion" request w with
  | (Returns _, w1) =>
      if stream then (Returns (StreamingResponse task_id), w1)
      else
        match wait_for_result task_id 300 w1 with
        | (Returns result, w2) =>
            (match dict_get result "error" JNull with
             | inl e => Raises (http_500 (JStr (str e)))
             | inr error =>
                 if truthy error
                 then Raises (http_500 (JStr (str (http_500 error))))
                 else match dict_item result "data" with
                      | inl e => Raises (http_500 (JStr (str e)))
                      | inr data => Returns (Body data)
                      end
             end, w2)
        | (Raises e, w2) => (Raises (http_500 (JStr (str e))), w2)
        | (Unfinished, w2) => (Unfinished, w2)
        end
  | (Raises e, w1) => (Raises (http_500 (JStr (str e))), w1)
  | (Unfinished, w1) => (Unfinished, w1)
  end.
Proof.
  unfold completion, try_except. rewrite bind_run.
  destruct (enqueue task_id "completion" request w) as [[[]|e|] w1]; trivial.
  destruct stream; trivial. rewrite bind_run.
  destruct (wait_for_result task_id 300 w1) as [[result|e|] w2]; trivial.
  rewrite bind_run.
  destruct (dict_get result "error" JNull) as [e|error]; trivial. cbn.
  destruct (truthy error); trivial.
  rewrite bind_run. now destruct (dict_item result "data").
Qed.

(** Lines 144-174, 179-209 and 367-397: an endpoint that pushes a job,
    waits for its data and wraps what goes wrong. *)
Lemma try_enqueue_await_run task_id endpoint data (detail_of : exn → json) w :
  try_except
    (enqueue task_id endpoint data ;; await_data http_exception_str task_id)
    (fun e => raise (http_500 (detail_of e))) w =
  match enqueue task_id endpoint data w with
  | (Returns _, w1) =>
      match await_data http_exception_str task_id w1 with
      | (Raises e, w2) => (Raises (http_500 (detail_of e)), w2)
      | r => r
      end
  | (Raises e, w1) => (Raises (http_500 (detail_of e)), w1)
  | (Unfinished, w1) => (Unfinished, w1)
  end.
Proof.
  unfold try_except. rewrite bind_run.
  now destruct (enqueue task_id endpoint data w) as [[[]|e|] w1].
Qed.

Lemma await_data_finishes task_id w :
  (await_data http_exception_str task_id w).1 ≠ Unfinished.
Proof.
  rewrite await_data_run.
  pose proof (wait_for_result_finishes task_id 30 w) as H.
  destruct (wait_for_result task_id 30 w) as [[result|e|] w']; trivial;
    try discriminate. cbn.
  destruct (dict_get result "error" JNull) as [e|error]; [discriminate|].
  destruct (truthy error); [discriminate|].
  now destruct (dict_get result "data" (JObj [])).
Qed.

Lemma enqueue_finishes task_id endpoint data w :
  (enqueue task_id endpoint data w).1 ≠ Unfinished.
Proof.
  destruct (enqueue_cases w) as [(items & H)|(r & H)].
  - now rewrite (enqueue_run _ _ _ _ items).
  - now rewrite (enqueue_fails _ _ _ _ r).
Qed.

Lemma try_enqueue_await_500 task_id endpoint data detail_of w :
  answers_or_500
    (try_except
       (enqueue task_id endpoint data ;; await_data http_exception_str task_id)
       (fun e => raise (http_500 (detail_of e))) w).1.
Proof.
  rewrite try_enqueue_await_run.
  pose proof (enqueue_finishes task_id endpoint data w) as He.
  destruct (enqueue task_id endpoint data w) as [[[]|e|] w1]; cbn in *;
    trivial; [|congruence].
  pose proof (await_data_finishes task_id w1) as Ha.
  destruct (await_data http_exception_str task_id w1) as [[d|e|] w2];
    cbn in *; trivial; congruence.
Qed.

Lemma completion_500 task_id request stream w :
  answers_or_500 (completion http_exception_str task_id request stream w).1.
Proof.
  rewrite completion_run.
  pose proof (enqueue_finishes task_id "completion" request w) as He.
  destruct (enqueue task_id "completion" request w) as [[[]|e|] w1];
    cbn in *; trivial; [|congruence].
  destruct stream; cbn; trivial.
  pose proof (wait_for_result_finishes task_id 300 w1) as Hw.
  destruct (wait_for_result task_id 300 w1) as [[result|e|] w2]; cbn in *;
    trivial; [|congruence].
  destruct (dict_get result "error" JNull) as [e|error]; cbn; trivial.
  destruct (truthy error); cbn; trivial.
  now destruct (dict_item result "data").
Qed.

(** The endpoints of lines 142-209 and 365-397 share their body; what
    differs is the name of the endpoint, the data of the job and the
    detail of the exception. *)
#[local] Abbreviation enqueue_await task_id endpoint data detail_of :=
  (try_except
     (enqueue task_id endpoint data ;; await_data http_exception_str task_id)
     (fun e => raise (http_500 (detail_of e)))).

Lemma spares_perform_all k done rest b :
  spares k (done ++ rest) → perform_all done b !! k = b !! k.
Proof.
  unfold spares. rewrite Forall_app. intros [H _]. revert b.
  induction H as [|p done Hp _ IH]; intros b; [reflexivity|].
  change (perform_all (p :: done) b) with (perform_all done (perform p.2 b)).
  rewrite IH. now apply perform_other.
Qed.

Lemma wait_for_result_keeps task_id timeout k w :
  k ≠ result_key task_id → spares k (todo w) →
  broker (wait_for_result task_id timeout w).2 !! k = broker w !! k.
Proof.
  intros Hk Hs. unfold wait_for_result. run.
  replace (Z.to_nat (10 * timeout) + 1)%nat with (S (Z.to_nat (10 * timeout)))
    by lia.
  destruct (wait_loop_bounds task_id (now w) timeout (Z.to_nat (10 * timeout)) w)
    as (o & w' & -> & _ & _ & _ & _ & done & T & B); try lia.
  cbn [snd]. rewrite B.
  - rewrite T in Hs. now apply (spares_perform_all _ _ (todo w')).
  - intros Hin. apply list_elem_of_singleton in Hin. contradiction.
Qed.

Lemma await_data_world task_id w :
  (await_data http_exception_str task_id w).2
  = (wait_for_result task_id 30 w).2.
Proof.
  rewrite await_data_run.
  now destruct (wait_for_result task_id 30 w) as [[result|e|] w'].
Qed.

Lemma queued_holds r items w :
  broker (queued r items w) !! "gpu_tasks" = Some (RList (r :: items)).
Proof. apply lookup_insert_eq. Qed.

Lemma queued_spares k r items w :
  spares k (todo w) → spares k (todo (queued r items w)).
Proof. intros H. now apply settle_spares. Qed.

Lemma spared_queue items w :
  spares "gpu_tasks" (todo w) →
  queue_is items (broker w !! "gpu_tasks") →
  queue_is items (broker (settle w) !! "gpu_tasks").
Proof. intros Hs Hq. now destruct (settle_spares _ _ Hs) as [-> _]. Qed.

Lemma enqueue_await_queue task_id endpoint data detail_of w items :
  spares "gpu_tasks" (todo w) →
  queue_is items (broker w !! "gpu_tasks") →
  broker (enqueue_await task_id endpoint data detail_of w).2 !! "gpu_tasks"
  = Some (RList (job_record task_id endpoint data (now w) :: items)).
Proof.
  intros Hs Hq. rewrite try_enqueue_await_run.
  rewrite (enqueue_run _ _ _ _ items) by now apply spared_queue.
  set (w1 := queued (job_record task_id endpoint data (now w)) items w).
  transitivity (broker (await_data http_exception_str task_id w1).2
                !! "gpu_tasks").
  { now destruct (await_data http_exception_str task_id w1) as [[d|e|] w2]. }
  rewrite await_data_world, wait_for_result_keeps.
  - apply queued_holds.
  - apply queue_not_result_key.
  - now apply queued_spares.
Qed.

Lemma completion_queue task_id request stream w items :
  spares "gpu_tasks" (todo w) →
  queue_is items (broker w !! "gpu_tasks") →
  broker (completion http_exception_str task_id request stream w).2
  !! "gpu_tasks"
  = Some (RList (job_record task_id "completion" request (now w) :: items)).
Proof.
  intros Hs Hq. rewrite completion_run.
  rewrite (enqueue_run _ _ _ _ items) by now apply spared_queue.
  set (w1 := queued (job_record task_id "completion" request (now w)) items w).
  destruct stream; [apply queued_holds|].
  transitivity (broker (wait_for_result task_id 300 w1).2 !! "gpu_tasks").
  { now destruct (wait_for_result task_id 300 w1) as [[d|e|] w2]. }
  rewrite wait_for_result_keeps.
  - apply queued_holds.
  - apply queue_not_result_key.
  - now apply queued_spares.
Qed.

Lemma queue_holds_list w :
  (∀ r, broker (settle w) !! "gpu_tasks" ≠ Some (RString r)) →
  ∃ items, queue_is items (broker (settle w) !! "gpu_tasks").
Proof.
  intros H. destruct (enqueue_cases w) as [?|(r & Hr)]; [trivial|].
  now destruct (H r).
Qed.

Lemma no_result_queued r items task_id w t :
  now w ≤ t →
  no_result (seen_at w t (result_key task_id)) →
  no_result (seen_at (queued r items w) t (result_key task_id)).
Proof.
  intros Ht H. rewrite seen_at_queued; trivial.
  intros E. now apply (queue_not_result_key task_id).
Qed.

Lemma enqueue_await_returns
    task_id endpoint data detail_of (k : nat) w fields :
  (∀ r, broker (settle w) !! "gpu_tasks" ≠ Some (RString r)) →
  100 * Z.of_nat k < 30000 →
  (∀ i : nat, (i < k)%nat →
     no_result (seen_at w (now w + 100 * Z.of_nat i) (result_key task_id))) →
  seen_at w (now w + 100 * Z.of_nat k) (result_key task_id)
  = Some (RString (Text (JObj fields))) →
  truthy (default JNull (assoc "error" fields)) = false →
  ∃ w', enqueue_await task_id endpoint data detail_of w
        = (Returns (default (JObj []) (assoc "data" fields)), w')
        ∧ now w' = now w + 100 * Z.of_nat k
        ∧ broker w' !! result_key task_id = None.
Proof.
  intros Hq Hk Hnone Hsome Herr.
  destruct (queue_holds_list w Hq) as (items & Hitems).
  rewrite try_enqueue_await_run, (enqueue_run _ _ _ _ items Hitems).
  set (w1 := queued (job_record task_id endpoint data (now w)) items w).
  destruct (wait_for_result_found task_id 30 (JObj fields) k w1)
    as (w' & R & T & D).
  - lia.
  - intros i Hi. change (now w1) with (now w).
    apply no_result_queued; [lia|]. now apply Hnone.
  - change (now w1) with (now w). unfold w1.
    rewrite seen_at_queued; trivial; [|lia].
    intros E. now apply (queue_not_result_key task_id).
  - rewrite await_data_run, R. cbn. rewrite Herr. now exists w'.
Qed.

Lemma enqueue_await_times_out task_id endpoint data detail_of w :
  (∀ r, broker (settle w) !! "gpu_tasks" ≠ Some (RString r)) →
  (∀ i : nat,
     no_result (seen_at w (now w + 100 * Z.of_nat i) (result_key task_id))) →
  ∃ w', enqueue_await task_id endpoint data detail_of w
        = (Raises (http_500 (detail_of (http_500 (JStr "Request timeout")))),
           w')
        ∧ now w' = now w + 30000.
Proof.
  intros Hq Hnone.
  destruct (queue_holds_list w Hq) as (items & Hitems).
  rewrite try_enqueue_await_run, (enqueue_run _ _ _ _ items Hitems).
  set (w1 := queued (job_record task_id endpoint data (now w)) items w).
  destruct (wait_for_result_gives_up task_id 30 w1) as (w' & R & T & _);
    [lia| |].
  - intros i _. change (now w1) with (now w).
    apply no_result_queued; [lia|]. apply Hnone.
  - rewrite await_data_run, R. cbn. exists w'. split; [reflexivity|].
    rewrite T. reflexivity.
Qed.

Lemma enqueue_await_malformed
    task_id endpoint data detail_of msg (k : nat) w :
  (∀ r, broker (settle w) !! "gpu_tasks" ≠ Some (RString r)) →
  100 * Z.of_nat k < 30000 →
  (∀ i : nat, (i < k)%nat →
     no_result (seen_at w (now w + 100 * Z.of_nat i) (result_key task_id))) →
  seen_at w (now w + 100 * Z.of_nat k) (result_key task_id)
  = Some (RString (Junk msg)) →
  ∃ w', enqueue_await task_id endpoint data detail_of w
        = (Raises (http_500 (detail_of (JSONDecodeError msg))), w')
        ∧ broker w' !! result_key task_id = Some (RString (Junk msg)).
Proof.
  intros Hq Hk Hnone Hjunk.
  destruct (queue_holds_list w Hq) as (items & Hitems).
  rewrite try_enqueue_await_run, (enqueue_run _ _ _ _ items Hitems).
  set (w1 := queued (job_record task_id endpoint data (now w)) items w).
  destruct (wait_for_result_chokes task_id 30 msg k w1)
    as (w' & R & _ & _ & B).
  - lia.
  - intros i Hi. change (now w1) with (now w).
    apply no_result_queued; [lia|]. now apply Hnone.
  - change (now w1) with (now w). unfold w1.
    rewrite seen_at_queued; trivial; [|lia].
    intros E. now apply (queue_not_result_key task_id).
  - rewrite await_data_run, R. now exists w'.
Qed.

Lemma dict_get_not_object j k dflt :
  (∀ fields, j ≠ JObj fields) → dict_get j k dflt = inl (no_attribute_get j).
Proof. intros H. destruct j; trivial. now destruct (H fields). Qed.

Lemma enqueue_await_not_object
    task_id endpoint data detail_of j (k : nat) w :
  (∀ r, broker (settle w) !! "gpu_tasks" ≠ Some (RString r)) →
  100 * Z.of_nat k < 30000 →
  (∀ i : nat, (i < k)%nat →
     no_result (seen_at w (now w + 100 * Z.of_nat i) (result_key task_id))) →
  seen_at w (now w + 100 * Z.of_nat k) (result_key task_id)
  = Some (RString (Text j)) →
  (∀ fields, j ≠ JObj fields) →
  ∃ w', enqueue_await task_id endpoint data detail_of w
        = (Raises (http_500 (detail_of (no_attribute_get j))), w')
        ∧ broker w' !! result_key task_id = None.
Proof.
  intros Hq Hk Hnone Hsome Hj.
  destruct (queue_holds_list w Hq) as (items & Hitems).
  rewrite try_enqueue_await_run, (enqueue_run _ _ _ _ items Hitems).
  set (w1 := queued (job_record task_id endpoint data (now w)) items w).
  destruct (wait_for_result_found task_id 30 j k w1) as (w' & R & _ & D).
  - lia.
  - intros i Hi. change (now w1) with (now w).
    apply no_result_queued; [lia|]. now apply Hnone.
  - change (now w1) with (now w). unfold w1.
    rewrite seen_at_queued; trivial; [|lia].
    intros E. now apply (queue_not_result_key task_id).
  - rewrite await_data_run, R, dict_get_not_object by exact Hj. now exists w'.
Qed.

Lemma completion_malformed task_id request msg (k : nat) w :
  (∀ r, broker (settle w) !! "gpu_tasks" ≠ Some (RString r)) →
  100 * Z.of_nat k < 300000 →
  (∀ i : nat, (i < k)%nat →
     no_result (seen_at w (now w + 100 * Z.of_nat i) (result_key task_id))) →
  seen_at w (now w + 100 * Z.of_nat k) (result_key task_id)
  = Some (RString (Junk msg)) →
  ∃ w', completion http_exception_str task_id request false w
        = (Raises (http_500 (JStr msg)), w')
        ∧ broker w' !! result_key task_id = Some (RString (Junk msg)).
Proof.
  intros Hq Hk Hnone Hjunk.
  destruct (queue_holds_list w Hq) as (items & Hitems).
  rewrite completion_run, (enqueue_run _ _ _ _ items Hitems).
  set (w1 := queued (job_record task_id "completion" request (now w)) items w).
  destruct (wait_for_result_chokes task_id 300 msg k w1)
    as (w' & R & _ & _ & B).
  - lia.
  - intros i Hi. change (now w1) with (now w).
    apply no_result_queued; [lia|]. now apply Hnone.
  - change (now w1) with (now w). unfold w1.
    rewrite seen_at_queued; trivial; [|lia].
    intros E. now apply (queue_not_result_key task_id).
  - rewrite R. now exists w'.
Qed.

Lemma completion_not_object task_id request j (k : nat) w :
  (∀ r, broker (settle w) !! "gpu_tasks" ≠ Some (RString r)) →
  100 * Z.of_nat k < 300000 →
  (∀ i : nat, (i < k)%nat →
     no_result (seen_at w (now w + 100 * Z.of_nat i) (result_key task_id))) →
  seen_at w (now w + 100 * Z.of_nat k) (result_key task_id)
  = Some (RString (Text j)) →
  (∀ fields, j ≠ JObj fields) →
  ∃ w', completion http_exception_str task_id request false w
        = (Raises (http_500 (JStr (str (no_attribute_get j)))), w')
        ∧ broker w' !! result_key task_id = None.
Proof.
  intros Hq Hk Hnone Hsome Hj.
  destruct (queue_holds_list w Hq) as (items & Hitems).
  rewrite completion_run, (enqueue_run _ _ _ _ items Hitems).
  set (w1 := queued (job_record task_id "completion" request (now w)) items w).
  destruct (wait_for_result_found task_id 300 j k w1) as (w' & R & _ & D).
  - lia.
  - intros i Hi. change (now w1) with (now w).
    apply no_result_queued; [lia|]. now apply Hnone.
  - change (now w1) with (now w). unfold w1.
    rewrite seen_at_queued; trivial; [|lia].
    intros E. now apply (queue_not_result_key task_id).
  - rewrite R, dict_get_not_object by exact Hj. now exists w'.
Qed.

End EndpointFacts.

(** X15.  Each of the four endpoints either answers or fails with an
    [HTTPException] of status 500, whatever the broker holds and whatever
    the worker writes: no other exception and no other status leaves an
    endpoint, and none of them waits for ever. *)
Theorem endpoints_raise_only_500
    (http_exception_str : Z → json → string) task_id request stream w :
  answers_or_500 (get_template http_exception_str task_id w).1
  ∧ answers_or_500 (tokenize http_exception_str task_id request w).1
  ∧ answers_or_500 (completion http_exception_str task_id request stream w).1
  ∧ answers_or_500 (handle_slots http_exception_str task_id request w).1.
Proof.
  split_and!.
  - apply try_enqueue_await_500.
  - apply try_enqueue_await_500.
  - apply completion_500.
  - apply try_enqueue_await_500.
Qed.

(** X16.  Each endpoint pushes one record on the head of the task queue,
    with the id of the job, the name of the endpoint, the data of the
    request and the time of the call, and does nothing else to the queue:
    when no other client writes to the queue during the call, the queue
    is, when the call ends, the queue as it was with that record before
    it.  For [completion] this is so with and without streaming. *)
Theorem endpoints_enqueue_one_job
    (http_exception_str : Z → json → string) task_id request stream w items :
  spares "gpu_tasks" (todo w) →
  queue_is items (broker w !! "gpu_tasks") →
  broker (get_template http_exception_str task_id w).2 !! "gpu_tasks"
  = Some (RList (job_record task_id "template" (JObj []) (now w) :: items))
  ∧ broker (tokenize http_exception_str task_id request w).2 !! "gpu_tasks"
    = Some (RList (job_record task_id "tokenize" request (now w) :: items))
  ∧ broker (completion http_exception_str task_id request stream w).2
    !! "gpu_tasks"
    = Some (RList (job_record task_id "completion" request (now w) :: items))
  ∧ broker (handle_slots http_exception_str task_id request w).2 !! "gpu_tasks"
    = Some (RList (job_record task_id "slots" request (now w) :: items)).
Proof.
  intros Hs Hq. split_and!.
  - now apply enqueue_await_queue.
  - now apply enqueue_await_queue.
  - now apply completion_queue.
  - now apply enqueue_await_queue.
Qed.

Lemma endpoints_enqueue_one_job_witness :
  let w := fresh {[ "gpu_tasks" := RList [Text (JStr "earlier job")] ]} 7 [] in
  let request := JObj [("content", JStr "hello")] in
  let items := [Text (JStr "earlier job")] in
  broker (get_template detail_text "t1" w).2 !! "gpu_tasks"
  = Some (RList (job_record "t1" "template" (JObj []) (now w) :: items))
  ∧ broker (tokenize detail_text "t1" request w).2 !! "gpu_tasks"
    = Some (RList (job_record "t1" "tokenize" request (now w) :: items))
  ∧ broker (completion detail_text "t1" request true w).2 !! "gpu_tasks"
    = Some (RList (job_record "t1" "completion" request (now w) :: items))
  ∧ broker (handle_slots detail_text "t1" request w).2 !! "gpu_tasks"
    = Some (RList (job_record "t1" "slots" request (now w) :: items)).
Proof.
  intros w request items.
  apply (endpoints_enqueue_one_job detail_text "t1" request true w items).
  - constructor.
  - left. reflexivity.
Defined.

(** X17.  [get_template], [tokenize] and [handle_slots]: when the result
    key of the job is found, at one of the polls of the 30 seconds the
    endpoint waits, to hold a result without error, the endpoint answers
    with the data of that result, or with the empty object when the
    result has no data, and the result key is gone from the broker. *)
Theorem endpoints_return_data
    (http_exception_str : Z → json → string) task_id request (k : nat) w fields :
  (∀ r, broker (settle w) !! "gpu_tasks" ≠ Some (RString r)) →
  100 * Z.of_nat k < 30000 →
  (∀ i : nat, (i < k)%nat →
     no_result (seen_at w (now w + 100 * Z.of_nat i) (result_key task_id))) →
  seen_at w (now w + 100 * Z.of_nat k) (result_key task_id)
  = Some (RString (Text (JObj fields))) →
  truthy (default JNull (assoc "error" fields)) = false →
  ∀ endpoint,
    endpoint ∈ [get_template http_exception_str task_id;
                tokenize http_exception_str task_id request;
                handle_slots http_exception_str task_id request] →
    ∃ w', endpoint w = (Returns (default (JObj []) (assoc "data" fields)), w')
          ∧ now w' = now w + 100 * Z.of_nat k
          ∧ broker w' !! result_key task_id = None.
Proof.
  intros Hq Hk Hnone Hsome Herr endpoint Hin.
  repeat (apply elem_of_cons in Hin as [-> | Hin]);
    [now apply enqueue_await_returns..|].
  now apply elem_of_nil in Hin.
Qed.

Lemma endpoints_return_data_witness :
  ∃ w', tokenize detail_text "t1" (JObj [("content", JStr "hello")])
          (written_at 250 "t1" (JObj [("data", JObj [("tokens", JArr [JNum 15339])])]))
        = (Returns
             (default (JObj [])
                (assoc "data" [("data", JObj [("tokens", JArr [JNum 15339])])])),
           w')
        ∧ now w' = 0 + 100 * Z.of_nat 3
        ∧ broker w' !! result_key "t1" = None.
Proof.
  apply (endpoints_return_data detail_text "t1"
           (JObj [("content", JStr "hello")]) 3
           (written_at 250 "t1" (JObj [("data", JObj [("tokens", JArr [JNum 15339])])]))
           [("data", JObj [("tokens", JArr [JNum 15339])])]).
  - discriminate.
  - lia.
  - intros [|[|[|i]]] Hi; [left; reflexivity..|lia].
  - reflexivity.
  - reflexivity.
  - right. left.
Defined.

(** X18.  [completion] without streaming: when the result key of the job
    is found, at one of the polls of the 300 seconds the endpoint waits,
    to hold a result without error, the endpoint answers with the data of
    that result; when the result has no data it fails with status 500 and
    the detail ['data'], the text of the [KeyError], where the other
    endpoints answer with the empty object.  Either way the result key is
    gone from the broker. *)
Theorem completion_returns_data
    (http_exception_str : Z → json → string) task_id request (k : nat) w fields :
  (∀ r, broker (settle w) !! "gpu_tasks" ≠ Some (RString r)) →
  100 * Z.of_nat k < 300000 →
  (∀ i : nat, (i < k)%nat →
     no_result (seen_at w (now w + 100 * Z.of_nat i) (result_key task_id))) →
  seen_at w (now w + 100 * Z.of_nat k) (result_key task_id)
  = Some (RString (Text (JObj fields))) →
  truthy (default JNull (assoc "error" fields)) = false →
  ∃ w', completion http_exception_str task_id request false w
        = (match assoc "data" fields with
           | Some data => Returns (Body data)
           | None => Raises (http_exception http_exception_str 500
                               (JStr "'data'"))
           end, w')
        ∧ now w' = now w + 100 * Z.of_nat k
        ∧ broker w' !! result_key task_id = None.
Proof.
  intros Hq Hk Hnone Hsome Herr.
  destruct (queue_holds_list w Hq) as (items & Hitems).
  rewrite completion_run, (enqueue_run _ _ _ _ items Hitems).
  set (w1 := queued (job_record task_id "completion" request (now w)) items w).
  destruct (wait_for_result_found task_id 300 (JObj fields) k w1)
    as (w' & R & T & D).
  - lia.
  - intros i Hi. change (now w1) with (now w).
    apply no_result_queued; [lia|]. now apply Hnone.
  - change (now w1) with (now w). unfold w1.
    rewrite seen_at_queued; trivial; [|lia].
    intros E. now apply (queue_not_result_key task_id).
  - rewrite R. cbn. rewrite Herr. exists w'. split_and!; trivial.
    now destruct (assoc "data" fields).
Qed.

Lemma completion_returns_data_witness :
  ∃ w', completion detail_text "t1" (JObj [("prompt", JStr "hello")]) false
          (written_at 250 "t1" (JObj [("id", JStr "t1")]))
        = (match assoc "data" [("id", JStr "t1")] with
           | Some data => Returns (Body data)
           | None => Raises (http_exception detail_text 500 (JStr "'data'"))
           end, w')
        ∧ now w' = 0 + 100 * Z.of_nat 3
        ∧ broker w' !! result_key "t1" = None.
Proof.
  apply (completion_returns_data detail_text "t1"
           (JObj [("prompt", JStr "hello")]) 3
           (written_at 250 "t1" (JObj [("id", JStr "t1")]))
           [("id", JStr "t1")]).
  - discriminate.
  - lia.
  - intros [|[|[|i]]] Hi; [left; reflexivity..|lia].
  - reflexivity.
  - reflexivity.
Defined.

(** X19.  When no poll finds a result, [get_template], [tokenize] and
    [handle_slots] give up 30 seconds after the call and [completion]
    without streaming 300 seconds after it.  Each fails with status 500.
    The detail is the text of the exception the endpoint has raised for
    the timeout and caught itself, after the prefix of the endpoint where
    it has one: for the three endpoints with a prefix it is never the
    plain text "Request timeout", whatever text the framework gives that
    exception; for [completion] it is that text alone. *)
Theorem endpoints_time_out
    (http_exception_str : Z → json → string) task_id request w :
  (∀ r, broker (settle w) !! "gpu_tasks" ≠ Some (RString r)) →
  (∀ i : nat,
     no_result (seen_at w (now w + 100 * Z.of_nat i) (result_key task_id))) →
  (∃ w', get_template http_exception_str task_id w
         = (Raises (http_exception http_exception_str 500
                      (JStr ("Error processing template request: "
                             +:+ http_exception_str 500 (JStr "Request timeout")))),
            w')
         ∧ now w' = now w + 30000)
  ∧ (∃ w', tokenize http_exception_str task_id request w
           = (Raises (http_exception http_exception_str 500
                        (JStr ("Error processing tokenize request: "
                               +:+ http_exception_str 500 (JStr "Request timeout")))),
              w')
           ∧ now w' = now w + 30000)
  ∧ (∃ w', handle_slots http_exception_str task_id request w
           = (Raises (http_exception http_exception_str 500
                        (JStr ("Error in slots: "
                               +:+ http_exception_str 500 (JStr "Request timeout")))),
              w')
           ∧ now w' = now w + 30000)
  ∧ (∃ w', completion http_exception_str task_id request false w
           = (Raises (http_exception http_exception_str 500
                        (JStr (http_exception_str 500 (JStr "Request timeout")))),
              w')
           ∧ now w' = now w + 300000)
  ∧ "Error processing template request: "
    +:+ http_exception_str 500 (JStr "Request timeout") ≠ "Request timeout"
  ∧ "Error processing tokenize request: "
    +:+ http_exception_str 500 (JStr "Request timeout") ≠ "Request timeout"
  ∧ "Error in slots: "
    +:+ http_exception_str 500 (JStr "Request timeout") ≠ "Request timeout".
Proof.
  intros Hq Hnone. split_and!; try discriminate.
  - now apply (enqueue_await_times_out http_exception_str task_id "template"
                 (JObj [])
                 (fun e => JStr ("Error processing template request: " +:+ str e))).
  - now apply (enqueue_await_times_out http_exception_str task_id "tokenize"
                 request
                 (fun e => JStr ("Error processing tokenize request: " +:+ str e))).
  - now apply (enqueue_await_times_out http_exception_str task_id "slots"
                 request (fun e => JStr ("Error in slots: " +:+ str e))).
  - destruct (queue_holds_list w Hq) as (items & Hitems).
    rewrite completion_run, (enqueue_run _ _ _ _ items Hitems).
    set (w1 := queued (job_record task_id "completion" request (now w)) items w).
    destruct (wait_for_result_gives_up task_id 300 w1) as (w' & R & T & _);
      [lia| |].
    + intros i _. change (now w1) with (now w).
      apply no_result_queued; [lia|]. apply Hnone.
    + rewrite R. cbn. exists w'. split; [reflexivity|].
      rewrite T. reflexivity.
Qed.

Lemma endpoints_time_out_witness :
  let w := fresh ∅ 0 [] in
  let request := JObj [("content", JStr "hello")] in
  (∃ w', get_template detail_text "t1" w
         = (Raises (http_exception detail_text 500
                      (JStr ("Error processing template request: "
                             +:+ detail_text 500 (JStr "Request timeout")))),
            w')
         ∧ now w' = now w + 30000)
  ∧ (∃ w', tokenize detail_text "t1" request w
           = (Raises (http_exception detail_text 500
                        (JStr ("Error processing tokenize request: "
                               +:+ detail_text 500 (JStr "Request timeout")))),
              w')
           ∧ now w' = now w + 30000)
  ∧ (∃ w', handle_slots detail_text "t1" request w
           = (Raises (http_exception detail_text 500
                        (JStr ("Error in slots: "
                               +:+ detail_text 500 (JStr "Request timeout")))),
              w')
           ∧ now w' = now w + 30000)
  ∧ (∃ w', completion detail_text "t1" request false w
           = (Raises (http_exception detail_text 500
                        (JStr (detail_text 500 (JStr "Request timeout")))),
              w')
           ∧ now w' = now w + 300000)
  ∧ "Error processing template request: "
    +:+ detail_text 500 (JStr "Request timeout") ≠ "Request timeout"
  ∧ "Error processing tokenize request: "
    +:+ detail_text 500 (JStr "Request timeout") ≠ "Request timeout"
  ∧ "Error in slots: "
    +:+ detail_text 500 (JStr "Request timeout") ≠ "Request timeout".
Proof.
  intros w request.
  apply (endpoints_time_out detail_text "t1" request w).
  - discriminate.
  - intros i. left. reflexivity.
Defined.

(** X20.  A result record that does not decode, on the endpoints: when a
    poll within the wait finds the result key holding a string that
    [json.loads] rejects, each endpoint fails with status 500 and the
    message of the decoder as detail, after the prefix of the endpoint
    where it has one; the record is left in the broker. *)
Theorem endpoints_malformed_result
    (http_exception_str : Z → json → string) task_id request msg (k : nat) w :
  (∀ r, broker (settle w) !! "gpu_tasks" ≠ Some (RString r)) →
  100 * Z.of_nat k < 30000 →
  (∀ i : nat, (i < k)%nat →
     no_result (seen_at w (now w + 100 * Z.of_nat i) (result_key task_id))) →
  seen_at w (now w + 100 * Z.of_nat k) (result_key task_id)
  = Some (RString (Junk msg)) →
  (∃ w', get_template http_exception_str task_id w
         = (Raises (http_exception http_exception_str 500
                      (JStr ("Error processing template request: " +:+ msg))),
            w')
         ∧ broker w' !! result_key task_id = Some (RString (Junk msg)))
  ∧ (∃ w', tokenize http_exception_str task_id request w
           = (Raises (http_exception http_exception_str 500
                        (JStr ("Error processing tokenize request: " +:+ msg))),
              w')
           ∧ broker w' !! result_key task_id = Some (RString (Junk msg)))
  ∧ (∃ w', handle_slots http_exception_str task_id request w
           = (Raises (http_exception http_exception_str 500
                        (JStr ("Error in slots: " +:+ msg))),
              w')
           ∧ broker w' !! result_key task_id = Some (RString (Junk msg)))
  ∧ (∃ w', completion http_exception_str task_id request false w
           = (Raises (http_exception http_exception_str 500 (JStr msg)), w')
           ∧ broker w' !! result_key task_id = Some (RString (Junk msg))).
Proof.
  intros Hq Hk Hnone Hjunk. split_and!.
  - now apply (enqueue_await_malformed http_exception_str task_id "template"
                 (JObj [])
                 (fun e => JStr ("Error processing template request: " +:+ str e))
                 msg k).
  - now apply (enqueue_await_malformed http_exception_str task_id "tokenize"
                 request
                 (fun e => JStr ("Error processing tokenize request: " +:+ str e))
                 msg k).
  - now apply (enqueue_await_malformed http_exception_str task_id "slots"
                 request (fun e => JStr ("Error in slots: " +:+ str e)) msg k).
  - apply (completion_malformed http_exception_str task_id request msg k);
      trivial; lia.
Qed.

Lemma endpoints_malformed_result_witness :
  let w := garbled_at 150 "t1" "Expecting value" in
  let request := JObj [("content", JStr "hello")] in
  let msg := "Expecting value" in
  (∃ w', get_template detail_text "t1" w
         = (Raises (http_exception detail_text 500
                      (JStr ("Error processing template request: " +:+ msg))),
            w')
         ∧ broker w' !! result_key "t1" = Some (RString (Junk msg)))
  ∧ (∃ w', tokenize detail_text "t1" request w
           = (Raises (http_exception detail_text 500
                        (JStr ("Error processing tokenize request: " +:+ msg))),
              w')
           ∧ broker w' !! result_key "t1" = Some (RString (Junk msg)))
  ∧ (∃ w', handle_slots detail_text "t1" request w
           = (Raises (http_exception detail_text 500
                        (JStr ("Error in slots: " +:+ msg))),
              w')
           ∧ broker w' !! result_key "t1" = Some (RString (Junk msg)))
  ∧ (∃ w', completion detail_text "t1" request false w
           = (Raises (http_exception detail_text 500 (JStr msg)), w')
           ∧ broker w' !! result_key "t1" = Some (RString (Junk msg))).
Proof.
  intros w request msg.
  apply (endpoints_malformed_result detail_text "t1" request msg 2 w).
  - discriminate.
  - lia.
  - intros [|[|i]] Hi; [left; reflexivity..|lia].
  - reflexivity.
Defined.

(** X21.  A result record that decodes to something other than an
    object, on the endpoints: each endpoint fails with status 500; the
    detail says that the value has no attribute [get], after the prefix of
    the endpoint where it has one.  The waiter has deleted the result key
    by then. *)
Theorem endpoints_result_not_object
    (http_exception_str : Z → json → string) task_id request j (k : nat) w :
  (∀ r, broker (settle w) !! "gpu_tasks" ≠ Some (RString r)) →
  100 * Z.of_nat k < 30000 →
  (∀ i : nat, (i < k)%nat →
     no_result (seen_at w (now w + 100 * Z.of_nat i) (result_key task_id))) →
  seen_at w (now w + 100 * Z.of_nat k) (result_key task_id)
  = Some (RString (Text j)) →
  (∀ fields, j ≠ JObj fields) →
  let text := "'" +:+ type_name j +:+ "' object has no attribute 'get'" in
  (∃ w', get_template http_exception_str task_id w
         = (Raises (http_exception http_exception_str 500
                      (JStr ("Error processing template request: " +:+ text))),
            w')
         ∧ broker w' !! result_key task_id = None)
  ∧ (∃ w', tokenize http_exception_str task_id request w
           = (Raises (http_exception http_exception_str 500
                        (JStr ("Error processing tokenize request: " +:+ text))),
              w')
           ∧ broker w' !! result_key task_id = None)
  ∧ (∃ w', handle_slots http_exception_str task_id request w
           = (Raises (http_exception http_exception_str 500
                        (JStr ("Error in slots: " +:+ text))),
              w')
           ∧ broker w' !! result_key task_id = None)
  ∧ (∃ w', completion http_exception_str task_id request false w
           = (Raises (http_exception http_exception_str 500 (JStr text)), w')
           ∧ broker w' !! result_key task_id = None).
Proof.
  intros Hq Hk Hnone Hsome Hj text. split_and!.
  - now apply (enqueue_await_not_object http_exception_str task_id "template"
                 (JObj [])
                 (fun e => JStr ("Error processing template request: " +:+ str e))
                 j k).
  - now apply (enqueue_await_not_object http_exception_str task_id "tokenize"
                 request
                 (fun e => JStr ("Error processing tokenize request: " +:+ str e))
                 j k).
  - now apply (enqueue_await_not_object http_exception_str task_id "slots"
                 request (fun e => JStr ("Error in slots: " +:+ str e)) j k).
  - apply (completion_not_object http_exception_str task_id request j k);
      trivial; lia.
Qed.

Lemma endpoints_result_not_object_witness :
  let w := written_at 250 "t1" (JArr []) in
  let request := JObj [("content", JStr "hello")] in
  let text := "'" +:+ type_name (JArr []) +:+ "' object has no attribute 'get'" in
  (∃ w', get_template detail_text "t1" w
         = (Raises (http_exception detail_text 500
                      (JStr ("Error processing template request: " +:+ text))),
            w')
         ∧ broker w' !! result_key "t1" = None)
  ∧ (∃ w', tokenize detail_text "t1" request w
           = (Raises (http_exception detail_text 500
                        (JStr ("Error processing tokenize request: " +:+ text))),
              w')
           ∧ broker w' !! result_key "t1" = None)
  ∧ (∃ w', handle_slots detail_text "t1" request w
           = (Raises (http_exception detail_text 500
                        (JStr ("Error in slots: " +:+ text))),
              w')
           ∧ broker w' !! result_key "t1" = None)
  ∧ (∃ w', completion detail_text "t1" request false w
           = (Raises (http_exception detail_text 500 (JStr text)), w')
           ∧ broker w' !! result_key "t1" = None).
Proof.
  intros w request text.
  apply (endpoints_result_not_object detail_text "t1" request (JArr []) 3 w).
  - discriminate.
  - lia.
  - intros [|[|[|i]]] Hi; [left; reflexivity..|lia].
  - reflexivity.
  - discriminate.
Defined.

(** ** The relay from its first pass to the pass that finds the result *)

Lemma chunk_frames_chunks new_chunks : ∀ index,
  Forall (fun f => is_chunk f = true) (chunk_frames index new_chunks).
Proof.
  induction new_chunks as [|c rest IH]; intros index; cbn; [constructor|].
  destruct (json_loads c); [apply IH|]. constructor; [reflexivity|apply IH].
Qed.

(** Reading the stream list yields chunk frames only, and sets the flag
    when it yields one. *)
Lemma drain_returns task_id st w st' w' :
  drain task_id st w = (Returns st', w') →
  ∃ fs, w' = streamed fs (settle w)
        ∧ chunks_sent st' = chunks_sent st || any_sent fs
        ∧ Forall (fun f => is_chunk f = true) fs.
Proof.
  rewrite drain_run.
  destruct (broker (settle w) !! stream_key task_id) as [[r|items]|];
    [discriminate| |].
  - intros [= <- <-]. eexists. split; [reflexivity|].
    split; [apply drained_flag|].
    unfold drained. destruct (last_chunk_count st <? length items)%nat; cbn;
      [apply chunk_frames_chunks|constructor].
  - intros [= <- <-]. exists []. rewrite streamed_nil, orb_false_r.
    repeat split. constructor.
Qed.

Lemma poll_continues task_id st w st' w' :
  poll task_id st w = (Returns (Continue st'), w') →
  ∃ fs, w' = slept 50 (streamed fs (settle w))
        ∧ chunks_sent st' = chunks_sent st || any_sent fs
        ∧ Forall (fun f => is_chunk f = true) fs.
Proof.
  rewrite poll_run. intros Hp.
  destruct (drain task_id st w) as [[st1|e|] w1] eqn:Hd; try discriminate.
  destruct (drain_returns _ _ _ _ _ Hd) as (fs & -> & Hflag & Hfs).
  exists fs.
  destruct (broker (settle (streamed fs (settle w))) !! result_key task_id)
    as [[[|j|msg]|items]|]; try destruct (verdict _ _); try discriminate;
    injection Hp as <- <-; auto.
Qed.

Lemma any_sent_nil fs : any_sent fs = true → fs ≠ [].
Proof. now destruct fs. Qed.

Lemma not_nil_any_sent fs : fs ≠ [] → any_sent fs = true.
Proof. now destruct fs. Qed.

Section Reaches.

Variable task_id : string.
Variable w : world.
Hypothesis nothing_sent : sent w = [].

(** So far the relay has yielded chunk frames only, and the flag
    [chunks_sent] is set exactly when it has yielded one. *)
Lemma reaches_chunks st w1 :
  relay_reaches task_id w st w1 →
  Forall (fun f => is_chunk f = true) (sent w1)
  ∧ (chunks_sent st = true ↔ sent w1 ≠ []).
Proof.
  induction 1 as [|st w1 st' w1' _ [IHc IHf] _ Hp].
  - rewrite nothing_sent. split; [constructor|]. cbn. split; [discriminate|].
    now intros H.
  - destruct (poll_continues _ _ _ _ _ Hp) as (fs & -> & Hflag & Hfs).
    change (sent (slept 50 (streamed fs (settle w1)))) with (sent w1 ++ fs).
    split.
    + apply Forall_app. now split.
    + rewrite Hflag, orb_true_iff, IHf. split.
      * intros [H|H] E; apply app_eq_nil in E as [E1 E2];
          [contradiction|]. now apply any_sent_nil in H.
      * intros H. destruct fs as [|f fs]; [left|now right].
        now rewrite app_nil_r in H.
Qed.

(** The passes made so far have used up as many turns of the loop, each
    at least 50 ms long. *)
Lemma reaches_run st w1 :
  relay_reaches task_id w st w1 →
  ∃ n : nat,
    50 * Z.of_nat n ≤ now w1 - now w
    ∧ ∀ fuel,
        stream_loop (n + fuel) task_id (now w) 300 start_locals w
        = stream_loop fuel task_id (now w) 300 st w1.
Proof.
  induction 1 as [|st w1 st' w1' _ (n & Hn & IH) Hin Hp].
  - exists 0%nat. split; [lia|reflexivity].
  - exists (S n). pose proof (poll_takes_time task_id st w1) as Ht.
    rewrite Hp in Ht. split; [lia|]. intros fuel.
    replace (S n + fuel)%nat with (n + S fuel)%nat by lia.
    rewrite IH, stream_loop_unfold, Hp.
    now destruct (Z.ltb_spec (now w1 - now w) (1000 * 300)); [|lia].
Qed.

End Reaches.

(** C5.  The relay has yielded at least one chunk, and in the pass it is
    making it finds, after reading the stream list, the result key holding
    a result without error whose data has no [stop] flag or a false one.
    Then the relay yields nothing more: its output is the chunks yielded up
    to there, with no terminal frame of any kind; it deletes the result key
    and the stream key, and it ends in that very pass, without polling
    on until the timeout. *)
Theorem stop_false_ends_silently task_id w st w1 st' w2 fields data :
  sent w = [] →
  relay_reaches task_id w st w1 →
  now w1 - now w < 1000 * 300 →
  drain task_id st w1 = (Returns st', w2) →
  sent w2 ≠ [] →
  broker (settle w2) !! result_key task_id
  = Some (RString (Text (JObj fields))) →
  truthy (default JNull (assoc "error" fields)) = false →
  default (JObj []) (assoc "data" fields) = JObj data →
  truthy (default (JBool false) (assoc "stop" data)) = false →
  ∃ w', stream_completion_response task_id w = (Returns tt, w')
        ∧ sent w' = sent w2
        ∧ Forall (fun f => is_chunk f = true) (sent w')
        ∧ now w' = now w2
        ∧ broker w' !! result_key task_id = None
        ∧ broker w' !! stream_key task_id = None.
Proof.
  intros Hsent Hreach Hin Hd Hsome Hr Herr Hdata Hstop.
  destruct (reaches_chunks task_id w Hsent st w1 Hreach) as [Hc Hf].
  destruct (drain_returns _ _ _ _ _ Hd) as (fs & E & Hflag & Hfs).
  assert (Hall : Forall (fun f => is_chunk f = true) (sent w2)).
  { rewrite E. change (sent (streamed fs (settle w1))) with (sent w1 ++ fs).
    apply Forall_app. now split. }
  assert (Hset : chunks_sent st' = true).
  { rewrite Hflag. apply orb_true_iff.
    destruct fs as [|f fs]; [left|now right].
    apply Hf. rewrite E, streamed_nil, sent_settle in Hsome. exact Hsome. }
  destruct (reaches_run task_id w st w1 Hreach) as (n & Hn & Hrun).
  unfold stream_completion_response, stream_with_timeout. run.
  replace (Z.to_nat (20 * 300) + 1)%nat
    with (n + S (Z.to_nat (20 * 300) - n))%nat by lia.
  rewrite Hrun.
  destruct (silent_pass task_id (now w) 300 (Z.to_nat (20 * 300) - n)
              st w1 st' w2 fields data)
    as (w' & R & S & T & D1 & D2); trivial.
  exists w'. rewrite S. now split_and!.
Qed.

Lemma stop_false_ends_silently_witness :
  ∃ w', stream_completion_response "abc123" unstopped = (Returns tt, w')
        ∧ sent w' = [Chunk 0 (chunk "Hel")]
        ∧ Forall (fun f => is_chunk f = true) (sent w')
        ∧ now w' = 101
        ∧ broker w' !! result_key "abc123" = None
        ∧ broker w' !! stream_key "abc123" = None.
Proof.
  apply (stop_false_ends_silently "abc123" unstopped
           {| chunks_sent := true; last_chunk_count := 1 |}
           (slept 50 (slept 50 (streamed [Chunk 0 (chunk "Hel")] unstopped)))
           {| chunks_sent := true; last_chunk_count := 1 |}
           (settle
              (slept 50 (slept 50 (streamed [Chunk 0 (chunk "Hel")] unstopped))))
           [("data", JObj [("stop", JBool false); ("slot_id", JNum 2)])]
           [("stop", JBool false); ("slot_id", JNum 2)]).
  - reflexivity.
  - apply (reaches_next _ _
             {| chunks_sent := true; last_chunk_count := 1 |}
             (slept 50 (streamed [Chunk 0 (chunk "Hel")] unstopped))).
    + apply (reaches_next _ _ start_locals unstopped).
      * apply reaches_first.
      * vm_compute. reflexivity.
      * vm_compute. reflexivity.
    + vm_compute. reflexivity.
    + vm_compute. reflexivity.
  - vm_compute. reflexivity.
  - vm_compute. reflexivity.
  - vm_compute. discriminate.
  - vm_compute. reflexivity.
  - reflexivity.
  - reflexivity.
  - reflexivity.
Defined.

(** ** The relay when a command fails *)


Arguments Outage.attempt : simpl never.
Arguments Outage.drain : simpl never.
Arguments Outage.finish : simpl never.
Arguments Outage.poll : simpl never.

(** When no command fails, this is the relay of the first part. *)
Lemma drain_no_outage task_id st w :
  Outage.drain no_outage task_id st w = drain task_id st w.
Proof. reflexivity. Qed.

Lemma poll_no_outage task_id st w :
  Outage.poll no_outage task_id st w = poll task_id st w.
Proof. reflexivity. Qed.

Lemma stream_loop_no_outage task_id start timeout : ∀ fuel st w,
  Outage.stream_loop no_outage fuel task_id start timeout st w
  = stream_loop fuel task_id start timeout st w.
Proof. reflexivity. Qed.

Lemma relay_no_outage task_id w :
  Outage.stream_completion_response no_outage task_id w
  = stream_completion_response task_id w.
Proof. apply stream_loop_no_outage. Qed.

(** C2: the code at a failing input.  Job [abc123] of the specification,
    its two chunks and its result in the broker, and a server that carries
    out what reads and refuses what deletes.  The relay yields the two
    chunks and the final frame, and goes on to delete the result key
    (line 299); the exception this raises is caught by the handler of the
    loop body (line 305), which yields a streaming error: the final frame
    is not the last frame, and there are two terminal frames.  Without the
    refusal the same relay yields the first three frames and no more. *)
Theorem relay_error_after_final_frame e :
  let w := fresh abc123_done 0 [] in
  frames (Outage.stream_completion_response (refuses_deletes e) "abc123") w
  = [Chunk 0 (chunk "Hel"); Chunk 1 (chunk "lo");
     FinalStop (final_chunk [("stop", JBool true); ("slot_id", JNum 2)]);
     StreamingError (streaming_error e)]
  ∧ frames (Outage.stream_completion_response no_outage "abc123") w
    = [Chunk 0 (chunk "Hel"); Chunk 1 (chunk "lo");
       FinalStop (final_chunk [("stop", JBool true); ("slot_id", JNum 2)])].
Proof. intros w. split; vm_compute; reflexivity. Qed.

(** ** The order of the frames, whatever fails *)

Lemma ascending_le lo hi fs : ascending lo hi fs → (lo ≤ hi)%nat.
Proof. induction 1; lia. Qed.










Arguments Outage.stream_loop : simpl never.

Section InOrder.

Variable outage : outages.
Variable task_id : string.
Variable w : world.











End InOrder.


